(** * Sound capture and analysis pipeline of the [whoami] site

    Shallow embedding of
      - [record3sPCM]                 (pages/sound-capture/AudioRecord.tsx)
      - [nextPow2], [applyHann], [fftComplex], the spectrum computation of
        [SpectrumCanvas] and the quantiser of [SamplingCanvas]
                                      (pages/sound-capture/AudioExplorer.tsx)

    Conventions.
      - JavaScript numbers that hold integers (lengths, indices, loop
        counters, bit patterns) are [Z]; the 32-bit operators [<<], [>>],
        [&], [^], [|] and [Math.clz32] are written out with their
        conversions to 32 bits.
      - Typed arrays are lists; a write outside the array is ignored, as
        for a typed array, and the constructors and [set] raise
        [RangeError] where the typed array does.
      - The amplitudes the spectral code works on are real numbers (the
        code needs [cos], [sin], [hypot]): there the rounding of binary
        floating point is not modelled.  The amplitudes of the capture
        code are an arbitrary type.
      - The frame count of the capture and the quantiser of
        [SamplingCanvas] are modelled in the arithmetic of the code:
        [Double] rounds every result to binary64 (to the nearest, ties
        to even), and a sample of the buffer is a rational that a
        binary32 cell holds.  [Sampling] is the quantiser over exact
        rationals, [SamplingDouble] the quantiser in doubles. *)

From Stdlib Require Import ZArith QArith Qround Qminmax Qabs Qpower Reals Lia Psatz.
From stdpp Require Import base tactics option list.

Set Default Proof Using "Type".
#[local] Open Scope Z_scope.

(** ** JavaScript run-time model *)

Module JS.

(** Exceptions. [RangeError] is the only one the modelled code can raise
    (typed array constructors and [set]).  [InvalidFftSize] and
    [InvalidParameters] are the error names of the design document; no
    code path constructs them. *)
Inductive error : Type :=
  | RangeError
  | InvalidFftSize
  | InvalidParameters.

(** Outcome of running a piece of code with a bound on the number of
    iterations of its unbounded loops. *)
Inductive result (A : Type) : Type :=
  | Returned (a : A)
  | Thrown (e : error)
  | OutOfFuel.
Arguments Returned {A} a.
Arguments Thrown {A} e.
Arguments OutOfFuel {A}.

Definition bind {A B} (m : result A) (k : A -> result B) : result B :=
  match m with
  | Returned a => k a
  | Thrown e => Thrown e
  | OutOfFuel => OutOfFuel
  end.

#[global] Instance result_ret : MRet result := @Returned.
#[global] Instance result_bind : MBind result := fun A B k m => bind m k.

(** [for (let i = i0; i < i0 + count; i++) s = body(i, s)] *)
Fixpoint for_up {S : Type} (count : nat) (i : Z) (body : Z -> S -> S) (s : S) : S :=
  match count with
  | O => s
  | Datatypes.S c => for_up c (i + 1) body (body i s)
  end.

(** The same loop with a body that may raise or run out of fuel. *)
Fixpoint for_upM {S : Type} (count : nat) (i : Z) (body : Z -> S -> result S)
    (s : S) : result S :=
  match count with
  | O => Returned s
  | Datatypes.S c => s' ← body i s; for_upM c (i + 1) body s'
  end.

(** [while (cond(s)) s = body(s)], at most [fuel] tests of the condition. *)
Fixpoint while {S : Type} (fuel : nat) (cond : S -> bool)
    (body : S -> result S) (s : S) : result S :=
  match fuel with
  | O => OutOfFuel
  | Datatypes.S f =>
      if cond s then s' ← body s; while f cond body s' else Returned s
  end.

(** *** 32-bit integer operators *)

Definition ToInt32 (z : Z) : Z := (z + 2147483648) mod 4294967296 - 2147483648.
Definition ToUint32 (z : Z) : Z := z mod 4294967296.

(** [a << b] *)
Definition shl (a b : Z) : Z :=
  ToInt32 (Z.shiftl (ToInt32 a) (ToUint32 b mod 32)).
(** [a >> b] *)
Definition sar (a b : Z) : Z := Z.shiftr (ToInt32 a) (ToUint32 b mod 32).
(** [a & b], [a ^ b], [a | b] *)
Definition band (a b : Z) : Z := Z.land (ToInt32 a) (ToInt32 b).
Definition bxor (a b : Z) : Z := Z.lxor (ToInt32 a) (ToInt32 b).
Definition bor (a b : Z) : Z := Z.lor (ToInt32 a) (ToInt32 b).

(** [Math.clz32(x)] *)
Definition clz32 (x : Z) : Z :=
  let u := ToUint32 x in
  if u =? 0 then 32 else 31 - Z.log2 u.

(** *** Typed arrays *)

Section TypedArray.
Context {A : Type} (zero : A).

(** [new Float32Array(n)], [new Float64Array(n)] for an integer [n]. *)
Definition new_array (n : Z) : result (list A) :=
  if n <? 0 then Thrown RangeError else Returned (replicate (Z.to_nat n) zero).

(** [a.length] *)
Definition len (a : list A) : Z := Z.of_nat (length a).

(** Relative index of [subarray]: negative counts from the end. *)
Definition rel_index (a : list A) (i : Z) : Z :=
  if i <? 0 then Z.max (len a + i) 0 else Z.min i (len a).

(** [a.subarray(b, e)] (the contents; the aliasing is not used by the
    modelled code, which only reads from the view). *)
Definition subarray (a : list A) (b e : Z) : list A :=
  let b' := rel_index a b in
  let e' := rel_index a e in
  take (Z.to_nat (Z.max (e' - b') 0)) (drop (Z.to_nat b') a).

(** [dst.set(src, offset)] *)
Definition typed_set (dst src : list A) (offset : Z) : result (list A) :=
  if (offset <? 0) || (len dst <? offset + len src) then Thrown RangeError
  else Returned (take (Z.to_nat offset) dst ++ src
                 ++ drop (Z.to_nat (offset + len src)) dst).

(** [a[i] = v]: ignored outside the array. *)
Definition aset (a : list A) (i : Z) (v : A) : list A :=
  if i <? 0 then a else <[Z.to_nat i := v]> a.

(** [a[i]] as an option: [None] is JavaScript's [undefined]. *)
Definition aget_opt (a : list A) (i : Z) : option A :=
  if i <? 0 then None else a !! Z.to_nat i.

(** [a[i]] where the code uses the value as a number.  Outside the array
    the source reads [undefined]; the model reads [zero] there. *)
Definition aget (a : list A) (i : Z) : A := default zero (aget_opt a i).
End TypedArray.

End JS.

(** ** Binary floating point: the numbers of the code *)

Module Double.
#[local] Open Scope Q_scope.

(** A JavaScript number: a finite binary64 value, an infinity, or NaN.
    The sign of zero is not kept. *)
Inductive number : Type :=
  | Fin (x : Q)
  | PInf
  | NInf
  | NaN.

(** [floor(log2 x)] for a positive [x]. *)
Definition Qlog2 (x : Q) : Z :=
  let k := (Z.log2 (Qnum x) - Z.log2 (Z.pos (Qden x)))%Z in
  if Qle_bool (2 ^ k) x then k else (k - 1)%Z.

(** The integer nearest to [y], a tie going to the even one. *)
Definition round_even (y : Q) : Z :=
  let f := Qfloor y in
  match Qcompare (y - inject_Z f) (1 # 2) with
  | Lt => f
  | Gt => (f + 1)%Z
  | Eq => if Z.even f then f else (f + 1)%Z
  end.

(** Rounding to 53 significant bits, to the nearest, a tie going to the
    even significand, with the subnormal numbers below [2^-1022]. *)
Definition round64 (x : Q) : Q :=
  if Qeq_bool x 0 then 0
  else
    let e := Z.max (-1074) (Qlog2 (Qabs x) - 52) in
    Qred (inject_Z (round_even (x / 2 ^ e)) * 2 ^ e).

(** The number a real result is stored as: rounded, and an infinity from
    [2^1024] on. *)
Definition of_Q (x : Q) : number :=
  let y := round64 x in
  if Qle_bool (2 ^ 1024) (Qabs y) then (if Qle_bool 0 y then PInf else NInf)
  else Fin y.

Definition of_Z (z : Z) : number := of_Q (inject_Z z).

(** The sign of a number: [-1], [0] or [1]. *)
Definition sign (a : number) : Z :=
  match a with
  | Fin x => match Qcompare x 0 with Lt => -1 | Eq => 0 | Gt => 1 end
  | PInf => 1
  | NInf => -1
  | NaN => 0
  end.

Definition inf_of (s : Z) : number := if (0 <=? s)%Z then PInf else NInf.

(** [-a], [a + b], [a - b], [a * b], [a / b] *)
Definition fneg (a : number) : number :=
  match a with
  | Fin x => Fin (- x)
  | PInf => NInf
  | NInf => PInf
  | NaN => NaN
  end.

Definition fadd (a b : number) : number :=
  match a, b with
  | NaN, _ | _, NaN => NaN
  | Fin x, Fin y => of_Q (x + y)
  | PInf, NInf | NInf, PInf => NaN
  | PInf, _ | _, PInf => PInf
  | NInf, _ | _, NInf => NInf
  end.

Definition fsub (a b : number) : number := fadd a (fneg b).

Definition fmul (a b : number) : number :=
  match a, b with
  | NaN, _ | _, NaN => NaN
  | Fin x, Fin y => of_Q (x * y)
  | _, _ => if (sign a * sign b =? 0)%Z then NaN else inf_of (sign a * sign b)
  end.

(** A zero divisor counts as [+0]: the modelled code divides by integers
    it was given, never by a zero it computed with a sign. *)
Definition fdiv (a b : number) : number :=
  match a, b with
  | NaN, _ | _, NaN => NaN
  | Fin x, Fin y =>
      if Qeq_bool y 0 then (if Qeq_bool x 0 then NaN else inf_of (sign a))
      else of_Q (x / y)
  | Fin _, _ => Fin 0
  | _, Fin y => inf_of (if Qle_bool 0 y then sign a else (- sign a)%Z)
  | _, _ => NaN
  end.

(** [a <= b]: false when one of them is NaN. *)
Definition fle (a b : number) : bool :=
  match a, b with
  | NaN, _ | _, NaN => false
  | NInf, _ | _, PInf => true
  | Fin x, Fin y => Qle_bool x y
  | _, _ => false
  end.

(** [Math.min(a, b)], [Math.max(a, b)] *)
Definition Math_min (a b : number) : number :=
  match a, b with
  | NaN, _ | _, NaN => NaN
  | _, _ => if fle a b then a else b
  end.

Definition Math_max (a b : number) : number :=
  match a, b with
  | NaN, _ | _, NaN => NaN
  | _, _ => if fle a b then b else a
  end.

(** [Math.floor], [Math.ceil], [Math.round] (a tie going up). *)
Definition on_finite (f : Q -> Z) (a : number) : number :=
  match a with
  | Fin x => Fin (inject_Z (f x))
  | _ => a
  end.

Definition Math_floor : number -> number := on_finite Qfloor.
Definition Math_ceil : number -> number := on_finite Qceiling.
Definition Math_round : number -> number :=
  on_finite (fun x => Qfloor (x + (1 # 2))).

(** Vocabulary of the statements: [x] is [m * 2^k] with a significand
    [m] of at most [p] bits and an exponent [k] of at least [emin]; the
    binary64 and the binary32 values. *)
Definition representable (p emin : Z) (x : Q) : Prop :=
  exists m k : Z, (Z.abs m < 2 ^ p)%Z /\ (emin <= k)%Z /\ x == inject_Z m * 2 ^ k.

Definition is_double (x : Q) : Prop := representable 53 (-1074) x /\ Qabs x < 2 ^ 1024.
Definition is_float32 (x : Q) : Prop := representable 24 (-149) x /\ Qabs x < 2 ^ 128.

(** The exponent of the last place of the double nearest to [x]. *)
Definition ulp_exp (x : Q) : Z := Z.max (-1074) (Qlog2 (Qabs x) - 52).

End Double.

(** ** Capture pipeline: [record3sPCM] *)

Module Capture.
Import JS Double.

(** [Math.ceil(durationSec * sampleRate)].  The two arguments are the
    values the caller and the audio context hold, stored as doubles; the
    product is rounded as the multiplication of the code rounds it, so
    [targetFrames (11 # 10) 44100] is 48511 where [ceil(1.1 * 44100)] is
    48510.  The result is an integer, an infinity or NaN. *)
Definition targetFrames (durationSec sampleRate : Q) : number :=
  Math_ceil (fmul (of_Q durationSec) (of_Q sampleRate)).

(** [collected >= targetFrames]; the running total is an integer that a
    number holds exactly. *)
Definition reached (target : number) (collected : Z) : bool :=
  fle target (Fin (inject_Z collected)).

Section Record.
Context {sample : Type} (zero : sample).

(** The promise returned by [record3sPCM]. *)
Inductive promise : Type :=
  | Pending
  | Resolved (samples : list sample) (sampleRate : Q)
  | Rejected.

(** What the port of the worklet node delivers: a chunk ([onmessage]) or a
    failed transfer ([onmessageerror]). *)
Inductive event : Type :=
  | Message (chunk : list sample)
  | MessageError.

(** What the message handler closes over: the chunk list, the running
    total, whether [recorder.port.onmessage] is still installed, and the
    promise. *)
Record session : Type := Session {
  chunks : list (list sample);
  collected : Z;
  listening : bool;
  done : promise
}.

Definition start : session :=
  {| chunks := []; collected := 0; listening := true; done := Pending |}.

(** The loop [for (const c of chunks) { ... if (offset >= targetFrames) break; }]
    that fills [samples]. *)
Fixpoint copy_chunks (target : Z) (cs : list (list sample))
    (samples : list sample) (offset : Z) : result (list sample) :=
  match cs with
  | [] => Returned samples
  | c :: rest =>
      let copyCount := Z.min (len c) (target - offset) in
      samples ← typed_set samples
                  (if copyCount =? len c then c else subarray c 0 copyCount)
                  offset;
      let offset := offset + copyCount in
      if target <=? offset then Returned samples
      else copy_chunks target rest samples offset
  end.

(** [onMsg]: one message from the worklet.  [cleanup()] removes the
    handler; [resolve] settles the promise.  An exception that escapes
    the handler is the outcome of the step.  A finite [targetFrames] is
    the integer [Math.ceil] returned, and the copy loop counts in
    integers; the test holds for no total when [targetFrames] is
    [Infinity] or NaN, and for every total when it is [-Infinity], where
    [new Float32Array(targetFrames)] raises. *)
Definition onMsg (target : number) (sampleRate : Q) (st : session)
    (chunk : list sample) : result session :=
  let chunks' := chunks st ++ [chunk] in
  let collected' := collected st + len chunk in
  if reached target collected' then
    match target with
    | Fin x =>
        samples ← new_array zero (Qceiling x);
        samples ← copy_chunks (Qceiling x) chunks' samples 0;
        Returned {| chunks := chunks'; collected := collected';
                    listening := false; done := Resolved samples sampleRate |}
    | _ => Thrown RangeError
    end
  else
    Returned {| chunks := chunks'; collected := collected';
                listening := listening st; done := done st |}.

(** [onError]: [cleanup()], then [reject]. *)
Definition onError (st : session) : session :=
  {| chunks := chunks st; collected := collected st;
     listening := false; done := Rejected |}.

(** The events of the port, in arrival order.  Once [cleanup()] has
    removed the two handlers, what arrives is dropped. *)
Fixpoint deliver (target : number) (sampleRate : Q) (st : session)
    (events : list event) : result session :=
  match events with
  | [] => Returned st
  | e :: rest =>
      if listening st then
        st' ← match e with
              | Message chunk => onMsg target sampleRate st chunk
              | MessageError => Returned (onError st)
              end;
        deliver target sampleRate st' rest
      else Returned st
  end.

(** [record3sPCM(durationSec)] on a context with rate [sampleRate] whose
    port delivers [events]: the state of the promise afterwards. *)
Definition record3sPCM (durationSec sampleRate : Q)
    (events : list event) : result promise :=
  st ← deliver (targetFrames durationSec sampleRate) sampleRate start events;
  Returned (done st).

End Record.
Arguments Message {sample} chunk.
Arguments MessageError {sample}.
Arguments Pending {sample}.
Arguments Rejected {sample}.
End Capture.

(** ** Spectral analysis: [nextPow2], [applyHann], [fftComplex], [SpectrumCanvas] *)

Module Spectrum.
Import JS.
#[local] Open Scope R_scope.

Notation "a .[ i ]" := (aget 0%R a i) (at level 1, format "a .[ i ]").

(** [1 << (32 - Math.clz32(Math.max(1, n - 1)))] *)
Definition nextPow2 (n : Z) : Z := shl 1 (32 - clz32 (Z.max 1 (n - 1))).

(** The weight [0.5 * (1 - Math.cos((2 * Math.PI * n) / (N - 1)))], a real
    number.  For [N = 1] the code divides zero by zero and its weight is
    NaN, which no real number stands for: what is stated about the weight
    is stated for [N >= 2]. *)
Definition hann_weight (n N : Z) : R :=
  0.5 * (1 - cos ((2 * PI * IZR n) / IZR (N - 1))).

(** [applyHann(x)]: in place, [x[n] *= w] for [n = 0 .. N-1]. *)
Definition applyHann (x : list R) : list R :=
  let N := len x in
  for_up (Z.to_nat N) 0 (fun n x => aset x n (x.[n] * hann_weight n N)) x.

(** Bit-reversal permutation of [fftComplex]: the inner
    [while (j & m) { j ^= m; m >>= 1; }]. *)
Definition rev_carry (fuel : nat) (j m : Z) : result (Z * Z) :=
  while fuel (fun '(j, m) => negb (band j m =? 0)%Z)
    (fun '(j, m) => Returned (bxor j m, sar m 1)) (j, m).

(** The exchange [re[i] <-> re[j]], [im[i] <-> im[j]]. *)
Definition swap (i j : Z) (a : list R * list R) : list R * list R :=
  let '(re, im) := a in
  let tr := re.[i] in
  let ti := im.[i] in
  let re := aset re i re.[j] in
  let im := aset im i im.[j] in
  let re := aset re j tr in
  let im := aset im j ti in
  (re, im).

(** [for (let i = 0, j = 0; i < N; i++) { ... }]; the state is [j] and the
    two arrays. *)
Definition bit_reverse (fuel : nat) (N : Z) (a : list R * list R)
    : result (Z * (list R * list R)) :=
  for_upM (Z.to_nat N) 0
    (fun i '(j, a) =>
       let a := if (i <? j)%Z then swap i j a else a in
       '(j, m) ← rev_carry fuel j (sar N 1);
       Returned (bor j m, a))
    (0%Z, a).

(** One butterfly on the pair [(i0, i1)] with twiddle factor [wr + i wi]. *)
Definition butterfly (wr wi : R) (i0 i1 : Z) (a : list R * list R)
    : list R * list R :=
  let '(re, im) := a in
  let tr := wr * re.[i1] - wi * im.[i1] in
  let ti := wr * im.[i1] + wi * re.[i1] in
  let re := aset re i1 (re.[i0] - tr) in
  let im := aset im i1 (im.[i0] - ti) in
  let re := aset re i0 (re.[i0] + tr) in
  let im := aset im i0 (im.[i0] + ti) in
  (re, im).

(** [w *= wstep] *)
Definition twiddle_next (wpr wpi : R) (w : R * R) : R * R :=
  let '(wr, wi) := w in
  let wrNext := wr * wpr - wi * wpi in
  let wi := wr * wpi + wi * wpr in
  (wrNext, wi).

(** [for (let k = 0; k < half; k++) { ... }] with [wr = 1, wi = 0] at entry. *)
Definition block (start half : Z) (wpr wpi : R) (a : list R * list R)
    : list R * list R :=
  snd (for_up (Z.to_nat half) 0
         (fun k '(w, a) =>
            let i0 := (start + k)%Z in
            let i1 := (i0 + half)%Z in
            (twiddle_next wpr wpi w, butterfly (fst w) (snd w) i0 i1 a))
         ((1, 0), a)).

(** [for (let start = 0; start < N; start += size) { ... }] *)
Definition stage (fuel : nat) (N size half : Z) (wpr wpi : R)
    (a : list R * list R) : result (list R * list R) :=
  '(_, a) ← while fuel (fun '(start, _) => (start <? N)%Z)
              (fun '(start, a) =>
                 Returned ((start + size)%Z, block start half wpr wpi a))
              (0%Z, a);
  Returned a.

(** [for (let size = 2; size <= N; size <<= 1) { ... }] *)
Definition stages (fuel : nat) (N : Z) (a : list R * list R)
    : result (list R * list R) :=
  '(_, a) ← while fuel (fun '(size, _) => (size <=? N)%Z)
              (fun '(size, a) =>
                 let half := sar size 1 in
                 let theta := (-2 * PI) / IZR size in
                 let wpr := cos theta in
                 let wpi := sin theta in
                 a ← stage fuel N size half wpr wpi a;
                 Returned (shl size 1, a))
              (2%Z, a);
  Returned a.

(** The arrays [re], [im] of [fftComplex] before the permutation:
    [re.set(realIn.subarray(0, Math.min(N, realIn.length)))]. *)
Definition fft_load (realIn : list R) : result (list R * list R) :=
  let N := nextPow2 (len realIn) in
  re ← new_array 0 N;
  im ← new_array 0 N;
  re ← typed_set re (subarray realIn 0 (Z.min N (len realIn))) 0;
  Returned (re, im).

(** [fftComplex(realIn)] *)
Definition fftComplex (fuel : nat) (realIn : list R) : result (list R * list R) :=
  let N := nextPow2 (len realIn) in
  a ← fft_load realIn;
  '(_, a) ← bit_reverse fuel N a;
  stages fuel N a.

(** [Math.hypot(a, b)] *)
Definition hypot (a b : R) : R := sqrt (a * a + b * b).

Inductive windowing : Type := hann | none.

Record SpectralFrame : Type := { mags : list R; binHz : R }.

(** The segment handed to [fftComplex]: [fftSize] samples from the start of
    the buffer, zero-padded, windowed when asked. *)
Definition segment (samples : list R) (fftSize : Z) (w : windowing)
    : result (list R) :=
  let N := fftSize in
  x ← new_array 0 N;
  let copyCount := Z.min N (len samples) in
  let x := for_up (Z.to_nat copyCount) 0 (fun i x => aset x i samples.[i]) x in
  Returned (match w with hann => applyHann x | none => x end).

(** The two loops that fill [mags] from [re], [im]. *)
Definition magnitudes (N : Z) (re im : list R) : result (list R) :=
  let half := (N / 2)%Z in
  mags ← new_array 0 half;
  let mags := for_up (Z.to_nat half) 0
                (fun k mags => aset mags k (hypot re.[k] im.[k])) mags in
  let mags := for_up (Z.to_nat half) 0
                (fun k mags => aset mags k ((mags.[k] * 2) / IZR N)) mags in
  Returned mags.

(** The [useMemo] of [SpectrumCanvas] that computes [{ mags, binHz }]: the
    design document's [analyze]. *)
Definition analyze (fuel : nat) (samples : list R) (sampleRate : R)
    (fftSize : Z) (w : windowing) : result SpectralFrame :=
  let N := fftSize in
  x ← segment samples N w;
  '(re, im) ← fftComplex fuel x;
  mags ← magnitudes N re im;
  Returned {| mags := mags; binHz := sampleRate / IZR N |}.

(** The butterfly in the statement order the design document writes:
    [re[i0] += tr; im[i0] += ti; re[i1] = re[i0] - tr] (and the same for
    [im[i1]]), the product [tr, ti] being computed first. *)
Definition butterfly_spec_order (wr wi : R) (i0 i1 : Z) (a : list R * list R)
    : list R * list R :=
  let '(re, im) := a in
  let tr := wr * re.[i1] - wi * im.[i1] in
  let ti := wr * im.[i1] + wi * re.[i1] in
  let re := aset re i0 (re.[i0] + tr) in
  let im := aset im i0 (im.[i0] + ti) in
  let re := aset re i1 (re.[i0] - tr) in
  let im := aset im i1 (im.[i0] - ti) in
  (re, im).

(** Vocabulary of the statements: [n] is a power of two; both arrays have
    length [N]; the twiddle factor after [k] steps of the recurrence from
    [1 + 0i]. *)
Definition is_pow2 (n : Z) : Prop := exists k : Z, (0 <= k)%Z /\ n = (2 ^ k)%Z.

Definition lens (N : Z) (a : list R * list R) : Prop :=
  len (fst a) = N /\ len (snd a) = N.

Definition twiddle (wpr wpi : R) (k : nat) : R * R :=
  Nat.iter k (twiddle_next wpr wpi) (1, 0).

End Spectrum.

(** ** Sampling and quantisation: the quantiser of [SamplingCanvas] *)

(** The computation over exact rationals: no product and no quotient is
    rounded.  [SamplingDouble] below is the same code in the arithmetic
    of doubles; the two differ where a rounded product falls on the other
    side of an integer ([windowSamples] for [winMs = 290] at 48 kHz is
    13919 in the code and 13920 here) and from [bits = 31] on, where
    [v * maxInt] no longer fits a double. *)
Module Sampling.
Import JS.
#[local] Open Scope Q_scope.

(** [Math.round(x)]: the nearest integer, a tie going up. *)
Definition js_round (x : Q) : Z := Qfloor (x + (1 # 2)).

(** [a / b] on numbers.  [None] is a result that is no finite number; in
    the quantiser a zero divisor only meets a zero dividend ([NaN]). *)
Definition fdiv (a b : Q) : option Q :=
  if Qeq_bool b 0 then None else Some (a / b).

(** [(1 << (bits - 1)) - 1] *)
Definition maxInt (bits : Z) : Z := (shl 1 (bits - 1) - 1)%Z.

(** The view state of the component: [windowSamples], [clampedStart],
    [endSample]. *)
Definition windowSamples (samples : list Q) (sampleRate : positive) (winMs : Z) : Z :=
  Z.max 256
    (Z.min (len samples)
       (Qfloor ((inject_Z winMs / 1000) * inject_Z (Z.pos sampleRate)))).

Definition clampedStart (samples : list Q) (sampleRate : positive)
    (winMs startSample : Z) : Z :=
  Z.max 0
    (Z.min startSample
       (Z.max 0 (len samples - windowSamples samples sampleRate winMs))).

Definition endSample (samples : list Q) (sampleRate : positive)
    (winMs startSample : Z) : Z :=
  (clampedStart samples sampleRate winMs startSample
   + windowSamples samples sampleRate winMs)%Z.

(** [startTime], [endTimeSec] *)
Definition startTime (samples : list Q) (sampleRate : positive)
    (winMs startSample : Z) : Q :=
  inject_Z (clampedStart samples sampleRate winMs startSample)
  / inject_Z (Z.pos sampleRate).

Definition endTimeSec (samples : list Q) (sampleRate : positive)
    (winMs startSample : Z) : Q :=
  inject_Z (endSample samples sampleRate winMs startSample)
  / inject_Z (Z.pos sampleRate).

(** [iStart], [iEnd] *)
Definition iStart (samples : list Q) (sampleRate : positive)
    (winMs startSample targetRate : Z) : Z :=
  Qceiling (startTime samples sampleRate winMs startSample * inject_Z targetRate).

Definition iEnd (samples : list Q) (sampleRate : positive)
    (winMs startSample targetRate : Z) : Z :=
  Qfloor (endTimeSec samples sampleRate winMs startSample * inject_Z targetRate).

(** One output sample: its time [t], source index [srcIdx], clamped
    amplitude [v], code [q] and reconstructed amplitude [vq]. *)
Record point : Type := Point {
  t : option Q;
  srcIdx : option Z;
  v : option Q;
  q : option Z;
  vq : option Q
}.

(** The body shared by the two loops over [i]. *)
Definition quantize (samples : list Q) (sampleRate : positive)
    (targetRate maxInt i : Z) : point :=
  let t := fdiv (inject_Z i) (inject_Z targetRate) in
  let srcIdx :=
    r ← fdiv (inject_Z (i * Z.pos sampleRate)) (inject_Z targetRate);
    Some (Z.min (len samples - 1) (js_round r)) in
  let v := k ← srcIdx; s ← aget_opt samples k; Some (Qmax (-1) (Qmin 1 s)) in
  let q := x ← v; Some (js_round (x * inject_Z maxInt)) in
  let vq := c ← q; fdiv (inject_Z c) (inject_Z maxInt) in
  {| t := t; srcIdx := srcIdx; v := v; q := q; vq := vq |}.

(** [for (let i = iStart; i <= iEnd; i++)]: the indices visited. *)
Definition indices (first last : Z) : list Z :=
  for_up (Z.to_nat (last - first + 1)) first (fun i acc => acc ++ [i]) [].

(** The vertices of the zero-order-hold path: [moveTo] the first sample,
    then for each later one a horizontal and a vertical [lineTo]. *)
Fixpoint zoh_path (prev : option (option Q)) (ps : list point)
    : list (option Q * option Q) :=
  match ps with
  | [] => []
  | p :: rest =>
      match prev with
      | None => [(t p, vq p)]
      | Some prevY => [(t p, prevY); (t p, vq p)]
      end ++ zoh_path (Some (vq p)) rest
  end.

Record QuantizedTrace : Type := { stems : list point; zoh : list (option Q * option Q) }.

(** The quantiser of [SamplingCanvas] for the state
    [(targetRate, bits, winMs, startSample)]: the design document's
    [simulate].  The code has no failing path. *)
Definition simulate (samples : list Q) (sampleRate : positive)
    (targetRate bits winMs startSample : Z) : result QuantizedTrace :=
  let m := maxInt bits in
  let first := iStart samples sampleRate winMs startSample targetRate in
  let last := iEnd samples sampleRate winMs startSample targetRate in
  let ps := quantize samples sampleRate targetRate m <$> indices first last in
  Returned {| stems := ps; zoh := zoh_path None ps |}.

(** The design document's mapping, in its words: source index
    [round(i * sourceRate / targetRate)] with no bound, then clamp,
    quantise, reconstruct. *)
Definition quantize_spec (samples : list Q) (sampleRate : positive)
    (targetRate bits i : Z) : point :=
  let m := (2 ^ (bits - 1) - 1)%Z in
  let t := fdiv (inject_Z i) (inject_Z targetRate) in
  let srcIdx :=
    r ← fdiv (inject_Z (i * Z.pos sampleRate)) (inject_Z targetRate);
    Some (js_round r) in
  let v := k ← srcIdx; s ← aget_opt samples k; Some (Qmax (-1) (Qmin 1 s)) in
  let q := x ← v; Some (js_round (x * inject_Z m)) in
  let vq := c ← q; fdiv (inject_Z c) (inject_Z m) in
  {| t := t; srcIdx := srcIdx; v := v; q := q; vq := vq |}.

End Sampling.

(** ** The quantiser of [SamplingCanvas] in the arithmetic of the code *)

Module SamplingDouble.
Import JS Double.
#[local] Open Scope Q_scope.

(** The same component, every number a double: the divisions and the
    products round, the loop counter is a number, and a cell of the
    buffer holds a finite value (the value of a [Float32Array] cell, a
    rational here).  [sampleRate], [targetRate], [bits], [winMs] and
    [startSample] are integers: the rate of the context and what
    [parseInt] returns for the value of a range input. *)

(** [samples[k]], read where the code uses it as a number: [undefined]
    (no such cell) becomes NaN. *)
Definition read (samples : list Q) (k : number) : number :=
  match k with
  | Fin x =>
      if Qeq_bool x (inject_Z (Qfloor x)) then
        match aget_opt samples (Qfloor x) with
        | Some s => Fin s
        | None => NaN
        end
      else NaN
  | _ => NaN
  end.

Definition length_of (samples : list Q) : number := of_Z (len samples).

(** The view state: [windowSamples], [clampedStart], [endSample]. *)
Definition windowSamples (samples : list Q) (sampleRate : positive) (winMs : Z)
    : number :=
  Math_max (Fin 256)
    (Math_min (length_of samples)
       (Math_floor (fmul (fdiv (of_Z winMs) (Fin 1000)) (of_Z (Z.pos sampleRate))))).

Definition clampedStart (samples : list Q) (sampleRate : positive)
    (winMs startSample : Z) : number :=
  Math_max (Fin 0)
    (Math_min (of_Z startSample)
       (Math_max (Fin 0)
          (fsub (length_of samples) (windowSamples samples sampleRate winMs)))).

Definition endSample (samples : list Q) (sampleRate : positive)
    (winMs startSample : Z) : number :=
  fadd (clampedStart samples sampleRate winMs startSample)
    (windowSamples samples sampleRate winMs).

(** [startTime], [endTimeSec] *)
Definition startTime (samples : list Q) (sampleRate : positive)
    (winMs startSample : Z) : number :=
  fdiv (clampedStart samples sampleRate winMs startSample) (of_Z (Z.pos sampleRate)).

Definition endTimeSec (samples : list Q) (sampleRate : positive)
    (winMs startSample : Z) : number :=
  fdiv (endSample samples sampleRate winMs startSample) (of_Z (Z.pos sampleRate)).

(** [iStart], [iEnd] *)
Definition iStart (samples : list Q) (sampleRate : positive)
    (winMs startSample targetRate : Z) : number :=
  Math_ceil (fmul (startTime samples sampleRate winMs startSample) (of_Z targetRate)).

Definition iEnd (samples : list Q) (sampleRate : positive)
    (winMs startSample targetRate : Z) : number :=
  Math_floor (fmul (endTimeSec samples sampleRate winMs startSample) (of_Z targetRate)).

(** One output sample, every field a number. *)
Record point : Type := Point {
  t : number;
  srcIdx : number;
  v : number;
  q : number;
  vq : number
}.

(** The body shared by the two loops over [i]. *)
Definition quantize (samples : list Q) (sampleRate : positive)
    (targetRate maxInt : Z) (i : number) : point :=
  let t := fdiv i (of_Z targetRate) in
  let srcIdx :=
    Math_min (of_Z (len samples - 1))
      (Math_round (fdiv (fmul i (of_Z (Z.pos sampleRate))) (of_Z targetRate))) in
  let v := Math_max (Fin (-1)) (Math_min (Fin 1) (read samples srcIdx)) in
  let q := Math_round (fmul v (of_Z maxInt)) in
  let vq := fdiv q (of_Z maxInt) in
  {| t := t; srcIdx := srcIdx; v := v; q := q; vq := vq |}.

(** [for (let i = iStart; i <= iEnd; i++)], the counter being a number:
    the points computed, in order. *)
Definition loop (fuel : nat) (first last : number) (body : number -> point)
    : result (list point) :=
  '(_, ps) ← while fuel (fun '(i, _) => fle i last)
               (fun '(i, ps) => Returned (fadd i (Fin 1), ps ++ [body i]))
               (first, []);
  Returned ps.

(** The vertices of the zero-order-hold path. *)
Fixpoint zoh_path (prev : option number) (ps : list point)
    : list (number * number) :=
  match ps with
  | [] => []
  | p :: rest =>
      match prev with
      | None => [(t p, vq p)]
      | Some prevY => [(t p, prevY); (t p, vq p)]
      end ++ zoh_path (Some (vq p)) rest
  end.

Record QuantizedTrace : Type := {
  stems : list point;
  zoh : list (number * number)
}.

(** The quantiser of [SamplingCanvas] in the arithmetic of the code. *)
Definition simulate (fuel : nat) (samples : list Q) (sampleRate : positive)
    (targetRate bits winMs startSample : Z) : result QuantizedTrace :=
  let m := Sampling.maxInt bits in
  let first := iStart samples sampleRate winMs startSample targetRate in
  let last := iEnd samples sampleRate winMs startSample targetRate in
  ps ← loop fuel first last (quantize samples sampleRate targetRate m);
  Returned {| stems := ps; zoh := zoh_path None ps |}.

End SamplingDouble.

(** ** The windowed transform: [WindowFFTCanvas] *)

Module WindowFFT.
Import JS Spectrum.
#[local] Open Scope R_scope.

(** The [useMemo] of [WindowFFTCanvas]: the transform of [windowSize]
    samples taken around [centerIndex], always Hann-weighted. *)
Definition windowFFT (fuel : nat) (samples : list R) (sampleRate : R)
    (windowSize centerIndex : Z) : result SpectralFrame :=
  if (len samples =? 0)%Z then Returned {| mags := []; binHz := 1 |}
  else
    let halfWin := (windowSize / 2)%Z in
    let start := Z.max 0 (centerIndex - halfWin) in
    let end_ := Z.min (len samples) (centerIndex + halfWin) in
    segment ← new_array 0 windowSize;
    let segSamples := subarray samples start end_ in
    segment ← typed_set segment segSamples 0;
    let segment := applyHann segment in
    '(re, im) ← fftComplex fuel segment;
    mags ← magnitudes windowSize re im;
    Returned {| mags := mags; binHz := sampleRate / IZR windowSize |}.

End WindowFFT.

(** ** The peak marker of [SpectrumCanvas] *)

Module Peak.
Import JS Spectrum.
#[local] Open Scope R_scope.

(** [mag > peakMag], where [peakMag] starts as [-Infinity] ([None]). *)
Definition above (mag : R) (peakMag : option R) : bool :=
  match peakMag with
  | None => true
  | Some m => if Rlt_dec m mag then true else false
  end.

(** [for (let k = kStart; k <= kEnd; k++) { ... if (mag > peakMag) { peakMag = mag; peakIdx = k; } }]
    from [peakMag = -Infinity], [peakIdx = kStart]. *)
Definition peak_scan (mags : list R) (kStart kEnd : Z) : option R * Z :=
  for_up (Z.to_nat (kEnd - kStart + 1)) kStart
    (fun k '(peakMag, peakIdx) =>
       let mag := mags.[k] in
       if above mag peakMag then (Some mag, k) else (peakMag, peakIdx))
    (None, kStart).

(** [mags.reduce((m, v) => (v > m ? v : m), floor)] with [floor = 1e-12]. *)
Definition maxMag (floor : R) (mags : list R) : R :=
  foldl (fun m v => if Rlt_dec m v then v else m) floor mags.

End Peak.

(** ** The envelope of [WaveformCanvas] *)

Module Waveform.
Import JS.
#[local] Open Scope Q_scope.

(** [if (v < vmin) vmin = v; if (v > vmax) vmax = v;] over [j = i0 .. i1-1],
    from [vmin = 1], [vmax = -1]. *)
Definition min_max (visible : list Q) (i0 i1 : Z) : Q * Q :=
  for_up (Z.to_nat (i1 - i0)) i0
    (fun j '(vmin, vmax) =>
       let v := aget 0 visible j in
       let vmin := if Qlt_le_dec v vmin then v else vmin in
       let vmax := if Qlt_le_dec vmax v then v else vmax in
       (vmin, vmax))
    (1, -1).

(** [for (let c = 0, i = 0; c < cols; c++, i += step) { ... if (i0 >= i1) break; ... }]:
    the columns drawn, each with its [vmin] and [vmax]. *)
Fixpoint columns (count : nat) (c i step : Z) (visible : list Q)
    : list (Z * (Q * Q)) :=
  match count with
  | O => []
  | Datatypes.S n =>
      let i0 := Z.min (len visible) i in
      let i1 := Z.min (len visible) (i + step) in
      if (i1 <=? i0)%Z then []
      else (c, min_max visible i0 i1) :: columns n (c + 1) (i + step) step visible
  end.

(** The envelope of the visible samples on a plot [plotW] pixels wide. *)
Definition envelope (visible : list Q) (plotW : Q) : list (Z * (Q * Q)) :=
  let cols := Z.max 1 (Qfloor plotW) in
  let step := Z.max 1 (Qfloor (inject_Z (len visible) / inject_Z cols)) in
  columns (Z.to_nat cols) 0 0 step visible.

(** The number of columns and the step of [envelope], the latter with
    the integer quotient for the floor of the rational one. *)
Definition cols_of (plotW : Q) : Z := Z.max 1 (Qfloor plotW).
Definition step_of (visible : list Q) (plotW : Q) : Z :=
  Z.max 1 (len visible / cols_of plotW).

End Waveform.

(** ** The discrete Fourier transform

    Vocabulary for what [fftComplex] computes. *)

Module Fourier.
Import JS Spectrum.
#[local] Open Scope R_scope.

(** The index [i] of [bits] bits with its bits in reverse order. *)
Fixpoint bitrev (bits : nat) (i : Z) : Z :=
  match bits with
  | O => 0
  | Datatypes.S b => (i mod 2) * 2 ^ Z.of_nat b + bitrev b (i / 2)
  end%Z.

(** The increment of an index of [bits] bits held in reverse order: what
    [while (j & m) { j ^= m; m >>= 1; } j |= m;] computes from
    [m = 2^(bits-1)]. *)
Fixpoint rev_inc (bits : nat) (j : Z) : Z :=
  match bits with
  | O => j
  | Datatypes.S b =>
      if (j <? 2 ^ Z.of_nat b)%Z then (j + 2 ^ Z.of_nat b)%Z
      else rev_inc b (j - 2 ^ Z.of_nat b)
  end.

(** [f 0 + ... + f (n - 1)] *)
Fixpoint sumR (n : nat) (f : nat -> R) : R :=
  match n with
  | O => 0
  | Datatypes.S m => sumR m f + f m
  end.

(** Bin [k] of the discrete Fourier transform of the [M] reals
    [f 0 .. f (M-1)]: the real and the imaginary part of
    [sum f(n) exp(-2 pi i n k / M)]. *)
Definition dft_re_of (f : nat -> R) (M : nat) (k : Z) : R :=
  sumR M (fun n => f n * cos (2 * PI * INR n * IZR k / INR M)).
Definition dft_im_of (f : nat -> R) (M : nat) (k : Z) : R :=
  - sumR M (fun n => f n * sin (2 * PI * INR n * IZR k / INR M)).

(** The transform of size [N] of the samples [x], read as zero past the
    end of [x]. *)
Definition dft_re (x : list R) (N k : Z) : R :=
  dft_re_of (fun n => x.[Z.of_nat n]) (Z.to_nat N) k.
Definition dft_im (x : list R) (N k : Z) : R :=
  dft_im_of (fun n => x.[Z.of_nat n]) (Z.to_nat N) k.

(** The cell [p] of both arrays. *)
Definition cell (a : list R * list R) (p : Z) : R * R := ((fst a).[p], (snd a).[p]).

(** The product [(tr, ti)] of a butterfly: [w] times the cell [q]. *)
Definition twiddled (w : R * R) (a : list R * list R) (q : Z) : R * R :=
  (fst w * (fst a).[q] - snd w * (snd a).[q],
   fst w * (snd a).[q] + snd w * (fst a).[q]).

(** The cell [p] after the butterflies of the block that starts at
    [start], by the cells before them. *)
Definition block_cell (start half : Z) (w : nat -> R * R) (a : list R * list R)
    (p : Z) : R * R :=
  let k := (p - start)%Z in
  if (k <? half)%Z then
    let t := twiddled (w (Z.to_nat k)) a (p + half) in
    ((fst a).[p] + fst t, (snd a).[p] + snd t)
  else
    let t := twiddled (w (Z.to_nat (k - half))) a p in
    ((fst a).[p - half] - fst t, (snd a).[p - half] - snd t).

(** The [2^s] values the block at [base] of the permuted array [y]
    stands for after the stage of size [2^s], and what the arrays hold
    after that stage: each block holds the transform of its values. *)
Definition sub_seq (y : Z -> R) (s : nat) (base : Z) (n : nat) : R :=
  y (base + bitrev s (Z.of_nat n))%Z.

Definition level (y : Z -> R) (N : Z) (s : nat) (a : list R * list R) : Prop :=
  forall b k : Z,
    (0 <= b)%Z -> ((b + 1) * 2 ^ Z.of_nat s <= N)%Z -> (0 <= k < 2 ^ Z.of_nat s)%Z ->
    cell a (b * 2 ^ Z.of_nat s + k)
    = (dft_re_of (sub_seq y s (b * 2 ^ Z.of_nat s)) (2 ^ s) k,
       dft_im_of (sub_seq y s (b * 2 ^ Z.of_nat s)) (2 ^ s) k).

(** The sizes [SpectrumCanvas] can hold in [fftSize]: the initial state
    [nextPow2(Math.min(samples.length, 1 << 15))] and the options of its
    selector, [[1024, ..., 32768].filter((n) => n <= 1 << 15)]. *)
Definition initial_fftSize (samples : list R) : Z :=
  nextPow2 (Z.min (len samples) (shl 1 15)).

Definition fftSize_options : list Z :=
  filter (fun n => (n <= shl 1 15)%Z) [1024; 2048; 4096; 8192; 16384; 32768]%Z.

End Fourier.

(** ** The frequency view of [SpectrumCanvas] *)

Module SpectrumView.
Import JS Sampling.
#[local] Open Scope Q_scope.




(** [Math.max(0, Math.floor(f0 / binHz))] and
    [Math.min(half - 1, Math.ceil(f1 / binHz))]; [None] when the quotient
    is no finite number. *)
Definition kStart (f0 binHz : Q) : option Z :=
  x ← fdiv f0 binHz; Some (Z.max 0 (Qfloor x)).

Definition kEnd (half : Z) (f1 binHz : Q) : option Z :=
  x ← fdiv f1 binHz; Some (Z.min (half - 1) (Qceiling x)).

End SpectrumView.

(** * Properties *)

(** ** Facts about the run-time model *)

Module JSFacts.
Import JS.

Lemma bind_returned {A B} (m : result A) (k : A -> result B) (a : A) :
  m = Returned a -> (m ≫= k) = k a.
Proof. intros ->. reflexivity. Qed.

Lemma bind_thrown {A B} (m : result A) (k : A -> result B) (e : error) :
  m = Thrown e -> (m ≫= k) = Thrown e.
Proof. intros ->. reflexivity. Qed.

Lemma bind_not_returned {A B} (m : result A) (k : A -> result B) (b : B) :
  (forall a, m = Returned a -> k a <> Returned b) -> (m ≫= k) <> Returned b.
Proof. destruct m as [a| |]; intros H; [by apply H|done|done]. Qed.

Section Arrays.
Context {A : Type} (zero : A).
Implicit Types a b : list A.

Lemma len_nonneg a : 0 <= len a.
Proof. unfold len. lia. Qed.

Lemma len_app a b : len (a ++ b) = len a + len b.
Proof. unfold len. rewrite length_app. lia. Qed.

Lemma len_replicate (n : Z) (x : A) : 0 <= n -> len (replicate (Z.to_nat n) x) = n.
Proof. intros Hn. unfold len. rewrite length_replicate. lia. Qed.

Lemma len_aset a i x : len (aset a i x) = len a.
Proof.
  unfold aset, len. destruct (i <? 0); [reflexivity|].
  by rewrite length_insert.
Qed.

Lemma new_array_returned (n : Z) :
  0 <= n -> new_array zero n = Returned (replicate (Z.to_nat n) zero).
Proof. intros Hn. unfold new_array. destruct (Z.ltb_spec n 0); [lia|done]. Qed.

Lemma new_array_thrown (n : Z) : n < 0 -> new_array zero n = Thrown RangeError.
Proof. intros Hn. unfold new_array. destruct (Z.ltb_spec n 0); [done|lia]. Qed.

Lemma subarray_prefix a (k : Z) :
  0 <= k <= len a -> subarray a 0 k = take (Z.to_nat k) a.
Proof.
  intros Hk. unfold subarray, rel_index.
  destruct (Z.ltb_spec k 0); [lia|]. simpl.
  replace (Z.min 0 (len a)) with 0 by (pose proof (len_nonneg a); lia).
  rewrite Z.min_l by lia. simpl. rewrite drop_0. f_equal. lia.
Qed.

Lemma typed_set_returned (dst src : list A) (offset : Z) :
  0 <= offset -> offset + len src <= len dst ->
  typed_set dst src offset
  = Returned (take (Z.to_nat offset) dst ++ src
              ++ drop (Z.to_nat (offset + len src)) dst).
Proof.
  intros H0 H1. unfold typed_set.
  destruct (Z.ltb_spec offset 0); [lia|].
  destruct (Z.ltb_spec (len dst) (offset + len src)); [lia|done].
Qed.

Lemma aget_aset_eq a i x : 0 <= i < len a -> aget zero (aset a i x) i = x.
Proof.
  intros Hi. unfold aget, aget_opt, aset, len in *.
  destruct (Z.ltb_spec i 0); [lia|].
  rewrite list_lookup_insert_eq; [done|lia].
Qed.

Lemma aget_aset_ne a i j x : i <> j -> aget zero (aset a i x) j = aget zero a j.
Proof.
  intros Hij. unfold aget, aget_opt, aset.
  destruct (Z.ltb_spec i 0), (Z.ltb_spec j 0); try done.
  rewrite list_lookup_insert_ne; [done|lia].
Qed.

End Arrays.

(** Invariant rule for the counted loop. *)
Lemma for_up_ind {S : Type} (P : Z -> S -> Prop) (body : Z -> S -> S)
    (count : nat) (i0 : Z) (s : S) :
  P i0 s ->
  (forall i s, i0 <= i < i0 + Z.of_nat count -> P i s -> P (i + 1) (body i s)) ->
  P (i0 + Z.of_nat count) (for_up count i0 body s).
Proof.
  revert i0 s. induction count as [|c IH]; intros i0 s H0 Hstep.
  - simpl. by rewrite Z.add_0_r.
  - simpl. replace (i0 + Z.of_nat (Datatypes.S c)) with ((i0 + 1) + Z.of_nat c) by lia.
    apply IH.
    + apply Hstep; [lia|done].
    + intros i s' Hi. apply Hstep. lia.
Qed.

(** Total-correctness rule for the bounded [while]: an invariant and a
    variant that each iteration decreases. *)
Lemma while_total {S : Type} (Inv : S -> Prop) (mu : S -> nat)
    (cond : S -> bool) (body : S -> result S) :
  (forall s, Inv s -> cond s = true ->
     exists s', body s = Returned s' /\ Inv s' /\ (mu s' < mu s)%nat) ->
  forall (fuel : nat) (s : S), Inv s -> (mu s < fuel)%nat ->
  exists s', while fuel cond body s = Returned s' /\ Inv s' /\ cond s' = false.
Proof.
  intros Hbody fuel. induction fuel as [|f IH]; intros s HI Hmu; [lia|].
  simpl. destruct (cond s) eqn:Hc.
  - destruct (Hbody s HI Hc) as (s' & -> & HI' & Hlt). simpl.
    apply IH; [done|lia].
  - eauto.
Qed.

(** A counted loop that rewrites cell [i] from its own old value. *)
Lemma for_up_cells {A : Type} (zero : A) (g : Z -> A -> A) (count : nat)
    (x : list A) :
  let y := for_up count 0 (fun i y => aset y i (g i (aget zero y i))) x in
  Z.of_nat count <= len x ->
  len y = len x /\
  (forall n, 0 <= n < Z.of_nat count -> aget zero y n = g n (aget zero x n)) /\
  (forall n, Z.of_nat count <= n -> aget zero y n = aget zero x n).
Proof.
  intros y Hcount. subst y.
  apply (for_up_ind
           (fun i y => len y = len x /\
              (forall n, 0 <= n < i -> aget zero y n = g n (aget zero x n)) /\
              (forall n, i <= n -> aget zero y n = aget zero x n))).
  - split; [done|]. split; [intros; lia|done].
  - intros i y Hi (Hlen & Hlo & Hhi). split; [by rewrite len_aset|]. split.
    + intros n Hn. destruct (Z.eq_dec n i) as [->|Hne].
      * rewrite aget_aset_eq by lia. by rewrite Hhi by lia.
      * rewrite aget_aset_ne by done. apply Hlo. lia.
    + intros n Hn. rewrite aget_aset_ne by lia. apply Hhi. lia.
Qed.

(** The monadic counted loop returns when its body does, keeping an
    invariant. *)
Lemma for_upM_total {S : Type} (Inv : S -> Prop) (body : Z -> S -> result S) :
  (forall i s, Inv s -> exists s', body i s = Returned s' /\ Inv s') ->
  forall (count : nat) (i : Z) (s : S), Inv s ->
  exists s', for_upM count i body s = Returned s' /\ Inv s'.
Proof.
  intros Hbody count. induction count as [|c IH]; intros i s HI; simpl; [eauto|].
  destruct (Hbody i s HI) as (s' & -> & HI'). simpl. by apply IH.
Qed.

(** A loop whose body never raises never raises. *)
Lemma while_no_throw {S : Type} (cond : S -> bool) (body : S -> result S) :
  (forall s e, body s <> Thrown e) ->
  forall fuel s e, while fuel cond body s <> Thrown e.
Proof.
  intros Hbody fuel. induction fuel as [|f IH]; intros s e; simpl; [done|].
  destruct (cond s); [|done].
  destruct (body s) as [s'| e' |] eqn:Hb; simpl; [apply IH| |done].
  by apply Hbody in Hb.
Qed.

Lemma for_upM_no_throw {S : Type} (body : Z -> S -> result S) :
  (forall i s e, body i s <> Thrown e) ->
  forall count i s e, for_upM count i body s <> Thrown e.
Proof.
  intros Hbody count. induction count as [|c IH]; intros i s e; simpl; [done|].
  destruct (body i s) as [s'| e' |] eqn:Hb; simpl; [apply IH| |done].
  by apply Hbody in Hb.
Qed.

(** A loop whose condition holds forever never returns. *)
Lemma while_diverges {S : Type} (Inv : S -> Prop) (cond : S -> bool)
    (body : S -> result S) :
  (forall s, Inv s -> cond s = true) ->
  (forall s s', Inv s -> body s = Returned s' -> Inv s') ->
  forall fuel s r, Inv s -> while fuel cond body s <> Returned r.
Proof.
  intros Hc Hbody fuel. induction fuel as [|f IH]; intros s r HI; simpl; [done|].
  rewrite (Hc s HI).
  destruct (body s) as [s'| e' |] eqn:Hb; simpl; [|done|done].
  apply IH. eauto.
Qed.

(** *** 32-bit operators on small values *)

Lemma ToInt32_small z : -2147483648 <= z < 2147483648 -> ToInt32 z = z.
Proof.
  intros Hz. unfold ToInt32.
  rewrite Z.mod_small by lia. lia.
Qed.

Lemma ToUint32_small z : 0 <= z < 4294967296 -> ToUint32 z = z.
Proof. intros Hz. unfold ToUint32. by rewrite Z.mod_small. Qed.

Lemma shl_1_pow2 k : 0 <= k <= 30 -> shl 1 k = 2 ^ k.
Proof.
  intros Hk. unfold shl.
  rewrite (ToInt32_small 1) by lia.
  rewrite ToUint32_small by lia.
  rewrite Z.mod_small by lia.
  rewrite Z.shiftl_1_l.
  apply ToInt32_small.
  assert (2 ^ k <= 2 ^ 30) by (apply Z.pow_le_mono_r; lia).
  assert (0 < 2 ^ k) by (apply Z.pow_pos_nonneg; lia).
  lia.
Qed.

Lemma pow2_bounds k n : 0 <= k <= n -> 0 < 2 ^ k <= 2 ^ n.
Proof.
  intros Hk. split; [apply Z.pow_pos_nonneg; lia|apply Z.pow_le_mono_r; lia].
Qed.

Lemma shl_pow2_1 k : 0 <= k <= 29 -> shl (2 ^ k) 1 = 2 ^ (k + 1).
Proof.
  intros Hk. unfold shl.
  pose proof (pow2_bounds k 29 ltac:(lia)).
  rewrite (ToInt32_small (2 ^ k)) by lia.
  rewrite ToUint32_small by lia.
  rewrite Z.mod_small by lia.
  rewrite Z.shiftl_mul_pow2 by lia.
  rewrite Z.pow_add_r by lia.
  apply ToInt32_small.
  change (2 ^ 29) with 536870912 in *. lia.
Qed.

Lemma sar_1 z : 0 <= z < 2147483648 -> sar z 1 = z / 2.
Proof.
  intros Hz. unfold sar.
  rewrite ToInt32_small by lia.
  rewrite ToUint32_small by lia.
  rewrite Z.mod_small by lia.
  by rewrite Z.shiftr_div_pow2.
Qed.


End JSFacts.

(** ** Rounding to binary64 *)

Module DoubleFacts.
Import Double.
#[local] Open Scope Q_scope.

Lemma pow2_pos (k : Z) : 0 < 2 ^ k.
Proof. by apply Qpower_0_lt. Qed.

Lemma pow2_add (a b : Z) : 2 ^ (a + b) == 2 ^ a * 2 ^ b.
Proof. by apply Qpower_plus. Qed.

Lemma pow2_sub (a b : Z) : 2 ^ (a - b) == 2 ^ a / 2 ^ b.
Proof. by apply Qpower_minus. Qed.

Lemma pow2_Z (k : Z) : (0 <= k)%Z -> 2 ^ k == inject_Z (2 ^ k).
Proof. intros Hk. by rewrite Zpower_Qpower. Qed.

Lemma pow2_le (a b : Z) : (a <= b)%Z -> 2 ^ a <= 2 ^ b.
Proof. intros H. by apply Qpower_le_compat_l. Qed.

Lemma pow2_lt (a b : Z) : (a < b)%Z -> 2 ^ a < 2 ^ b.
Proof. intros H. by apply Qpower_lt_compat_l. Qed.

Lemma pow2_lt_inv (a b : Z) : 2 ^ a < 2 ^ b -> (a < b)%Z.
Proof. intros H. by apply (Qpower_lt_compat_l_inv 2). Qed.

Lemma Qlog2_spec (x : Q) : 0 < x -> 2 ^ Qlog2 x <= x /\ x < 2 ^ (Qlog2 x + 1).
Proof.
  intros Hx. destruct x as [n d]. unfold Qlog2. cbn [Qnum Qden].
  assert (Hn : (0 < n)%Z) by (unfold Qlt in Hx; simpl in Hx; lia).
  destruct (Z.log2_spec n Hn) as [Hn1 Hn2].
  destruct (Z.log2_spec (Z.pos d) ltac:(lia)) as [Hd1 Hd2].
  pose proof (Z.log2_nonneg n) as Hln. pose proof (Z.log2_nonneg (Z.pos d)) as Hld.
  set (ln := Z.log2 n) in *. set (ld := Z.log2 (Z.pos d)) in *.
  assert (Hq : n # d == inject_Z n / inject_Z (Z.pos d)) by apply Qmake_Qdiv.
  assert (HD : 0 < inject_Z (Z.pos d)) by (unfold Qlt; simpl; lia).
  assert (HN1 : 2 ^ ln <= inject_Z n) by (rewrite pow2_Z, <- Zle_Qle; done).
  assert (HN2 : inject_Z n < 2 ^ (ln + 1)).
  { rewrite pow2_Z by lia. rewrite <- Zlt_Qlt. by replace (ln + 1)%Z with (Z.succ ln) by lia. }
  assert (HD1 : 2 ^ ld <= inject_Z (Z.pos d)) by (rewrite pow2_Z, <- Zle_Qle; done).
  assert (HD2 : inject_Z (Z.pos d) < 2 ^ (ld + 1)).
  { rewrite pow2_Z by lia. rewrite <- Zlt_Qlt. by replace (ld + 1)%Z with (Z.succ ld) by lia. }
  pose proof (pow2_pos ln). pose proof (pow2_pos ld).
  pose proof (pow2_pos (ln + 1)). pose proof (pow2_pos (ld + 1)).
  assert (HNpos : 0 < inject_Z n) by (change 0 with (inject_Z 0); by rewrite <- Zlt_Qlt).
  assert (Hup : n # d < 2 ^ (ln - ld + 1)).
  { rewrite Hq. replace (ln - ld + 1)%Z with ((ln + 1) - ld)%Z by lia.
    rewrite pow2_sub. apply Qlt_shift_div_r; [done|].
    set (X := 2 ^ (ln + 1) / 2 ^ ld).
    assert (HX : X * 2 ^ ld == 2 ^ (ln + 1)) by (unfold X; field; lra).
    assert (0 < X) by (unfold X; apply Qlt_shift_div_l; lra).
    nra. }
  assert (Hlow : 2 ^ (ln - ld - 1) <= n # d).
  { rewrite Hq. replace (ln - ld - 1)%Z with (ln - (ld + 1))%Z by lia.
    rewrite pow2_sub. apply Qle_shift_div_l; [done|].
    set (X := 2 ^ ln / 2 ^ (ld + 1)).
    assert (HX : X * 2 ^ (ld + 1) == 2 ^ ln) by (unfold X; field; lra).
    assert (0 < X) by (unfold X; apply Qlt_shift_div_l; lra).
    nra. }
  destruct (Qle_bool (2 ^ (ln - ld)) (n # d)) eqn:E.
  - apply Qle_bool_iff in E. done.
  - split; [done|]. replace (ln - ld - 1 + 1)%Z with (ln - ld)%Z by lia.
    apply Qnot_le_lt. intros Hle. apply Qle_bool_iff in Hle. congruence.
Qed.

Lemma round_even_int (y : Q) (z : Z) : y == inject_Z z -> round_even y = z.
Proof.
  intros Hy. unfold round_even. rewrite (Qfloor_comp _ _ Hy), Qfloor_Z.
  assert (E : Qcompare (y - inject_Z z) (1 # 2) = Lt).
  { apply Qlt_alt. rewrite Hy. unfold Qminus. rewrite Qplus_opp_r. reflexivity. }
  by rewrite E.
Qed.

Lemma round_even_near (y : Q) : Qabs (inject_Z (round_even y) - y) <= 1 # 2.
Proof.
  unfold round_even. pose proof (Qfloor_le y) as H1. pose proof (Qlt_floor y) as H2.
  rewrite inject_Z_plus in H2. change (inject_Z 1) with 1 in H2.
  apply Qabs_Qle_condition.
  destruct (Qcompare_spec (y - inject_Z (Qfloor y)) (1 # 2)) as [E|E|E].
  - destruct (Z.even (Qfloor y)); rewrite ?inject_Z_plus;
      change (inject_Z 1) with 1; lra.
  - lra.
  - rewrite inject_Z_plus. change (inject_Z 1) with 1. lra.
Qed.

Lemma round_even_nonneg (y : Q) : 0 <= y -> (0 <= round_even y)%Z.
Proof.
  intros Hy. unfold round_even.
  assert (0 <= Qfloor y)%Z by (rewrite <- (Qfloor_Z 0); by apply Qfloor_resp_le).
  destruct (Qcompare _ _); [destruct (Z.even _)|..]; lia.
Qed.

Lemma Qred_inject_Z (z : Z) : Qred (inject_Z z) = inject_Z z.
Proof.
  unfold Qred, inject_Z.
  pose proof (Z.ggcd_gcd z 1) as Hg. pose proof (Z.ggcd_correct_divisors z 1) as Hd.
  destruct (Z.ggcd z 1) as [g [aa bb]]. simpl in Hg, Hd.
  rewrite Z.gcd_1_r in Hg. destruct Hd as [Ha Hb]. rewrite Hg in Ha, Hb.
  assert (aa = z) as -> by lia. assert (bb = 1%Z) as -> by lia.
  reflexivity.
Qed.

(** The exponent of the last place of [x]. *)

Lemma round64_unfold (x : Q) :
  ~ x == 0 ->
  round64 x = Qred (inject_Z (round_even (x / 2 ^ ulp_exp x)) * 2 ^ ulp_exp x).
Proof.
  intros Hx. unfold round64. destruct (Qeq_bool x 0) eqn:E; [|done].
  by apply Qeq_bool_iff in E.
Qed.

Lemma Qabs_pos_neq (x : Q) : ~ x == 0 -> 0 < Qabs x.
Proof.
  intros Hx. destruct (Qlt_le_dec 0 (Qabs x)) as [|Hle]; [done|].
  exfalso. apply Hx. pose proof (Qabs_nonneg x).
  apply Qabs_Qle_condition in Hle. lra.
Qed.

(** A value of at most 53 significant bits is not rounded. *)
Lemma round64_exact (x : Q) : representable 53 (-1074) x -> round64 x = Qred x.
Proof.
  intros (m & k & Hm & Hk & Hx).
  destruct (Qeq_dec x 0) as [H0|H0].
  - unfold round64. rewrite (Qeq_eq_bool _ _ H0).
    symmetry. apply (Qred_complete x 0 H0).
  - rewrite round64_unfold by done.
    apply Qred_complete.
    pose proof (Qabs_pos_neq x H0) as Hpos.
    destruct (Qlog2_spec (Qabs x) Hpos) as [Hlo Hhi].
    pose proof (pow2_pos k) as Hpk.
    assert (Habs : Qabs x < 2 ^ (53 + k)).
    { rewrite pow2_add. pose proof (pow2_Z 53 ltac:(lia)) as E53.
      assert (Hm1 : inject_Z m < inject_Z (2 ^ 53)) by (rewrite <- Zlt_Qlt; lia).
      assert (Hm2 : - inject_Z (2 ^ 53) < inject_Z m).
      { rewrite <- inject_Z_opp, <- Zlt_Qlt. lia. }
      apply Qabs_case; intros _; nra. }
    assert (HL : (Qlog2 (Qabs x) < 53 + k)%Z).
    { apply pow2_lt_inv. eapply Qle_lt_trans; [exact Hlo|exact Habs]. }
    assert (He : (ulp_exp x <= k)%Z) by (unfold ulp_exp; lia).
    set (e := ulp_exp x) in *.
    assert (Hke : 2 ^ k == inject_Z (2 ^ (k - e)) * 2 ^ e).
    { rewrite <- pow2_Z by lia. rewrite <- pow2_add. by replace (k - e + e)%Z with k by lia. }
    pose proof (pow2_pos e) as Hpe.
    assert (Hy : x / 2 ^ e == inject_Z (m * 2 ^ (k - e))).
    { assert (Hx' : x == inject_Z m * inject_Z (2 ^ (k - e)) * 2 ^ e) by nra.
      rewrite inject_Z_mult.
      transitivity (inject_Z m * inject_Z (2 ^ (k - e)) * 2 ^ e / 2 ^ e).
      - apply Qdiv_comp; [exact Hx'|reflexivity].
      - apply Qdiv_mult_l. lra. }
    rewrite (round_even_int _ _ Hy). rewrite inject_Z_mult. nra.
Qed.

(** The rounding error: half a unit in the last place. *)
Lemma round64_error (x : Q) :
  Qabs (round64 x - x) <= Qabs x * 2 ^ (-53) + 2 ^ (-1075).
Proof.
  pose proof (pow2_pos (-53)) as Hp53. pose proof (pow2_pos (-1075)) as Hp75.
  pose proof (Qabs_nonneg x) as Hnn.
  destruct (Qeq_dec x 0) as [H0|H0].
  - unfold round64. rewrite (Qeq_eq_bool _ _ H0).
    assert (E : Qabs (0 - x) == 0).
    { rewrite <- (Qabs_opp (0 - x)). apply Qabs_wd in H0. rewrite <- H0 at 2.
      apply Qabs_wd. lra. }
    rewrite E. set (u := 2 ^ (-53)) in *. set (w := 2 ^ (-1075)) in *. nra.
  - rewrite round64_unfold by done. rewrite Qred_correct.
    pose proof (Qabs_pos_neq x H0) as Hpos.
    destruct (Qlog2_spec (Qabs x) Hpos) as [Hlo _].
    set (e := ulp_exp x). pose proof (pow2_pos e) as Hpe.
    pose proof (round_even_near (x / 2 ^ e)) as Hnear.
    set (r := inject_Z (round_even (x / 2 ^ e))) in *.
    assert (Hy : x / 2 ^ e * 2 ^ e == x) by (field; lra).
    set (y := x / 2 ^ e) in *.
    assert (He : 2 ^ e <= Qabs x * 2 ^ (-52) + 2 ^ (-1074)).
    { unfold e, ulp_exp. pose proof (pow2_pos (-1074)) as Hp74. pose proof (pow2_pos (-52)) as Hp52.
      destruct (Z.max_spec (-1074) (Qlog2 (Qabs x) - 52)) as [[_ ->]|[_ ->]].
      - replace (Qlog2 (Qabs x) - 52)%Z with (Qlog2 (Qabs x) + -52)%Z by lia.
        rewrite pow2_add. nra.
      - nra. }
    assert (E52 : 2 ^ (-52) == 2 * 2 ^ (-53)) by reflexivity.
    assert (E74 : 2 ^ (-1074) == 2 * 2 ^ (-1075)) by reflexivity.
    apply Qabs_Qle_condition in Hnear. apply Qabs_Qle_condition.
    split; nra.
Qed.

Lemma round64_nonneg (x : Q) : 0 <= x -> 0 <= round64 x.
Proof.
  intros Hx. destruct (Qeq_dec x 0) as [H0|H0].
  - unfold round64. by rewrite (Qeq_eq_bool _ _ H0).
  - rewrite round64_unfold by done. rewrite Qred_correct.
    pose proof (pow2_pos (ulp_exp x)) as Hp.
    assert (0 <= x / 2 ^ ulp_exp x) by (apply Qle_shift_div_l; lra).
    pose proof (round_even_nonneg _ H) as Hr.
    apply Qmult_le_0_compat; [|lra].
    change 0 with (inject_Z 0). by rewrite <- Zle_Qle.
Qed.

(** *** Stored results *)

Lemma of_Q_not_NaN (x : Q) : of_Q x <> NaN.
Proof. unfold of_Q. destruct (Qle_bool _ _); [destruct (Qle_bool _ _)|]; done. Qed.

Lemma of_Q_exact (x : Q) : is_double x -> of_Q x = Fin (Qred x).
Proof.
  intros [Hrep Hlt]. unfold of_Q. rewrite (round64_exact x Hrep).
  destruct (Qle_bool (2 ^ 1024) (Qabs (Qred x))) eqn:E; [|done].
  apply Qle_bool_iff in E. rewrite Qred_correct in E. lra.
Qed.

Lemma Qabs_inject_Z (z : Z) : Qabs (inject_Z z) = inject_Z (Z.abs z).
Proof. reflexivity. Qed.

Lemma is_double_Z (z : Z) : (Z.abs z <= 2 ^ 53)%Z -> is_double (inject_Z z).
Proof.
  intros Hz. split.
  - destruct (Z.eq_dec (Z.abs z) (2 ^ 53)%Z) as [E|E].
    + assert (Hcase : z = (2 ^ 53)%Z \/ z = (- 2 ^ 53)%Z) by lia.
      destruct Hcase as [-> | ->].
      * exists (2 ^ 52)%Z, 1%Z. split; [done|]. split; [done|]. reflexivity.
      * exists (- 2 ^ 52)%Z, 1%Z. split; [done|]. split; [done|]. reflexivity.
    + exists z, 0%Z. split; [lia|]. split; [lia|]. change (2 ^ 0) with 1. lra.
  - rewrite Qabs_inject_Z.
    eapply Qle_lt_trans; [rewrite <- Zle_Qle; exact Hz|].
    rewrite <- pow2_Z by lia. by apply pow2_lt.
Qed.

Lemma of_Z_exact (z : Z) : (Z.abs z <= 2 ^ 53)%Z -> of_Z z = Fin (inject_Z z).
Proof.
  intros Hz. unfold of_Z. rewrite of_Q_exact by (by apply is_double_Z).
  by rewrite Qred_inject_Z.
Qed.

(** A result of moderate size is finite, and about as large as the exact
    one. *)
Lemma of_Q_finite (x : Q) :
  Qabs x <= 2 ^ 1022 ->
  exists y, of_Q x = Fin y /\ y == round64 x /\ Qabs y <= 2 * Qabs x + 1
            /\ (0 <= x -> 0 <= y).
Proof.
  intros Hx. pose proof (round64_error x) as Herr.
  pose proof (Qabs_nonneg x) as Hnn.
  assert (H53 : 2 ^ (-53) <= 1) by (apply (pow2_le (-53) 0); lia).
  assert (H75 : 2 ^ (-1075) <= 1) by (apply (pow2_le (-1075) 0); lia).
  pose proof (pow2_pos (-53)). pose proof (pow2_pos (-1075)).
  assert (Hb : Qabs (round64 x) <= 2 * Qabs x + 1).
  { pose proof (Qabs_triangle (round64 x - x) x) as Ht.
    assert (E : round64 x - x + x == round64 x) by lra.
    rewrite E in Ht. nra. }
  assert (H1024 : 2 * 2 ^ 1022 + 1 < 2 ^ 1024).
  { assert (E : 2 ^ 1024 == 4 * 2 ^ 1022) by reflexivity.
    assert (1 <= 2 ^ 1022) by (apply (pow2_le 0 1022); lia). lra. }
  exists (round64 x). unfold of_Q.
  destruct (Qle_bool (2 ^ 1024) (Qabs (round64 x))) eqn:E.
  - apply Qle_bool_iff in E. lra.
  - split; [done|]. split; [reflexivity|]. split; [done|]. apply round64_nonneg.
Qed.

(** An integer as a number. *)
Notation "'int' z" := (Fin (inject_Z z)) (at level 10, z at level 9, only parsing).

(** *** Integers held exactly *)

Lemma fle_int (a b : Z) : fle (int a) (int b) = (a <=? b)%Z.
Proof. unfold fle, Qle_bool. simpl. by rewrite !Z.mul_1_r. Qed.

Lemma Math_min_int (a b : Z) : Math_min (int a) (int b) = int (Z.min a b).
Proof.
  unfold Math_min. rewrite fle_int.
  destruct (Z.leb_spec a b); [rewrite Z.min_l|rewrite Z.min_r]; done || lia.
Qed.

Lemma Math_max_int (a b : Z) : Math_max (int a) (int b) = int (Z.max a b).
Proof.
  unfold Math_max. rewrite fle_int.
  destruct (Z.leb_spec a b); [rewrite Z.max_r|rewrite Z.max_l]; done || lia.
Qed.

Lemma representable_proper (p emin : Z) (x y : Q) :
  x == y -> representable p emin x -> representable p emin y.
Proof.
  intros E (m & k & Hm & Hk & Hx). exists m, k. split; [done|]. split; [done|].
  by rewrite <- E.
Qed.

(** A result that is a double is stored as it is. *)
Lemma of_Q_eq (x y : Q) : x == y -> is_double y -> of_Q x = Fin (Qred y).
Proof.
  intros E [Hr Hb]. rewrite of_Q_exact.
  - f_equal. by apply Qred_complete.
  - split; [by apply (representable_proper _ _ y)|]. by rewrite E.
Qed.

Lemma of_Q_int (x : Q) (z : Z) :
  x == inject_Z z -> (Z.abs z <= 2 ^ 53)%Z -> of_Q x = int z.
Proof.
  intros E Hz. rewrite (of_Q_eq x (inject_Z z) E (is_double_Z z Hz)).
  by rewrite Qred_inject_Z.
Qed.

Lemma fadd_int (a b : Z) :
  (Z.abs (a + b) <= 2 ^ 53)%Z -> fadd (int a) (int b) = int (a + b).
Proof. intros H. unfold fadd. apply of_Q_int; [|done]. by rewrite inject_Z_plus. Qed.

Lemma fsub_int (a b : Z) :
  (Z.abs (a - b) <= 2 ^ 53)%Z -> fsub (int a) (int b) = int (a - b).
Proof.
  intros H. unfold fsub, fneg, fadd. apply of_Q_int; [|done].
  unfold Zminus. rewrite inject_Z_plus, inject_Z_opp. reflexivity.
Qed.

Lemma fmul_int (a b : Z) :
  (Z.abs (a * b) <= 2 ^ 53)%Z -> fmul (int a) (int b) = int (a * b).
Proof. intros H. unfold fmul. apply of_Q_int; [|done]. by rewrite inject_Z_mult. Qed.

Lemma pow2_1022_big (B : Z) : (B <= 2 ^ 1000)%Z -> inject_Z B <= 2 ^ 1022.
Proof.
  intros HB. apply Qle_trans with (inject_Z (2 ^ 1000)).
  - by rewrite <- Zle_Qle.
  - rewrite <- pow2_Z by lia. apply pow2_le. lia.
Qed.

(** A result of moderate size is stored as a finite number close to it. *)
Lemma of_Q_small (x : Q) (B : Z) :
  Qabs x <= inject_Z B -> (B <= 2 ^ 1000)%Z ->
  exists y, of_Q x = Fin y /\ y == round64 x /\
    Qabs y <= 2 * Qabs x + 1 /\ (0 <= x -> 0 <= y).
Proof.
  intros Hx HB. apply of_Q_finite.
  eapply Qle_trans; [exact Hx|]. by apply pow2_1022_big.
Qed.

Lemma Qabs_le_Z (x : Q) (a : Z) : Qabs x <= inject_Z a -> (0 <= a)%Z.
Proof.
  intros H. pose proof (Qabs_nonneg x) as Hn.
  assert (H0 : inject_Z 0 <= inject_Z a) by (eapply Qle_trans; [exact Hn|exact H]).
  by rewrite <- Zle_Qle in H0.
Qed.

Ltac numeric := apply Qle_bool_imp_le; vm_compute; reflexivity.

Lemma of_Q_near (x : Q) (B : Z) :
  Qabs x <= inject_Z B -> (B <= 2 ^ 1000)%Z ->
  exists y, of_Q x = Fin y /\
    Qabs (y - x) <= inject_Z B * 2 ^ (-53) + 2 ^ (-1075) /\
    (0 <= x -> 0 <= y).
Proof.
  intros Hx HB. destruct (of_Q_small x B Hx HB) as (y & Hy & E & _ & Hs).
  exists y. split; [done|]. split; [|done].
  rewrite E. eapply Qle_trans; [apply round64_error|].
  apply Qplus_le_l. apply Qmult_le_compat_r; [done|]. apply Qlt_le_weak, pow2_pos.
Qed.

Lemma Qabs_mult_le (a b A B : Q) :
  Qabs a <= A -> Qabs b <= B -> Qabs (a * b) <= A * B.
Proof.
  intros Ha Hb. rewrite Qabs_Qmult.
  apply Qmult_le_compat_nonneg; split; done || apply Qabs_nonneg.
Qed.

Lemma Qabs_near (a b e B : Q) : Qabs (a - b) <= e -> Qabs b <= B -> Qabs a <= B + e.
Proof.
  intros H1 H2. apply Qabs_Qle_condition in H2. apply Qabs_Qle_condition in H1.
  apply Qabs_Qle_condition. lra.
Qed.

Lemma inject_Z_abs_le (z B : Z) : (Z.abs z <= B)%Z -> Qabs (inject_Z z) <= inject_Z B.
Proof. intros H. by rewrite Qabs_inject_Z, <- Zle_Qle. Qed.

Lemma Qeq_bool_inject_Z (z : Z) : z <> 0%Z -> Qeq_bool (inject_Z z) 0 = false.
Proof.
  intros Hz. apply not_true_is_false. intros H. apply Qeq_bool_iff in H.
  unfold Qeq in H. simpl in H. lia.
Qed.

(** A division by a non-zero integer is the rounded quotient. *)
Lemma fdiv_by_int (x : Q) (z : Z) :
  z <> 0%Z -> fdiv (Fin x) (int z) = of_Q (x / inject_Z z).
Proof. intros Hz. unfold fdiv. by rewrite Qeq_bool_inject_Z. Qed.

(** Values of the rounding: the double nearest to 0.1; a tie going to the
    even significand above [2^53]; the largest double and the overflow to
    an infinity; a tie between zero and the least subnormal; the product
    [1.1 * 44100]. *)
Example of_Q_values :
  of_Q (1 # 10) = Fin (3602879701896397 # 36028797018963968) /\
  of_Q (inject_Z (2 ^ 53 + 1)) = Fin (inject_Z (2 ^ 53)) /\
  of_Q (inject_Z (2 ^ 53 + 3)) = Fin (inject_Z (2 ^ 53 + 4)) /\
  of_Q (inject_Z (2 ^ 1024 - 2 ^ 970 - 1)) = Fin (inject_Z (2 ^ 1024 - 2 ^ 971)) /\
  of_Q (inject_Z (2 ^ 1024 - 2 ^ 970)) = PInf /\
  of_Q (- inject_Z (2 ^ 1024 - 2 ^ 970)) = NInf /\
  of_Q (2 ^ (-1075)) = Fin 0 /\
  of_Q (3 * 2 ^ (-1075)) = Fin (Qred (2 ^ (-1073))) /\
  fmul (of_Q (11 # 10)) (of_Q 44100) = Fin (6667163632926721 # 137438953472).
Proof. repeat split; vm_compute; reflexivity. Qed.

End DoubleFacts.

(** ** The capture pipeline *)

Module CaptureFacts.
Import JS JSFacts Double DoubleFacts Capture.

Section RecordFacts.
Context {sample : Type} (zero : sample).
Implicit Types (c : list sample) (cs msgs : list (list sample)).

(** The test [collected >= targetFrames] for a whole number of frames. *)
Lemma reached_frames (target collected : Z) :
  reached (Fin (inject_Z target)) collected = (target <=? collected).
Proof. unfold reached, fle, Qle_bool. simpl. by rewrite !Z.mul_1_r. Qed.

(** The running total only grows: a target not reached later was not
    reached before. *)
Lemma reached_mono (target : number) (collected collected' : Z) :
  collected <= collected' ->
  reached target collected' = false -> reached target collected = false.
Proof.
  intros Hle. destruct target as [x| | |]; unfold reached, fle; try done.
  intros Hf. apply not_true_is_false. intros Ht. apply Qle_bool_iff in Ht.
  assert (Hx : (x <= inject_Z collected')%Q).
  { eapply Qle_trans; [exact Ht|]. by rewrite <- Zle_Qle. }
  apply Qle_bool_iff in Hx. congruence.
Qed.

(** [targetFrames] is an integer when it is finite. *)
Lemma targetFrames_integer (d r : Q) (x : Q) :
  targetFrames d r = Fin x -> x = inject_Z (Qceiling x).
Proof.
  unfold targetFrames, Math_ceil, on_finite.
  destruct (fmul (of_Q d) (of_Q r)) as [y| | |]; try done.
  intros [= <-]. by rewrite Qceiling_Z.
Qed.

(** For a whole duration and a whole rate the product is exact. *)
Lemma targetFrames_whole (d r : Z) :
  Z.abs d <= 2 ^ 53 -> Z.abs r <= 2 ^ 53 -> Z.abs (d * r) <= 2 ^ 53 ->
  targetFrames (inject_Z d) (inject_Z r) = Fin (inject_Z (d * r)).
Proof.
  intros Hd Hr Hdr. unfold targetFrames.
  change (of_Q (inject_Z d)) with (of_Z d). change (of_Q (inject_Z r)) with (of_Z r).
  rewrite !of_Z_exact by done. unfold fmul.
  change (inject_Z d * inject_Z r)%Q with (inject_Z (d * r)).
  change (of_Q (inject_Z (d * r))) with (of_Z (d * r)).
  rewrite of_Z_exact by done. unfold Math_ceil, on_finite. by rewrite Qceiling_Z.
Qed.

(** The chunk handed to [set] is the first [copyCount] samples of [c]. *)
Lemma copied_part c (k : Z) :
  0 <= k <= len c ->
  (if k =? len c then c else subarray c 0 k) = take (Z.to_nat k) c.
Proof.
  intros Hk. destruct (Z.eqb_spec k (len c)) as [->|Hne].
  - unfold len. rewrite Nat2Z.id. by rewrite take_ge.
  - by apply subarray_prefix.
Qed.

(** The copy loop started at [offset] keeps the first [offset] samples and
    fills the rest with the first [target - offset] samples of the chunks. *)
Lemma copy_chunks_spec (target : Z) cs :
  forall (samples : list sample) (offset : Z),
    len samples = target ->
    0 <= offset < target ->
    target <= offset + len (concat cs) ->
    copy_chunks target cs samples offset
    = Returned (take (Z.to_nat offset) samples
                ++ take (Z.to_nat (target - offset)) (concat cs)).
Proof.
  induction cs as [|c rest IH]; intros samples offset Hlen Hoff Htot.
  - unfold len in Htot. simpl in Htot. lia.
  - simpl in *. rewrite len_app in Htot.
    pose proof (len_nonneg c) as Hc.
    set (copyCount := Z.min (len c) (target - offset)).
    assert (Hcc : 0 <= copyCount <= len c) by (unfold copyCount; lia).
    rewrite (copied_part c copyCount Hcc).
    assert (Hsrc : len (take (Z.to_nat copyCount) c) = copyCount).
    { unfold len in *. rewrite length_take. lia. }
    assert (Hset := typed_set_returned samples (take (Z.to_nat copyCount) c) offset).
    rewrite Hsrc in Hset.
    rewrite (bind_returned _ _ _ (Hset ltac:(lia) ltac:(lia))). clear Hset.
    destruct (Z.leb_spec target (offset + copyCount)) as [Hfull|Hmore].
    + assert (copyCount = target - offset) as Heq by (unfold copyCount in *; lia).
      f_equal. f_equal.
      rewrite drop_ge by (unfold len in *; lia).
      rewrite app_nil_r, <- Heq.
      rewrite take_app_le; [done|]. unfold len in *; lia.
    + assert (copyCount = len c) as Heq by (unfold copyCount in *; lia).
      rewrite IH; cycle 1.
      * rewrite !len_app, Hsrc. unfold len in *.
        rewrite length_take, length_drop. lia.
      * lia.
      * lia.
      * f_equal. rewrite Heq. unfold len. rewrite Nat2Z.id.
        rewrite (take_ge c) by lia.
        rewrite (take_app_ge c); cycle 1.
        { unfold len in *. lia. }
        rewrite app_assoc.
        rewrite take_app_length'; cycle 1.
        { rewrite length_app, length_take. unfold len in *. lia. }
        rewrite <- app_assoc. do 3 f_equal. unfold len in *. lia.
Qed.

Lemma deliver_not_listening (target : number) (rate : Q) (st : session)
    (events : list event) :
  listening st = false -> deliver zero target rate st events = Returned st.
Proof. intros H. destruct events; simpl; [done|by rewrite H]. Qed.

(** The handler run from a state that is still accumulating. *)
Lemma deliver_spec (target : Z) (rate : Q) msgs :
  0 < target ->
  forall st : session,
    listening st = true ->
    collected st = len (concat (chunks st)) ->
    collected st < target ->
    target <= collected st + len (concat msgs) ->
    exists pre last post,
      msgs = pre ++ last :: post /\
      len (concat (chunks st ++ pre)) < target
        <= len (concat (chunks st ++ pre)) + len last /\
      deliver zero (Fin (inject_Z target)) rate st (Message <$> msgs)
      = Returned
          {| chunks := chunks st ++ pre ++ [last];
             collected := len (concat (chunks st ++ pre)) + len last;
             listening := false;
             done := Resolved
                       (take (Z.to_nat target)
                          (concat (chunks st ++ pre ++ [last]))) rate |}.
Proof.
  intros Htarget. induction msgs as [|m rest IH]; intros st Hl Hc Hlt Htot.
  - unfold len in Htot. simpl in Htot. lia.
  - simpl in Htot. rewrite len_app in Htot.
    simpl. rewrite Hl. unfold onMsg. rewrite reached_frames, Qceiling_Z.
    destruct (Z.leb_spec target (collected st + len m)) as [Hfull|Hmore].
    + exists [], m, rest. rewrite app_nil_r, <- Hc. split; [done|]. split; [lia|].
      rewrite (bind_returned _ _ _ (new_array_returned zero target ltac:(lia))).
      rewrite copy_chunks_spec; cycle 1.
      * apply len_replicate. lia.
      * lia.
      * rewrite concat_app, len_app. simpl. rewrite app_nil_r. lia.
      * simpl. rewrite Z.sub_0_r. by rewrite deliver_not_listening.
    + simpl.
      edestruct (IH {| chunks := chunks st ++ [m];
                       collected := collected st + len m;
                       listening := listening st; done := done st |})
        as (pre & last & post & -> & Hb & Hrun); simpl.
      * done.
      * rewrite concat_app, len_app. simpl. rewrite app_nil_r. lia.
      * lia.
      * lia.
      * simpl in *. exists (m :: pre), last, post.
        rewrite <- !app_assoc in *. simpl in *. done.
Qed.

(** While the test [collected >= targetFrames] fails the promise stays
    pending. *)
Lemma deliver_pending (target : number) (rate : Q) msgs :
  forall st : session,
    listening st = true -> done st = Pending ->
    reached target (collected st + len (concat msgs)) = false ->
    exists st', deliver zero target rate st (Message <$> msgs) = Returned st'
                /\ done st' = Pending /\ listening st' = true.
Proof.
  induction msgs as [|m rest IH]; intros st Hl Hd Htot.
  - simpl. eauto.
  - simpl in Htot. rewrite len_app in Htot.
    pose proof (len_nonneg (concat rest)).
    simpl. rewrite Hl. unfold onMsg.
    rewrite (reached_mono target (collected st + len m)
               (collected st + (len m + len (concat rest))) ltac:(lia) Htot).
    simpl. apply IH; simpl; [done|done|]. by rewrite <- Z.add_assoc.
Qed.

(** The buffer a completed capture resolves with. *)
Lemma record_resolved (target : Z) (rate : Q) msgs :
  0 < target -> target <= len (concat msgs) ->
  exists st,
    deliver zero (Fin (inject_Z target)) rate start (Message <$> msgs) = Returned st /\
    listening st = false /\
    done st = Resolved (take (Z.to_nat target) (concat msgs)) rate.
Proof.
  intros Hpos Htot.
  destruct (deliver_spec target rate msgs Hpos start eq_refl eq_refl Hpos Htot)
    as (pre & last & post & Hmsgs & Hb & Hrun).
  simpl in Hb, Hrun. eexists. split; [exact Hrun|]. split; [done|]. simpl.
  f_equal. rewrite Hmsgs, !concat_app. simpl. rewrite app_nil_r.
  rewrite !take_app_ge by (unfold len in *; lia).
  f_equal. rewrite take_app_le by (unfold len in *; lia). done.
Qed.


End RecordFacts.

(** The scenario of the design document: three seconds at 48 kHz are
    144000 frames. *)
Example targetFrames_3s : targetFrames 3 48000 = Fin 144000.
Proof. vm_compute. reflexivity. Qed.

(** The product is the rounded one: a tenth of a second at 44.1 kHz. *)
Example targetFrames_tenth : targetFrames (1 # 10) 44100 = Fin 4410.
Proof. vm_compute. reflexivity. Qed.

Example record_6_frames :
  record3sPCM 0%Z (3 # 4) 8
    [Message [1; 2; 3]; Message [4; 5; 6; 7]; MessageError; Message [8]]%Z
  = Returned (Resolved [1; 2; 3; 4; 5; 6]%Z 8).
Proof. vm_compute. reflexivity. Qed.

Example record_aborted :
  record3sPCM 0%Z (3 # 4) 8 [Message [1; 2; 3]; MessageError; Message [4; 5; 6]]%Z
  = Returned Rejected.
Proof. vm_compute. reflexivity. Qed.




End CaptureFacts.

(** ** The spectral analysis engine *)

Module SpectrumFacts.
Import JS JSFacts Spectrum.
#[local] Open Scope R_scope.

(** *** [nextPow2] *)

Lemma clz32_small (m : Z) : (1 <= m < 4294967296)%Z -> clz32 m = (31 - Z.log2 m)%Z.
Proof.
  intros Hm. unfold clz32. rewrite ToUint32_small by lia.
  destruct (Z.eqb_spec m 0); [lia|done].
Qed.

(** Up to [2^30] the result is a power of two that is at least [n]. *)
Lemma nextPow2_spec (n : Z) :
  (0 <= n <= 2 ^ 30)%Z ->
  exists k : Z, (1 <= k <= 30)%Z /\ nextPow2 n = (2 ^ k)%Z /\ (n <= 2 ^ k)%Z
                /\ (n <= 2 ^ 29 -> k <= 29)%Z.
Proof.
  intros Hn. change (2 ^ 30)%Z with 1073741824%Z in Hn.
  unfold nextPow2.
  set (m := Z.max 1 (n - 1)).
  assert (Hm : (1 <= m < 1073741824)%Z) by (unfold m; lia).
  rewrite clz32_small by lia.
  pose proof (Z.log2_spec m ltac:(lia)) as [Hlo Hhi].
  pose proof (Z.log2_nonneg m) as Hnn.
  assert (Hl29 : (Z.log2 m <= 29)%Z).
  { apply Z.lt_succ_r. apply (Z.pow_lt_mono_r_iff 2); [lia|lia|].
    change (2 ^ Z.succ 29)%Z with 1073741824%Z. lia. }
  exists (Z.log2 m + 1)%Z.
  replace (32 - (31 - Z.log2 m))%Z with (Z.log2 m + 1)%Z by lia.
  rewrite shl_1_pow2 by lia.
  replace (Z.succ (Z.log2 m)) with (Z.log2 m + 1)%Z in Hhi by lia.
  split; [lia|]. split; [done|]. split; [unfold m in *; lia|].
  intros Hn29. change (2 ^ 29)%Z with 536870912%Z in Hn29.
  assert (Z.log2 m < 29)%Z; [|lia].
  apply (Z.pow_lt_mono_r_iff 2); [lia|lia|].
  change (2 ^ 29)%Z with 536870912%Z. unfold m in *. lia.
Qed.

(** On a power of two from [2] to [2^30] it is the identity. *)
Lemma nextPow2_pow2 (k : Z) : (1 <= k <= 30)%Z -> nextPow2 (2 ^ k) = (2 ^ k)%Z.
Proof.
  intros Hk. unfold nextPow2.
  pose proof (pow2_bounds k 30 ltac:(lia)) as Hb.
  change (2 ^ 30)%Z with 1073741824%Z in Hb.
  assert (H2 : (2 <= 2 ^ k)%Z).
  { change 2%Z with (2 ^ 1)%Z at 1. apply Z.pow_le_mono_r; lia. }
  rewrite Z.max_r by lia.
  rewrite clz32_small by lia.
  assert (Hlog : Z.log2 (2 ^ k - 1) = (k - 1)%Z).
  { apply Z.log2_unique; [lia|].
    replace (Z.succ (k - 1)) with k by lia.
    assert (Hdbl : (2 ^ k = 2 ^ (k - 1) * 2)%Z).
    { replace k with ((k - 1) + 1)%Z at 1 by lia. by rewrite Z.pow_add_r by lia. }
    pose proof (pow2_bounds (k - 1) 30 ltac:(lia)). lia. }
  rewrite Hlog. replace (32 - (31 - (k - 1)))%Z with k by lia.
  apply shl_1_pow2. lia.
Qed.

(** Above [2^30] and up to [2^31] the shift overflows to [-2^31]. *)
Lemma nextPow2_overflow (n : Z) :
  (1073741824 < n <= 2147483648)%Z -> nextPow2 n = (-2147483648)%Z.
Proof.
  intros Hn. unfold nextPow2.
  rewrite Z.max_r by lia.
  rewrite clz32_small by lia.
  assert (Hlog : Z.log2 (n - 1) = 30%Z).
  { apply Z.log2_unique; [lia|].
    change (2 ^ 30)%Z with 1073741824%Z.
    change (2 ^ Z.succ 30)%Z with 2147483648%Z. lia. }
  rewrite Hlog. reflexivity.
Qed.

(** *** Lengths are kept by every step of the transform *)

Lemma swap_lens N i j a : lens N a -> lens N (swap i j a).
Proof.
  destruct a as [re im]. unfold lens, swap. simpl.
  rewrite !len_aset. done.
Qed.

Lemma butterfly_lens N wr wi i0 i1 a : lens N a -> lens N (butterfly wr wi i0 i1 a).
Proof.
  destruct a as [re im]. unfold lens, butterfly. simpl.
  rewrite !len_aset. done.
Qed.

Lemma block_lens N start half wpr wpi a :
  lens N a -> lens N (block start half wpr wpi a).
Proof.
  intros Ha. unfold block.
  apply (for_up_ind (fun _ (s : R * R * (list R * list R)) => lens N (snd s))).
  - done.
  - intros i [w a'] _ Hl. simpl in *. by apply butterfly_lens.
Qed.

(** *** Termination of the three unbounded loops *)

Lemma band_0_r j : band j 0 = 0%Z.
Proof. unfold band. rewrite (ToInt32_small 0) by lia. apply Z.land_0_r. Qed.

Lemma rev_carry_total (fuel : nat) (j m : Z) :
  (0 <= m < 2147483648)%Z -> (Z.to_nat m < fuel)%nat ->
  exists j' m', rev_carry fuel j m = Returned (j', m').
Proof.
  intros Hm Hfuel. unfold rev_carry.
  destruct (while_total (fun s : Z * Z => 0 <= snd s < 2147483648)%Z
              (fun s => Z.to_nat (snd s))
              (fun '(j, m) => negb (band j m =? 0)%Z)
              (fun '(j, m) => Returned (bxor j m, sar m 1)))
    with (fuel := fuel) (s := (j, m)) as ([j' m'] & Hw & _); [|done|done|eauto].
  intros [j0 m0] Hinv Hc. simpl in *.
  exists (bxor j0 m0, sar m0 1). split; [done|]. simpl.
  assert (m0 <> 0)%Z.
  { intros ->. rewrite band_0_r in Hc. done. }
  rewrite sar_1 by lia.
  pose proof (Z.div_lt m0 2 ltac:(lia) ltac:(lia)).
  pose proof (Z.div_pos m0 2 ltac:(lia) ltac:(lia)).
  split; lia.
Qed.

Lemma bit_reverse_total (fuel : nat) (N : Z) (a : list R * list R) :
  (0 <= N < 4294967296)%Z -> (Z.to_nat N < fuel)%nat -> lens N a ->
  (N <= 2147483647)%Z ->
  exists j a', bit_reverse fuel N a = Returned (j, a') /\ lens N a'.
Proof.
  intros HN Hfuel Ha HN31. unfold bit_reverse.
  destruct (for_upM_total (fun s : Z * (list R * list R) => lens N (snd s))
              (fun i '(j, a) =>
                 let a := if (i <? j)%Z then swap i j a else a in
                 '(j, m) ← rev_carry fuel j (sar N 1);
                 Returned (bor j m, a)))
    with (count := Z.to_nat N) (i := 0%Z) (s := (0%Z, a))
    as ([j a'] & Hrun & Hl); [|done|eauto].
  intros i [j a0] Hl. simpl in *.
  rewrite sar_1 by lia.
  pose proof (Z.div_pos N 2 ltac:(lia) ltac:(lia)).
  pose proof (Z.div_le_upper_bound N 2 N ltac:(lia) ltac:(lia)).
  destruct (rev_carry_total fuel j (N / 2)) as (j' & m' & ->); [lia|lia|].
  simpl. eexists. split; [done|]. simpl.
  destruct (i <? j)%Z; [by apply swap_lens|done].
Qed.

Lemma stage_total (fuel : nat) (N size half : Z) (wpr wpi : R) a :
  (1 <= size)%Z -> (Z.to_nat N < fuel)%nat -> lens N a ->
  exists a', stage fuel N size half wpr wpi a = Returned a' /\ lens N a'.
Proof.
  intros Hsize Hfuel Ha. unfold stage.
  destruct (while_total
              (fun s : Z * (list R * list R) => (0 <= fst s)%Z /\ lens N (snd s))
              (fun s => Z.to_nat (N - fst s))
              (fun '(start, _) => (start <? N)%Z)
              (fun '(start, a) =>
                 Returned ((start + size)%Z, block start half wpr wpi a)))
    with (fuel := fuel) (s := (0%Z, a)) as ([start a'] & -> & [_ Hl] & _).
  - intros [start a0] [H0 Hl] Hc. simpl in *.
    apply Z.ltb_lt in Hc.
    eexists. split; [done|]. simpl. split; [|lia].
    split; [lia|by apply block_lens].
  - done.
  - simpl. lia.
  - simpl. eauto.
Qed.

Lemma stages_total (fuel : nat) (k : Z) a :
  (1 <= k <= 29)%Z -> (Z.to_nat (2 ^ k) < fuel)%nat -> lens (2 ^ k) a ->
  exists a', stages fuel (2 ^ k) a = Returned a' /\ lens (2 ^ k) a'.
Proof.
  intros Hk Hfuel Ha. unfold stages.
  pose proof (pow2_bounds k 29 ltac:(lia)) as HN.
  assert (Hkk : (k < 2 ^ k)%Z) by (apply Z.pow_gt_lin_r; lia).
  set (w := while _ _ _ _).
  assert (Hw : exists s', w = Returned s' /\
            ((exists e, 1 <= e <= k + 1 /\ fst s' = 2 ^ e)%Z /\ lens (2 ^ k) (snd s'))
            /\ (let '(size, _) := s' in (size <=? 2 ^ k)%Z) = false);
    [|destruct Hw as ([size a'] & -> & [_ Hl] & _); simpl; eauto].
  subst w.
  apply (while_total
           (fun s : Z * (list R * list R) =>
              (exists e, 1 <= e <= k + 1 /\ fst s = 2 ^ e)%Z /\ lens (2 ^ k) (snd s))
           (fun s => Z.to_nat (k + 1 - Z.log2 (fst s)))).
  - intros [size a0] [(e & He & Hsz) Hl] Hc. simpl in *. subst size.
    apply Z.leb_le in Hc.
    assert (e <= k)%Z by (apply (Z.pow_le_mono_r_iff 2); lia).
    pose proof (pow2_bounds e k ltac:(lia)).
    destruct (stage_total fuel (2 ^ k) (2 ^ e) (sar (2 ^ e) 1)
                (cos (-2 * PI / IZR (2 ^ e))) (sin (-2 * PI / IZR (2 ^ e))) a0)
      as (a1 & -> & Hl1); [lia|done|done|].
    simpl. eexists. split; [done|]. simpl.
    rewrite shl_pow2_1 by lia. split.
    + split; [|done]. exists (e + 1)%Z. split; [lia|done].
    + rewrite !Z.log2_pow2 by lia. lia.
  - split; [|done]. exists 1%Z. split; [lia|done].
  - simpl. change (Z.log2 2) with 1%Z. lia.
Qed.

(** *** [fftComplex] *)

Lemma fft_load_pads (realIn : list R) :
  (len realIn <= nextPow2 (len realIn))%Z ->
  fft_load realIn
  = Returned (realIn ++ replicate (Z.to_nat (nextPow2 (len realIn) - len realIn)) 0,
              replicate (Z.to_nat (nextPow2 (len realIn))) 0).
Proof.
  intros Hn. unfold fft_load.
  pose proof (len_nonneg realIn) as H0.
  set (N := nextPow2 (len realIn)) in *.
  rewrite !(bind_returned _ _ _ (new_array_returned 0 N ltac:(lia))).
  rewrite Z.min_r by lia.
  rewrite subarray_prefix by lia.
  replace (take (Z.to_nat (len realIn)) realIn) with realIn
    by (unfold len; rewrite Nat2Z.id; by rewrite take_ge).
  assert (Hset := typed_set_returned (replicate (Z.to_nat N) 0) realIn 0).
  rewrite len_replicate in Hset by lia.
  rewrite (bind_returned _ _ _ (Hset ltac:(lia) ltac:(lia))). clear Hset.
  simpl. do 3 f_equal.
  rewrite drop_replicate. f_equal. unfold len. lia.
Qed.

Lemma fft_load_thrown (realIn : list R) :
  (nextPow2 (len realIn) < 0)%Z -> fft_load realIn = Thrown RangeError.
Proof.
  intros Hn. unfold fft_load. by rewrite new_array_thrown.
Qed.

Lemma fftComplex_thrown (fuel : nat) (realIn : list R) :
  (nextPow2 (len realIn) < 0)%Z -> fftComplex fuel realIn = Thrown RangeError.
Proof.
  intros Hn. unfold fftComplex. by rewrite fft_load_thrown.
Qed.

(** The shape of [fftComplex] once the arrays are loaded, and that it
    returns arrays of length [nextPow2 n] for [n] up to [2^29]. *)
Lemma fftComplex_returns (fuel : nat) (realIn : list R) :
  (len realIn <= 2 ^ 29)%Z ->
  (Z.to_nat (nextPow2 (len realIn)) < fuel)%nat ->
  let N := nextPow2 (len realIn) in
  let padded := (realIn ++ replicate (Z.to_nat (N - len realIn)) 0,
                 replicate (Z.to_nat N) 0) in
  fft_load realIn = Returned padded /\
  fftComplex fuel realIn
    = ('(_, a) ← bit_reverse fuel N padded; stages fuel N a) /\
  exists re im, fftComplex fuel realIn = Returned (re, im)
                /\ len re = N /\ len im = N.
Proof.
  intros Hn Hfuel N padded.
  pose proof (len_nonneg realIn) as H0.
  destruct (nextPow2_spec (len realIn)) as (k & Hk & HN & Hle & Hk29).
  { change (2 ^ 29)%Z with 536870912%Z in Hn.
    change (2 ^ 30)%Z with 1073741824%Z. lia. }
  specialize (Hk29 Hn). fold N in HN.
  pose proof (pow2_bounds k 29 ltac:(lia)) as Hb.
  change (2 ^ 29)%Z with 536870912%Z in Hb.
  assert (Hload : fft_load realIn = Returned padded).
  { subst padded N. apply fft_load_pads. rewrite HN. done. }
  assert (Hshape : fftComplex fuel realIn
                   = ('(_, a) ← bit_reverse fuel N padded; stages fuel N a)).
  { unfold fftComplex. fold N. by rewrite Hload. }
  split; [done|]. split; [done|].
  rewrite Hshape.
  assert (Hl : lens N padded).
  { subst padded. split; simpl.
    - rewrite len_app, len_replicate by lia. lia.
    - rewrite len_replicate by lia. done. }
  destruct (bit_reverse_total fuel N padded) as (j & a1 & -> & Hl1);
    [lia|by subst N|done|lia|].
  simpl.
  destruct (stages_total fuel k a1) as ([re im] & Hst & [Hre Him]);
    [lia|rewrite <- HN; exact Hfuel|rewrite <- HN; exact Hl1|].
  rewrite <- HN in Hst, Hre, Him. rewrite Hst. simpl in *. eauto.
Qed.

(** [fftComplex] raises nothing but the [RangeError] of its constructors. *)
Lemma bind_thrown_inv {A B} (m : result A) (f : A -> result B) (e : error) :
  (m ≫= f) = Thrown e ->
  m = Thrown e \/ exists a, m = Returned a /\ f a = Thrown e.
Proof.
  destruct m as [a|e'|]; cbn; intros H.
  - right. exists a. by split.
  - left. by injection H as ->.
  - discriminate.
Qed.

Lemma new_array_error (n : Z) (e : error) :
  new_array 0 n = Thrown e -> e = RangeError.
Proof. unfold new_array. destruct (n <? 0)%Z; congruence. Qed.

Lemma typed_set_error (dst src : list R) (o : Z) (e : error) :
  typed_set dst src o = Thrown e -> e = RangeError.
Proof. unfold typed_set. destruct (_ || _); congruence. Qed.

Lemma rev_carry_no_throw fuel j m e : rev_carry fuel j m <> Thrown e.
Proof. unfold rev_carry. apply while_no_throw. by intros [? ?] ?. Qed.

Lemma bit_reverse_no_throw fuel N a e : bit_reverse fuel N a <> Thrown e.
Proof.
  unfold bit_reverse. apply for_upM_no_throw.
  intros i [j a0] e' H. apply bind_thrown_inv in H as [H|([j' m'] & _ & H)].
  - by apply rev_carry_no_throw in H.
  - done.
Qed.

Lemma stage_no_throw fuel N size half wpr wpi a e :
  stage fuel N size half wpr wpi a <> Thrown e.
Proof.
  unfold stage. intros H. apply bind_thrown_inv in H as [H|([? ?] & _ & H)]; [|done].
  revert H. apply while_no_throw. by intros [? ?] ?.
Qed.

Lemma stages_no_throw fuel N a e : stages fuel N a <> Thrown e.
Proof.
  unfold stages. intros H. apply bind_thrown_inv in H as [H|([? ?] & _ & H)]; [|done].
  revert H. apply while_no_throw. intros [size a0] e' H.
  apply bind_thrown_inv in H as [H|(? & _ & H)]; [|done].
  by apply stage_no_throw in H.
Qed.

Lemma fft_load_error realIn e : fft_load realIn = Thrown e -> e = RangeError.
Proof.
  unfold fft_load. intros H.
  apply bind_thrown_inv in H as [H|(re & _ & H)]; [by apply new_array_error in H|].
  apply bind_thrown_inv in H as [H|(im & _ & H)]; [by apply new_array_error in H|].
  apply bind_thrown_inv in H as [H|(re' & _ & H)]; [by apply typed_set_error in H|].
  done.
Qed.

Lemma fftComplex_error fuel realIn e :
  fftComplex fuel realIn = Thrown e -> e = RangeError.
Proof.
  unfold fftComplex. intros H.
  apply bind_thrown_inv in H as [H|(a & _ & H)]; [by apply fft_load_error in H|].
  apply bind_thrown_inv in H as [H|([j a'] & _ & H)].
  - by apply bit_reverse_no_throw in H.
  - by apply stages_no_throw in H.
Qed.

(** At length [2^30] the stage loop does not stop: [size <<= 1] wraps to
    [-2^31], which is still [<= N], and [start += size] then runs away
    from [N]. *)
Lemma stage_negative_size_diverges fuel (N size half : Z) wpr wpi a r :
  (0 < N)%Z -> (size <= 0)%Z -> stage fuel N size half wpr wpi a <> Returned r.
Proof.
  intros HN Hsize. unfold stage.
  set (w := while _ _ _ _).
  assert (Hw : forall s, w <> Returned s); [|destruct w as [[z p]| |]; [by destruct (Hw (z, p))|done|done]].
  intros s. subst w.
  apply (while_diverges (fun s : Z * (list R * list R) => (fst s <= 0)%Z)).
  - intros [start a0] Hs. simpl in *. apply Z.ltb_lt. lia.
  - intros [start a0] [start' a1] Hs Hb. injection Hb as <- <-. simpl in *. lia.
  - simpl. lia.
Qed.

Lemma stages_diverges_2_30 fuel a r : stages fuel 1073741824 a <> Returned r.
Proof.
  unfold stages.
  set (w := while _ _ _ _).
  assert (Hw : forall s, w <> Returned s); [|destruct w as [[z p]| |]; [by destruct (Hw (z, p))|done|done]].
  intros s. subst w.
  apply (while_diverges
           (fun s : Z * (list R * list R) =>
              (exists e, 1 <= e <= 30 /\ fst s = 2 ^ e)%Z \/ fst s = (-2147483648)%Z)).
  - intros [size a0] Hs. simpl in Hs.
    destruct Hs as [(e & He & ->) | ->]; simpl; [|done].
    apply Z.leb_le. change 1073741824%Z with (2 ^ 30)%Z.
    apply Z.pow_le_mono_r; lia.
  - intros [size a0] [size' a1] Hs Hb. simpl in *.
    destruct Hs as [(e & He & ->)| ->].
    + destruct (stage _ _ _ _ _ _ _) as [a2| |]; [|done|done].
      simpl in Hb. injection Hb as <- <-.
      destruct (Z.eq_dec e 30%Z) as [->|Hne]; [by right|left].
      exists (e + 1)%Z. split; [lia|]. apply shl_pow2_1. lia.
    + exfalso. revert Hb.
      destruct (stage _ _ _ _ _ _ _) as [a2| |] eqn:Hst; [|done|done].
      by apply stage_negative_size_diverges in Hst.
  - left. exists 1%Z. split; [lia|done].
Qed.

(** *** The window and the magnitudes *)

Lemma applyHann_spec (x : list R) :
  len (applyHann x) = len x /\
  forall n, (0 <= n < len x)%Z ->
    (applyHann x).[n] = x.[n] * hann_weight n (len x).
Proof.
  unfold applyHann.
  destruct (for_up_cells 0 (fun n v => v * hann_weight n (len x))
              (Z.to_nat (len x)) x) as (Hlen & Hlo & _).
  { pose proof (len_nonneg x). lia. }
  split; [done|]. intros n Hn. apply Hlo. lia.
Qed.

(** The unwindowed segment: [fftSize] cells, the first ones copied from
    the buffer, the others zero. *)
Lemma segment_none (samples : list R) (N : Z) :
  (0 <= N)%Z ->
  exists x0, segment samples N none = Returned x0 /\
    segment samples N hann = Returned (applyHann x0) /\
    len x0 = N /\
    (forall i, (0 <= i < Z.min N (len samples))%Z -> x0.[i] = samples.[i]) /\
    (forall i, (Z.min N (len samples) <= i)%Z -> x0.[i] = 0).
Proof.
  intros HN. unfold segment.
  rewrite !(bind_returned _ _ _ (new_array_returned 0 N HN)).
  pose proof (len_nonneg samples) as Hs.
  destruct (for_up_cells 0 (fun i _ => samples.[i])
              (Z.to_nat (Z.min N (len samples))) (replicate (Z.to_nat N) 0))
    as (Hlen & Hlo & Hhi).
  { rewrite len_replicate by lia. lia. }
  rewrite len_replicate in Hlen by lia.
  eexists. split; [done|]. split; [done|]. split; [done|]. split.
  - intros i Hi. apply Hlo. lia.
  - intros i Hi. rewrite Hhi by lia.
    unfold aget, aget_opt. destruct (i <? 0)%Z; [done|].
    destruct (replicate _ _ !! _) eqn:Hl; [|done].
    by apply lookup_replicate in Hl as [-> _].
Qed.

Lemma segment_len (samples : list R) (N : Z) (w : windowing) :
  (0 <= N)%Z -> exists x, segment samples N w = Returned x /\ len x = N.
Proof.
  intros HN. destruct (segment_none samples N HN) as (x0 & H0 & Hh & Hl & _).
  destruct w; [|eauto].
  exists (applyHann x0). split; [done|].
  destruct (applyHann_spec x0) as [-> _]. done.
Qed.


Lemma magnitudes_spec (N : Z) (re im : list R) :
  (0 <= N)%Z ->
  exists mg, magnitudes N re im = Returned mg /\ len mg = (N / 2)%Z /\
    forall j, (0 <= j < N / 2)%Z -> mg.[j] = 2 * hypot re.[j] im.[j] / IZR N.
Proof.
  intros HN. unfold magnitudes.
  pose proof (Z.div_pos N 2 HN ltac:(lia)) as Hh.
  rewrite (bind_returned _ _ _ (new_array_returned 0 (N / 2) Hh)).
  set (z := replicate (Z.to_nat (N / 2)) 0).
  assert (Hz : len z = (N / 2)%Z) by (apply len_replicate; lia).
  destruct (for_up_cells 0 (fun k _ => hypot re.[k] im.[k]) (Z.to_nat (N / 2)) z)
    as (Hlen1 & Hlo1 & _); [lia|].
  set (m1 := for_up _ _ _ z) in *.
  destruct (for_up_cells 0 (fun k v => (v * 2) / IZR N) (Z.to_nat (N / 2)) m1)
    as (Hlen2 & Hlo2 & _); [lia|].
  eexists. split; [done|]. split; [lia|].
  intros j Hj. rewrite Hlo2 by lia. rewrite Hlo1 by lia.
  unfold Rdiv. ring.
Qed.

(** The computation of [SpectrumCanvas] for a size up to [2^29]. *)
Lemma analyze_spec (fuel : nat) (samples : list R) (sampleRate : R) (N : Z)
    (w : windowing) :
  (0 <= N <= 2 ^ 29)%Z -> (Z.to_nat (nextPow2 N) < fuel)%nat ->
  exists x re im mg,
    segment samples N w = Returned x /\ len x = N /\
    fftComplex fuel x = Returned (re, im) /\
    len re = nextPow2 N /\ len im = nextPow2 N /\
    analyze fuel samples sampleRate N w
      = Returned {| mags := mg; binHz := sampleRate / IZR N |} /\
    len mg = (N / 2)%Z /\
    forall j, (0 <= j < N / 2)%Z -> mg.[j] = 2 * hypot re.[j] im.[j] / IZR N.
Proof.
  intros HN Hfuel.
  destruct (segment_len samples N w) as (x & Hseg & Hx); [lia|].
  destruct (fftComplex_returns fuel x) as (_ & _ & re & im & Hfft & Hre & Him).
  { rewrite Hx. lia. }
  { by rewrite Hx. }
  rewrite Hx in Hre, Him.
  destruct (magnitudes_spec N re im) as (mg & Hmg & Hlen & Hval); [lia|].
  exists x, re, im, mg. unfold analyze.
  rewrite Hseg. simpl. rewrite Hfft. simpl. rewrite Hmg. simpl. eauto 10.
Qed.

Lemma analyze_error fuel samples sampleRate N w e :
  analyze fuel samples sampleRate N w = Thrown e -> e = RangeError.
Proof.
  unfold analyze. intros H.
  apply bind_thrown_inv in H as [H|(x & _ & H)].
  { unfold segment in H.
    apply bind_thrown_inv in H as [H|(? & _ & H)]; [by apply new_array_error in H|done]. }
  apply bind_thrown_inv in H as [H|([re im] & _ & H)]; [by apply fftComplex_error in H|].
  apply bind_thrown_inv in H as [H|(? & _ & H)]; [|done].
  unfold magnitudes in H.
  apply bind_thrown_inv in H as [H|(? & _ & H)]; [by apply new_array_error in H|done].
Qed.

Lemma fftComplex_diverges (fuel : nat) (realIn : list R) r :
  (2 ^ 29 < len realIn <= 2 ^ 30)%Z -> fftComplex fuel realIn <> Returned r.
Proof.
  intros Hn.
  destruct (nextPow2_spec (len realIn)) as (k & Hk & HN & Hle & _); [lia|].
  assert (k = 30%Z) as ->.
  { assert (29 < k)%Z; [|lia]. apply (Z.pow_lt_mono_r_iff 2); lia. }
  unfold fftComplex. rewrite HN.
  apply bind_not_returned. intros a _.
  apply bind_not_returned. intros [j a'] _.
  change (2 ^ 30)%Z with 1073741824%Z.
  apply stages_diverges_2_30.
Qed.

(** The butterflies of one block use the iterates of the recurrence. *)
Lemma block_twiddles (start half : Z) (wpr wpi : R) (a : list R * list R) :
  block start half wpr wpi a
  = foldl (fun a (k : nat) =>
             butterfly (fst (twiddle wpr wpi k)) (snd (twiddle wpr wpi k))
               (start + Z.of_nat k) (start + Z.of_nat k + half) a)
      a (seq 0 (Z.to_nat half)).
Proof.
  unfold block.
  generalize (Z.to_nat half) as c. intros c.
  change (1, 0) with (twiddle wpr wpi 0). change 0%Z with (Z.of_nat 0).
  generalize 0%nat as k0. revert a.
  induction c as [|c IH]; intros a k0; simpl; [done|].
  replace (Z.of_nat k0 + 1)%Z with (Z.of_nat (Datatypes.S k0)) by lia.
  change (twiddle_next wpr wpi (twiddle wpr wpi k0))
    with (twiddle wpr wpi (Datatypes.S k0)).
  by rewrite IH.
Qed.

(** *** The model at work *)

Example nextPow2_values :
  map nextPow2 [0; 1; 2; 3; 4; 5; 1000; 1024; 1025; 32768]%Z
  = [2; 2; 2; 4; 4; 8; 1024; 1024; 2048; 32768]%Z.
Proof. reflexivity. Qed.

(** On two and on four points [fftComplex] is the discrete Fourier
    transform [X_k = sum_n x_n exp(-2 pi i k n / N)]. *)
Example fftComplex_2_points (x0 x1 : R) :
  exists re im, fftComplex 3 [x0; x1] = Returned (re, im) /\
    re = [x0 + x1; x0 - x1] /\ im = [0; 0].
Proof.
  eexists _, _. split.
  - cbv -[cos sin PI Rmult Rplus Rminus Rdiv Ropp]. reflexivity.
  - cbv beta. split; repeat (apply (f_equal2 cons); [lra|]); reflexivity.
Qed.

Example fftComplex_4_points (x0 x1 x2 x3 : R) :
  exists re im, fftComplex 5 [x0; x1; x2; x3] = Returned (re, im) /\
    re = [x0 + x1 + x2 + x3; x0 - x2; x0 - x1 + x2 - x3; x0 - x2] /\
    im = [0; x3 - x1; 0; x1 - x3].
Proof.
  eexists _, _. split.
  - cbv -[cos sin PI Rmult Rplus Rminus Rdiv Ropp]. reflexivity.
  - cbv beta.
    match goal with
    | |- context [cos ?e] => replace e with (- (PI / 2)) by lra
    end.
    rewrite cos_neg, sin_neg, cos_PI2, sin_PI2.
    split; repeat (apply (f_equal2 cons); [lra|]); reflexivity.
Qed.

(** The scenario of the design document: a size of 4096 gives 2048
    magnitudes and a bin width of [sampleRate / 4096]. *)
Example analyze_4096 (samples : list R) (w : windowing) :
  exists frame, analyze 4097 samples 48000 4096 w = Returned frame /\
    len (mags frame) = 2048%Z /\ binHz frame = 48000 / 4096.
Proof.
  destruct (analyze_spec 4097 samples 48000 4096 w)
    as (x & re & im & mg & _ & _ & _ & _ & _ & Hrun & Hlen & _).
  - change (2 ^ 29)%Z with 536870912%Z. lia.
  - change (nextPow2 4096) with 4096%Z. lia.
  - eexists. split; [exact Hrun|]. split; [exact Hlen|done].
Qed.

(** *** The claims *)

(** C2 (counterexample). [2^31] is a power of two, and for it the
    computation raises [RangeError]: [nextPow2(2^31)] is [-2^31], the
    length [fftComplex] asks of the array constructor. *)
Lemma analyze_pow2_31_throws :
  is_pow2 2147483648 /\
  forall fuel : nat, analyze fuel [] 48000 2147483648 none = Thrown RangeError.
Proof.
  split.
  - exists 31%Z. split; [lia|reflexivity].
  - intros fuel. unfold analyze.
    destruct (segment_len [] 2147483648 none) as (x & Hseg & Hx); [lia|].
    rewrite (bind_returned _ _ _ Hseg).
    apply bind_thrown, fftComplex_thrown.
    rewrite Hx, nextPow2_overflow; lia.
Qed.

(** C2 (amended). For every power-of-two [fft_size] [N = 2^k] up to [2^29]
    and every buffer, [analyze] returns a magnitude array of length exactly
    [N/2] whose bin [j] is [2 * hypot(re[j], im[j]) / N], where [(re, im)]
    is what [fftComplex] returns on the windowed, zero-padded segment. *)
Theorem analyze_magnitudes_pow2 (k : Z) (samples : list R) (sampleRate : R)
    (w : windowing) (fuel : nat) :
  (0 <= k <= 29)%Z -> (Z.to_nat (2 ^ k) + 1 < fuel)%nat ->
  exists x re im frame,
    segment samples (2 ^ k) w = Returned x /\
    fftComplex fuel x = Returned (re, im) /\
    analyze fuel samples sampleRate (2 ^ k) w = Returned frame /\
    len (mags frame) = (2 ^ k / 2)%Z /\
    forall j, (0 <= j < 2 ^ k / 2)%Z ->
      (mags frame).[j] = 2 * hypot re.[j] im.[j] / IZR (2 ^ k).
Proof.
  intros Hk Hfuel.
  pose proof (pow2_bounds k 29 ltac:(lia)) as Hb.
  destruct (analyze_spec fuel samples sampleRate (2 ^ k) w)
    as (x & re & im & mg & Hseg & _ & Hfft & _ & _ & Hrun & Hlen & Hval); [lia| |].
  - destruct (Z.eq_dec k 0%Z) as [->|Hne].
    + change (nextPow2 (2 ^ 0)) with 2%Z. change (2 ^ 0)%Z with 1%Z in Hfuel. lia.
    + rewrite nextPow2_pow2 by lia. lia.
  - exists x, re, im, {| mags := mg; binHz := sampleRate / IZR (2 ^ k) |}. done.
Qed.

(** The amended C2 at [fft_size = 4] on a five-sample buffer. *)
Lemma analyze_magnitudes_pow2_witness :
  exists x re im frame,
    segment [1; 2; 3; 4; 5] (2 ^ 2) hann = Returned x /\
    fftComplex 6 x = Returned (re, im) /\
    analyze 6 [1; 2; 3; 4; 5] 48000 (2 ^ 2) hann = Returned frame /\
    len (mags frame) = (2 ^ 2 / 2)%Z /\
    forall j, (0 <= j < 2 ^ 2 / 2)%Z ->
      (mags frame).[j] = 2 * hypot re.[j] im.[j] / IZR (2 ^ 2).
Proof.
  apply (analyze_magnitudes_pow2 2 [1; 2; 3; 4; 5] 48000 hann 6).
  - lia.
  - simpl. lia.
Defined.

(** C3 (counterexample). [3] is not a power of two, and [analyze] with
    [fft_size = 3] returns a frame (of one magnitude): it does not fail. *)
Lemma analyze_size_3_returns :
  ~ is_pow2 3 /\
  exists frame, analyze 5 [1; 2; 3] 48000 3 hann = Returned frame
                /\ len (mags frame) = 1%Z.
Proof.
  split.
  - intros (k & Hk & H3).
    destruct (Z.eq_dec k 0%Z) as [->|]; [done|].
    destruct (Z.eq_dec k 1%Z) as [->|]; [done|].
    pose proof (Z.pow_le_mono_r 2%Z 2%Z k ltac:(lia) ltac:(lia)) as H4.
    change (2 ^ 2)%Z with 4%Z in H4. lia.
  - destruct (analyze_spec 5 [1; 2; 3] 48000 3 hann)
      as (x & re & im & mg & _ & _ & _ & _ & _ & Hrun & Hlen & _).
    + change (2 ^ 29)%Z with 536870912%Z. lia.
    + change (nextPow2 3) with 4%Z. lia.
    + eexists. split; [exact Hrun|]. exact Hlen.
Qed.

(** C3 (amended). [analyze] has no [InvalidFftSize]: it never fails with
    that error, whatever its arguments; for every [fft_size] from [0] to
    [2^29], a power of two or not, it returns a frame of [fft_size / 2]
    (rounded down) magnitudes, taken from a transform of length
    [nextPow2 fft_size]. *)
Theorem analyze_any_size (fuel : nat) (samples : list R) (sampleRate : R)
    (N : Z) (w : windowing) :
  (0 <= N <= 2 ^ 29)%Z -> (Z.to_nat (nextPow2 N) < fuel)%nat ->
  (exists x re im frame,
     segment samples N w = Returned x /\
     fftComplex fuel x = Returned (re, im) /\ len re = nextPow2 N /\
     analyze fuel samples sampleRate N w = Returned frame /\
     len (mags frame) = (N / 2)%Z) /\
  (forall fuel' samples' sampleRate' N' w',
     analyze fuel' samples' sampleRate' N' w' <> Thrown InvalidFftSize).
Proof.
  intros HN Hfuel. split.
  - destruct (analyze_spec fuel samples sampleRate N w HN Hfuel)
      as (x & re & im & mg & Hseg & _ & Hfft & Hre & _ & Hrun & Hlen & _).
    exists x, re, im, {| mags := mg; binHz := sampleRate / IZR N |}. done.
  - intros fuel' samples' sampleRate' N' w' H.
    by apply analyze_error in H.
Qed.

(** The amended C3 at [fft_size = 3]. *)
Lemma analyze_any_size_witness :
  (exists x re im frame,
     segment [1; 2; 3] 3 hann = Returned x /\
     fftComplex 5 x = Returned (re, im) /\ len re = nextPow2 3 /\
     analyze 5 [1; 2; 3] 48000 3 hann = Returned frame /\
     len (mags frame) = (3 / 2)%Z) /\
  (forall fuel' samples' sampleRate' N' w',
     analyze fuel' samples' sampleRate' N' w' <> Thrown InvalidFftSize).
Proof.
  apply (analyze_any_size 5 [1; 2; 3] 48000 3 hann).
  - split; [lia|]. vm_compute. discriminate.
  - vm_compute. lia.
Defined.

(** C5 (counterexample). On the pair [(0, 1)] of [re = [1; 1]],
    [im = [0; 0]] with twiddle factor [1], the code leaves [re[1] = 0];
    the statements in the order the design document writes them leave
    [re[1] = 1], so the two orders are not the same computation. *)
Lemma butterfly_spec_order_differs :
  (fst (butterfly 1 0 0 1 ([1; 1], [0; 0]))).[1] = 0 /\
  (fst (butterfly_spec_order 1 0 0 1 ([1; 1], [0; 0]))).[1] = 1 /\
  butterfly 1 0 0 1 ([1; 1], [0; 0])
    <> butterfly_spec_order 1 0 0 1 ([1; 1], [0; 0]).
Proof.
  assert (Hc : (fst (butterfly 1 0 0 1 ([1; 1], [0; 0]))).[1] = 0).
  { unfold butterfly, aget, aget_opt, aset. simpl. lra. }
  assert (Hs : (fst (butterfly_spec_order 1 0 0 1 ([1; 1], [0; 0]))).[1] = 1).
  { unfold butterfly_spec_order, aget, aget_opt, aset. simpl. lra. }
  split; [done|]. split; [done|].
  intros Heq. rewrite Heq in Hc. rewrite Hc in Hs. lra.
Qed.

(** C5 (amended). For each pair [(i0, i1)] the butterfly first computes
    the twiddle product [(tr, ti)] of the odd element, then writes
    [re[i1] = re[i0] - tr; im[i1] = im[i0] - ti] from the even element not
    yet updated, then [re[i0] += tr; im[i0] += ti]; no other cell changes.
    The twiddle factor is advanced between butterflies by
    [wr' = wr cos t - wi sin t], [wi' = wr sin t + wi cos t] with
    [t = -2 pi / size], starting from [1 + 0i] in each block: butterfly
    [k] of a block uses the [k]-th iterate. *)
Theorem butterfly_order (wr wi : R) (i0 i1 : Z) (re im : list R) :
  (0 <= i0 < len re)%Z -> (0 <= i1 < len re)%Z -> len im = len re -> i0 <> i1 ->
  let tr := wr * re.[i1] - wi * im.[i1] in
  let ti := wr * im.[i1] + wi * re.[i1] in
  let a' := butterfly wr wi i0 i1 (re, im) in
  (fst a').[i1] = re.[i0] - tr /\
  (snd a').[i1] = im.[i0] - ti /\
  (fst a').[i0] = re.[i0] + tr /\
  (snd a').[i0] = im.[i0] + ti /\
  (forall j, j <> i0 -> j <> i1 -> (fst a').[j] = re.[j] /\ (snd a').[j] = im.[j]) /\
  (forall size : Z,
     let theta := -2 * PI / IZR size in
     twiddle_next (cos theta) (sin theta) (wr, wi)
     = (wr * cos theta - wi * sin theta, wr * sin theta + wi * cos theta)) /\
  (forall (start half : Z) (wpr wpi : R) (a : list R * list R),
     block start half wpr wpi a
     = foldl (fun a (k : nat) =>
                butterfly (fst (twiddle wpr wpi k)) (snd (twiddle wpr wpi k))
                  (start + Z.of_nat k) (start + Z.of_nat k + half) a)
         a (seq 0 (Z.to_nat half))).
Proof.
  intros H0 H1 Him Hne tr ti a'. subst a'. unfold butterfly. simpl.
  fold tr ti.
  repeat split.
  - rewrite aget_aset_ne by done. by rewrite aget_aset_eq.
  - rewrite aget_aset_ne by done. rewrite aget_aset_eq by lia. done.
  - rewrite aget_aset_eq by (rewrite len_aset; lia).
    by rewrite aget_aset_ne by done.
  - rewrite aget_aset_eq by (rewrite len_aset; lia).
    by rewrite aget_aset_ne by done.
  - by rewrite !aget_aset_ne by done.
  - by rewrite !aget_aset_ne by done.
  - intros. apply block_twiddles.
Qed.

(** The amended C5 on the pair [(0, 1)] of two-element arrays. *)
Lemma butterfly_order_witness :
  let tr := 1 * [1; 1].[1] - 0 * [0; 0].[1] in
  let ti := 1 * [0; 0].[1] + 0 * [1; 1].[1] in
  let a' := butterfly 1 0 0 1 ([1; 1], [0; 0]) in
  (fst a').[1] = [1; 1].[0] - tr /\
  (snd a').[1] = [0; 0].[0] - ti /\
  (fst a').[0] = [1; 1].[0] + tr /\
  (snd a').[0] = [0; 0].[0] + ti /\
  (forall j, j <> 0%Z -> j <> 1%Z ->
     (fst a').[j] = [1; 1].[j] /\ (snd a').[j] = [0; 0].[j]) /\
  (forall size : Z,
     let theta := -2 * PI / IZR size in
     twiddle_next (cos theta) (sin theta) (1, 0)
     = (1 * cos theta - 0 * sin theta, 1 * sin theta + 0 * cos theta)) /\
  (forall (start half : Z) (wpr wpi : R) (a : list R * list R),
     block start half wpr wpi a
     = foldl (fun a (k : nat) =>
                butterfly (fst (twiddle wpr wpi k)) (snd (twiddle wpr wpi k))
                  (start + Z.of_nat k) (start + Z.of_nat k + half) a)
         a (seq 0 (Z.to_nat half))).
Proof.
  apply (butterfly_order 1 0 0 1 [1; 1] [0; 0]).
  - vm_compute. split; [discriminate|reflexivity].
  - vm_compute. split; [discriminate|reflexivity].
  - reflexivity.
  - discriminate.
Defined.

(** C6. With [window = hann] and a segment of [N >= 2] samples, the
    segment [x0] holds the first [N] samples of the buffer followed by
    zeros when the buffer is shorter; sample [n] of it is multiplied by
    [0.5 * (1 - cos(2 pi n / (N - 1)))], so that cell [n] of the weighted
    segment is the sample of the buffer (or the zero of the padding) times
    that weight; and [fftComplex] is applied to the segment so weighted.
    (The weight is a real number: floating-point rounding is not
    modelled.) *)
Theorem hann_window_applied (samples : list R) (N n : Z) :
  (2 <= N)%Z -> (0 <= n < N)%Z ->
  exists x0 x,
    segment samples N none = Returned x0 /\ len x0 = N /\
    (forall i, (0 <= i < N)%Z ->
       x0.[i] = if (i <? len samples)%Z then samples.[i] else 0) /\
    segment samples N hann = Returned x /\ len x = N /\
    x = applyHann x0 /\
    x.[n] = x0.[n] * (0.5 * (1 - cos (2 * PI * IZR n / IZR (N - 1)))) /\
    x.[n] = (if (n <? len samples)%Z then samples.[n] else 0)
            * (0.5 * (1 - cos (2 * PI * IZR n / IZR (N - 1)))) /\
    forall (fuel : nat) (sampleRate : R),
      analyze fuel samples sampleRate N hann
      = ('(re, im) ← fftComplex fuel x;
         mags ← magnitudes N re im;
         Returned {| mags := mags; binHz := sampleRate / IZR N |}).
Proof.
  intros HN Hn.
  destruct (segment_none samples N) as (x0 & Hnone & Hhann & Hlen & Hcopy & Hpad);
    [lia|].
  assert (Hcell : forall i, (0 <= i < N)%Z ->
            x0.[i] = if (i <? len samples)%Z then samples.[i] else 0).
  { intros i Hi. destruct (Z.ltb_spec i (len samples)).
    - apply Hcopy. lia.
    - apply Hpad. lia. }
  destruct (applyHann_spec x0) as [Hl Hw].
  assert (Hn' : (applyHann x0).[n]
                = x0.[n] * (0.5 * (1 - cos (2 * PI * IZR n / IZR (N - 1))))).
  { rewrite Hw by lia. by rewrite Hlen. }
  exists x0, (applyHann x0).
  split; [done|]. split; [done|]. split; [done|]. split; [done|].
  split; [by rewrite Hl|]. split; [done|]. split; [done|]. split.
  - by rewrite Hn', Hcell.
  - intros fuel sampleRate. unfold analyze.
    by rewrite (bind_returned _ _ _ Hhann).
Qed.

(** C6 at sample 1 of a four-point segment. *)
Lemma hann_window_applied_witness :
  exists x0 x,
    segment [1; 2; 3; 4; 5] 4 none = Returned x0 /\ len x0 = 4%Z /\
    (forall i, (0 <= i < 4)%Z ->
       x0.[i] = if (i <? len [1; 2; 3; 4; 5])%Z then [1; 2; 3; 4; 5].[i] else 0) /\
    segment [1; 2; 3; 4; 5] 4 hann = Returned x /\ len x = 4%Z /\
    x = applyHann x0 /\
    x.[1] = x0.[1] * (0.5 * (1 - cos (2 * PI * IZR 1 / IZR (4 - 1)))) /\
    x.[1] = (if (1 <? len [1; 2; 3; 4; 5])%Z then [1; 2; 3; 4; 5].[1] else 0)
            * (0.5 * (1 - cos (2 * PI * IZR 1 / IZR (4 - 1)))) /\
    forall (fuel : nat) (sampleRate : R),
      analyze fuel [1; 2; 3; 4; 5] sampleRate 4 hann
      = ('(re, im) ← fftComplex fuel x;
         mags ← magnitudes 4 re im;
         Returned {| mags := mags; binHz := sampleRate / IZR 4 |}).
Proof.
  apply (hann_window_applied [1; 2; 3; 4; 5] 4 1); lia.
Defined.

(** C10 (counterexample). On an input of [2^30 + 1] samples [nextPow2]
    overflows to [-2^31] and the array constructor raises [RangeError]. *)
Lemma fftComplex_overflow_throws :
  len (replicate (Z.to_nat 1073741825) 0) = 1073741825%Z /\
  forall fuel : nat,
    fftComplex fuel (replicate (Z.to_nat 1073741825) 0) = Thrown RangeError.
Proof.
  assert (Hlen : len (replicate (Z.to_nat 1073741825) 0) = 1073741825%Z)
    by (apply len_replicate; lia).
  split; [done|]. intros fuel. apply fftComplex_thrown.
  rewrite Hlen, nextPow2_overflow; lia.
Qed.

(** C10 (amended). For every input of length [n] from [1] to [2^29], a
    power of two or not, [fftComplex] returns, raising nothing: it
    zero-pads the input to length [nextPow2 n], a power of two that is at
    least [n], and its [re] and [im] have exactly that length. *)
Theorem fftComplex_total_upto_2_29 (fuel : nat) (realIn : list R) :
  (1 <= len realIn <= 2 ^ 29)%Z ->
  (Z.to_nat (nextPow2 (len realIn)) < fuel)%nat ->
  let N := nextPow2 (len realIn) in
  let padded := (realIn ++ replicate (Z.to_nat (N - len realIn)) 0,
                 replicate (Z.to_nat N) 0) in
  is_pow2 N /\ (len realIn <= N)%Z /\
  fft_load realIn = Returned padded /\
  fftComplex fuel realIn
    = ('(_, a) ← bit_reverse fuel N padded; stages fuel N a) /\
  exists re im, fftComplex fuel realIn = Returned (re, im)
                /\ len re = N /\ len im = N.
Proof.
  intros Hn Hfuel N padded.
  destruct (nextPow2_spec (len realIn)) as (k & Hk & HN & Hle & _).
  { change (2 ^ 29)%Z with 536870912%Z in Hn.
    change (2 ^ 30)%Z with 1073741824%Z. lia. }
  split; [exists k; split; [lia|done]|].
  split; [subst N; lia|].
  apply fftComplex_returns; [lia|done].
Qed.

(** The amended C10 on three samples. *)
Lemma fftComplex_total_upto_2_29_witness :
  let N := nextPow2 (len [1; 2; 3]) in
  let padded := ([1; 2; 3] ++ replicate (Z.to_nat (N - len [1; 2; 3])) 0,
                 replicate (Z.to_nat N) 0) in
  is_pow2 N /\ (len [1; 2; 3] <= N)%Z /\
  fft_load [1; 2; 3] = Returned padded /\
  fftComplex 5 [1; 2; 3]
    = ('(_, a) ← bit_reverse 5 N padded; stages 5 N a) /\
  exists re im, fftComplex 5 [1; 2; 3] = Returned (re, im)
                /\ len re = N /\ len im = N.
Proof.
  apply (fftComplex_total_upto_2_29 5 [1; 2; 3]).
  - vm_compute. split; discriminate.
  - vm_compute. lia.
Defined.

End SpectrumFacts.

(** ** The sampling and quantisation simulator *)

Module SamplingFacts.
Import JS JSFacts Sampling.
#[local] Open Scope Q_scope.

(** *** Rounding *)

Lemma Qfloor_between (x : Q) (lo hi : Z) :
  inject_Z lo <= x -> x < inject_Z (hi + 1) -> (lo <= Qfloor x <= hi)%Z.
Proof.
  intros Hlo Hhi. split.
  - rewrite <- (Qfloor_Z lo). by apply Qfloor_resp_le.
  - apply Z.lt_succ_r. unfold Z.succ. rewrite Zlt_Qlt.
    eapply Qle_lt_trans; [apply Qfloor_le|done].
Qed.

Lemma Qceiling_between (x : Q) (lo hi : Z) :
  inject_Z (lo - 1) < x -> x <= inject_Z hi -> (lo <= Qceiling x <= hi)%Z.
Proof.
  intros Hlo Hhi. split.
  - assert (lo - 1 < Qceiling x)%Z; [|lia]. rewrite Zlt_Qlt.
    eapply Qlt_le_trans; [done|apply Qle_ceiling].
  - rewrite <- (Qceiling_Z hi). by apply Qceiling_resp_le.
Qed.

Lemma js_round_between (x : Q) (m : Z) :
  - inject_Z m <= x -> x <= inject_Z m -> (- m <= js_round x <= m)%Z.
Proof.
  intros Hlo Hhi. unfold js_round. apply Qfloor_between.
  - rewrite inject_Z_opp. lra.
  - rewrite inject_Z_plus. change (inject_Z 1) with 1. lra.
Qed.

Lemma js_round_nonneg (x : Q) : 0 <= x -> (0 <= js_round x)%Z.
Proof.
  intros Hx. unfold js_round.
  apply (Qfloor_between _ 0 (Qfloor (x + (1 # 2)))).
  - change (inject_Z 0) with 0. lra.
  - apply Qlt_floor.
Qed.



Lemma maxInt_pow2 (bits : Z) :
  (1 <= bits <= 31)%Z -> maxInt bits = (2 ^ (bits - 1) - 1)%Z.
Proof. intros Hb. unfold maxInt. by rewrite shl_1_pow2 by lia. Qed.


(** *** The loop range *)

Lemma for_up_collect (c : nat) :
  forall (first : Z) (acc : list Z),
    for_up c first (fun i acc => acc ++ [i]) acc
    = acc ++ ((fun k : nat => (Z.of_nat k + first)%Z) <$> seq 0 c).
Proof.
  induction c as [|c IH]; intros first acc; simpl.
  - by rewrite app_nil_r.
  - rewrite IH, <- app_assoc. simpl. do 2 f_equal.
    rewrite <- fmap_S_seq, <- list_fmap_compose.
    apply list_fmap_ext. intros _ k _. simpl. lia.
Qed.

Lemma indices_seqZ (first last : Z) :
  indices first last = seqZ first (last - first + 1).
Proof. unfold indices, seqZ. by rewrite for_up_collect. Qed.

Lemma length_indices (first last : Z) :
  length (indices first last) = Z.to_nat (last - first + 1).
Proof. by rewrite indices_seqZ, length_seqZ. Qed.

Lemma lookup_indices (first last i : Z) :
  (first <= i <= last)%Z ->
  indices first last !! Z.to_nat (i - first) = Some i.
Proof.
  intros Hi. rewrite indices_seqZ.
  replace (Some i) with (Some (first + Z.of_nat (Z.to_nat (i - first)))%Z)
    by (f_equal; lia).
  apply lookup_seqZ. split; [done|lia].
Qed.




(** *** One output sample *)




(** *** The model at work *)

Example js_round_values :
  map js_round [5 # 2; -5 # 2; -1 # 2; 12 # 10; -26 # 10] = [3; -2; 0; 1; -3]%Z.
Proof. reflexivity. Qed.

Example maxInt_values :
  map maxInt [1; 2; 8; 16; 24; 31; 32; 33]%Z
  = [0; 1; 127; 32767; 8388607; 1073741823; -2147483649; 0]%Z.
Proof. reflexivity. Qed.

(** *** The claims *)



End SamplingFacts.

(** ** The quantiser in the arithmetic of the code *)

Module SamplingDoubleFacts.
Import JS JSFacts Double DoubleFacts SamplingDouble.
#[local] Open Scope Q_scope.

(** *** The loop over the output indices *)

Lemma loop_run (body : number -> point) (last : Z) :
  (last < 2 ^ 53)%Z ->
  forall (n : nat) (first : Z) (ps : list point) (fuel : nat),
    (- 2 ^ 53 <= first)%Z ->
    n = Z.to_nat (last - first + 1) ->
    (n < fuel)%nat ->
    while fuel (fun '(i, _) => fle i (int last))
      (fun '(i, ps) => Returned (fadd i (Fin 1), ps ++ [body i])) (int first, ps)
    = Returned (int (Z.max first (last + 1)),
                ps ++ ((fun i => body (int i)) <$> seqZ first (Z.of_nat n))).
Proof.
  intros Hlast. induction n as [|n IH]; intros first ps fuel Hfirst Hn Hfuel.
  - destruct fuel as [|fuel]; [lia|]. cbn [while]. rewrite fle_int.
    rewrite (proj2 (Z.leb_gt first last)) by lia.
    rewrite Z.max_l by lia. by rewrite app_nil_r.
  - destruct fuel as [|fuel]; [lia|]. cbn [while]. rewrite fle_int.
    rewrite (proj2 (Z.leb_le first last)) by lia.
    cbn [mbind result_bind bind].
    change (Fin 1) with (int 1). rewrite fadd_int by lia.
    rewrite (IH (first + 1)%Z) by lia.
    rewrite Z.max_r by lia. rewrite (Z.max_r first) by lia.
    do 2 f_equal. rewrite <- app_assoc. f_equal.
    rewrite Nat2Z.inj_succ, (seqZ_cons first) by lia. cbn [fmap list_fmap].
    do 3 f_equal. lia.
Qed.

(** The loop from [first] to [last], both below [2^53] in magnitude,
    ends and visits every integer from [first] to [last] once, in
    order. *)
Lemma loop_spec (body : number -> point) (first last : Z) (fuel : nat) :
  (- 2 ^ 53 <= first)%Z -> (last < 2 ^ 53)%Z ->
  (Z.to_nat (last - first + 1) < fuel)%nat ->
  loop fuel (int first) (int last) body
  = Returned ((fun i => body (int i)) <$> seqZ first (last - first + 1)).
Proof.
  intros Hfirst Hlast Hfuel. unfold loop.
  rewrite (loop_run body last Hlast _ first [] fuel Hfirst eq_refl Hfuel).
  cbn [mbind result_bind bind app]. do 2 f_equal.
  destruct (Z.le_gt_cases 0 (last - first + 1)).
  - by rewrite Z2Nat.id.
  - unfold seqZ. rewrite Nat2Z.id. done.
Qed.

Lemma while_not_thrown {S : Type} (cond : S -> bool) (body : S -> result S)
    (fuel : nat) :
  (forall s, exists s', body s = Returned s') ->
  forall (s : S) (e : error), while fuel cond body s <> Thrown e.
Proof.
  intros Hbody. induction fuel as [|fuel IH]; intros s e; cbn [while]; [done|].
  destruct (cond s); [|done]. destruct (Hbody s) as [s' ->].
  cbn [mbind result_bind bind]. apply IH.
Qed.

(** No run of the loop raises. *)
Lemma loop_not_thrown (body : number -> point) (first last : number)
    (fuel : nat) (e : error) :
  loop fuel first last body <> Thrown e.
Proof.
  unfold loop. intros H.
  destruct (while fuel _ _ (first, [])) as [[i ps]| |] eqn:E; [done| |done].
  revert E. apply while_not_thrown. intros [i ps]. eauto.
Qed.

Lemma simulate_not_thrown (fuel : nat) (samples : list Q) (sampleRate : positive)
    (targetRate bits winMs startSample : Z) (e : error) :
  simulate fuel samples sampleRate targetRate bits winMs startSample <> Thrown e.
Proof.
  unfold simulate. intros H.
  destruct (loop fuel _ _ _) as [ps| |] eqn:E; [done| |done].
  by apply loop_not_thrown in E.
Qed.

(** *** The view window *)

Lemma length_of_int (samples : list Q) :
  (len samples <= 2 ^ 53)%Z -> length_of samples = int (len samples).
Proof.
  intros H. unfold length_of. apply of_Z_exact.
  pose proof (len_nonneg samples). lia.
Qed.

(** [Math.floor((winMs / 1000) * sampleRate)] is an integer. *)
Lemma window_floor (sampleRate : positive) (winMs : Z) :
  (Z.pos sampleRate <= 2 ^ 53)%Z -> (Z.abs winMs <= 2 ^ 53)%Z ->
  exists F : Z,
    Math_floor (fmul (fdiv (of_Z winMs) (Fin 1000)) (of_Z (Z.pos sampleRate)))
    = int F.
Proof.
  intros Hsr Hw. rewrite !of_Z_exact by lia.
  unfold fdiv. change (Qeq_bool 1000 0) with false. cbv iota.
  destruct (of_Q_small (inject_Z winMs / 1000) (2 ^ 53)) as (y & -> & _ & Hy & _);
    [|lia|].
  { rewrite Qabs_Qle_condition.
    assert (H1 : - inject_Z (2 ^ 53) <= inject_Z winMs <= inject_Z (2 ^ 53)).
    { rewrite <- inject_Z_opp, <- !Zle_Qle. lia. }
    assert (H2 : 0 <= inject_Z (2 ^ 53)) by (change 0 with (inject_Z 0); rewrite <- Zle_Qle; lia).
    set (B := inject_Z (2 ^ 53)) in *. set (w := inject_Z winMs) in *.
    split.
    - apply Qle_shift_div_l; [reflexivity|]. lra.
    - apply Qle_shift_div_r; [reflexivity|]. lra. }
  unfold fmul.
  destruct (of_Q_small (y * inject_Z (Z.pos sampleRate)) (2 ^ 110))
    as (y2 & -> & _); [|lia|].
  { rewrite Qabs_Qmult.
    assert (Hy' : Qabs y <= inject_Z (2 ^ 55)).
    { eapply Qle_trans; [exact Hy|].
      assert (Hq : Qabs (inject_Z winMs / 1000) <= inject_Z (2 ^ 53)).
      { rewrite Qabs_Qle_condition.
        assert (H1 : - inject_Z (2 ^ 53) <= inject_Z winMs <= inject_Z (2 ^ 53)).
        { rewrite <- inject_Z_opp, <- !Zle_Qle. lia. }
        assert (H2 : 0 <= inject_Z (2 ^ 53))
          by (change 0 with (inject_Z 0); rewrite <- Zle_Qle; lia).
        set (B := inject_Z (2 ^ 53)) in *. set (w := inject_Z winMs) in *.
        split.
        - apply Qle_shift_div_l; [reflexivity|]. lra.
        - apply Qle_shift_div_r; [reflexivity|]. lra. }
      assert (E : inject_Z (2 ^ 55) == 4 * inject_Z (2 ^ 53)).
      { change 4 with (inject_Z 4). rewrite <- inject_Z_mult. by apply inject_Z_injective. }
      rewrite E.
      assert (H2 : 1 <= inject_Z (2 ^ 53))
        by (change 1 with (inject_Z 1); rewrite <- Zle_Qle; lia).
      set (B := inject_Z (2 ^ 53)) in *. lra. }
    assert (Hs : Qabs (inject_Z (Z.pos sampleRate)) <= inject_Z (2 ^ 53)).
    { rewrite Qabs_inject_Z, <- Zle_Qle. lia. }
    assert (E : inject_Z (2 ^ 110) == inject_Z (2 ^ 55) * inject_Z (2 ^ 55)).
    { rewrite <- inject_Z_mult. by apply inject_Z_injective. }
    rewrite E.
    pose proof (Qabs_nonneg y). pose proof (Qabs_nonneg (inject_Z (Z.pos sampleRate))).
    apply Qle_trans with (inject_Z (2 ^ 55) * Qabs (inject_Z (Z.pos sampleRate))).
    - apply Qmult_le_compat_r; done.
    - rewrite !(Qmult_comm (inject_Z (2 ^ 55))). apply Qmult_le_compat_r.
      + eapply Qle_trans; [exact Hs|]. rewrite <- Zle_Qle. lia.
      + change 0 with (inject_Z 0). rewrite <- Zle_Qle. lia. }
  unfold Math_floor, on_finite. eauto.
Qed.

(** The view state is made of integers, computed exactly once
    [Math.floor] has returned. *)
Lemma window_state (samples : list Q) (sampleRate : positive)
    (winMs startSample : Z) :
  (len samples <= 2 ^ 52)%Z -> (Z.pos sampleRate <= 2 ^ 53)%Z ->
  (Z.abs winMs <= 2 ^ 53)%Z -> (Z.abs startSample <= 2 ^ 53)%Z ->
  exists F W cs : Z,
    Math_floor (fmul (fdiv (of_Z winMs) (Fin 1000)) (of_Z (Z.pos sampleRate)))
      = int F /\
    W = Z.max 256 (Z.min (len samples) F) /\
    windowSamples samples sampleRate winMs = int W /\
    clampedStart samples sampleRate winMs startSample = int cs /\
    endSample samples sampleRate winMs startSample = int (cs + W) /\
    (256 <= W <= Z.max 256 (len samples))%Z /\
    cs = Z.max 0 (Z.min startSample (Z.max 0 (len samples - W))).
Proof.
  intros HL Hsr Hw Hs. pose proof (len_nonneg samples) as HL0.
  destruct (window_floor sampleRate winMs Hsr Hw) as [F HF].
  set (W := Z.max 256 (Z.min (len samples) F)).
  assert (HW : windowSamples samples sampleRate winMs = int W).
  { unfold windowSamples. rewrite HF, length_of_int by lia.
    rewrite Math_min_int. change (Fin 256) with (int 256). by rewrite Math_max_int. }
  set (cs := Z.max 0 (Z.min startSample (Z.max 0 (len samples - W)))).
  assert (Hcs : clampedStart samples sampleRate winMs startSample = int cs).
  { unfold clampedStart. rewrite HW, length_of_int by lia.
    rewrite fsub_int by lia. change (Fin 0) with (int 0).
    rewrite Math_max_int, of_Z_exact by lia.
    by rewrite Math_min_int, Math_max_int. }
  exists F, W, cs. split; [done|]. split; [done|].
  split; [done|]. split; [done|]. split.
  - unfold endSample. rewrite Hcs, HW. apply fadd_int. lia.
  - split; [lia|done].
Qed.

(** *** Times scaled to the target rate *)

(** [(c / sampleRate) * targetRate] as the code computes it, for a sample
    index [c]: within an eighth of the exact value. *)
Lemma scaled_time (c : Z) (sampleRate : positive) (targetRate : Z) :
  (0 <= c <= 2 ^ 32)%Z -> (Z.pos sampleRate <= 2 ^ 53)%Z ->
  (Z.abs targetRate <= 2 ^ 16)%Z ->
  exists y,
    fmul (fdiv (int c) (of_Z (Z.pos sampleRate))) (of_Z targetRate) = Fin y /\
    Qabs (y - inject_Z c * inject_Z targetRate / inject_Z (Z.pos sampleRate))
      <= 1 # 8 /\
    ((0 <= targetRate)%Z -> 0 <= y).
Proof.
  intros Hc Hsr Htr. rewrite !of_Z_exact by lia.
  unfold fdiv. change (Qeq_bool (inject_Z (Z.pos sampleRate)) 0) with false.
  cbv iota.
  set (S := inject_Z (Z.pos sampleRate)). set (T := inject_Z targetRate).
  assert (HS : 1 <= S).
  { unfold S. change 1 with (inject_Z 1). rewrite <- Zle_Qle. lia. }
  assert (HC : 0 <= inject_Z c <= inject_Z (2 ^ 32)).
  { change 0 with (inject_Z 0). rewrite <- !Zle_Qle. lia. }
  set (x1 := inject_Z c / S).
  assert (Hx1 : 0 <= x1 <= inject_Z (2 ^ 32)).
  { unfold x1. split.
    - apply Qle_shift_div_l; lra.
    - apply Qle_shift_div_r; [lra|].
      assert (0 <= inject_Z (2 ^ 32) * (S - 1)).
      { apply Qmult_le_0_compat; lra. }
      lra. }
  destruct (of_Q_near x1 (2 ^ 32)) as (y1 & -> & H1 & Hy1pos); [|lia|].
  { rewrite Qabs_pos; tauto. }
  assert (HA1 : inject_Z (2 ^ 32) * 2 ^ (-53) + 2 ^ (-1075) <= 1 # 2000000)
    by numeric.
  assert (H1' : Qabs (y1 - x1) <= 1 # 2000000) by (eapply Qle_trans; eauto).
  clear H1 HA1.
  assert (HT : Qabs T <= inject_Z (2 ^ 16)) by (by apply inject_Z_abs_le).
  assert (Hy1 : Qabs y1 <= inject_Z (2 ^ 32) + (1 # 2000000)).
  { apply (Qabs_near y1 x1); [done|]. rewrite Qabs_pos; tauto. }
  unfold fmul.
  destruct (of_Q_near (y1 * T) (2 ^ 49)) as (y & -> & H2 & Hypos); [|lia|].
  { eapply Qle_trans; [apply (Qabs_mult_le _ _ _ _ Hy1 HT)|]. numeric. }
  assert (HA2 : inject_Z (2 ^ 49) * 2 ^ (-53) + 2 ^ (-1075) <= 1 # 15) by numeric.
  assert (H2' : Qabs (y - y1 * T) <= 1 # 15) by (eapply Qle_trans; eauto).
  clear H2 HA2.
  exists y. split; [done|]. split.
  - assert (E : y - inject_Z c * T / S == (y - y1 * T) + (y1 - x1) * T).
    { unfold x1. field. lra. }
    rewrite E. eapply Qle_trans; [apply Qabs_triangle|].
    pose proof (Qabs_mult_le _ _ _ _ H1' HT) as H3.
    assert (HA3 : (1 # 2000000) * inject_Z (2 ^ 16) <= 1 # 30) by numeric.
    set (e1 := Qabs (y - y1 * T)) in *. set (e2 := Qabs ((y1 - x1) * T)) in *.
    set (k := (1 # 2000000) * inject_Z (2 ^ 16)) in *. lra.
  - intros Hpos. apply Hypos. apply Qmult_le_0_compat.
    + apply Hy1pos. tauto.
    + unfold T. change 0 with (inject_Z 0). by rewrite <- Zle_Qle.
Qed.

(** The bounds of the loop are integers, each within an eighth of the
    exact product before [Math.ceil] and [Math.floor]. *)
Lemma index_range (samples : list Q) (sampleRate : positive)
    (targetRate winMs startSample : Z) :
  (len samples <= 2 ^ 31)%Z -> (Z.pos sampleRate <= 2 ^ 53)%Z ->
  (Z.abs winMs <= 2 ^ 53)%Z -> (Z.abs startSample <= 2 ^ 53)%Z ->
  (Z.abs targetRate <= 2 ^ 16)%Z ->
  exists (F W cs : Z) (y0 y1 : Q),
    Math_floor (fmul (fdiv (of_Z winMs) (Fin 1000)) (of_Z (Z.pos sampleRate)))
      = int F /\
    W = Z.max 256 (Z.min (len samples) F) /\
    cs = Z.max 0 (Z.min startSample (Z.max 0 (len samples - W))) /\
    fmul (fdiv (int cs) (of_Z (Z.pos sampleRate))) (of_Z targetRate) = Fin y0 /\
    fmul (fdiv (int (cs + W)) (of_Z (Z.pos sampleRate))) (of_Z targetRate)
      = Fin y1 /\
    windowSamples samples sampleRate winMs = int W /\
    clampedStart samples sampleRate winMs startSample = int cs /\
    endSample samples sampleRate winMs startSample = int (cs + W) /\
    (256 <= W <= Z.max 256 (len samples))%Z /\
    iStart samples sampleRate winMs startSample targetRate = int (Qceiling y0) /\
    iEnd samples sampleRate winMs startSample targetRate = int (Qfloor y1) /\
    Qabs (y0 - inject_Z cs * inject_Z targetRate / inject_Z (Z.pos sampleRate))
      <= 1 # 8 /\
    Qabs (y1 - inject_Z (cs + W) * inject_Z targetRate / inject_Z (Z.pos sampleRate))
      <= 1 # 8 /\
    ((0 <= targetRate)%Z -> 0 <= y0 /\ 0 <= y1).
Proof.
  intros HL Hsr Hw Hs Htr. pose proof (len_nonneg samples) as HL0.
  destruct (window_state samples sampleRate winMs startSample)
    as (F & W & cs & HF & HWd & HW & Hcs & Hes & HWb & Hcsd); [lia|lia|lia|lia|].
  destruct (scaled_time cs sampleRate targetRate) as (y0 & E0 & H0 & P0);
    [lia|lia|lia|].
  destruct (scaled_time (cs + W) sampleRate targetRate) as (y1 & E1 & H1 & P1);
    [lia|lia|lia|].
  exists F, W, cs, y0, y1.
  split; [done|]. split; [done|]. split; [done|]. split; [done|]. split; [done|].
  split; [done|]. split; [done|]. split; [done|]. split; [done|].
  split; [|split; [|split; [done|split; [done|]]]].
  - unfold iStart, startTime. by rewrite Hcs, E0.
  - unfold iEnd, endTimeSec. by rewrite Hes, E1.
  - intros Hpos. split; auto.
Qed.

(** *** One output point *)

Ltac push_inject :=
  unfold Z.sub;
  repeat (rewrite inject_Z_plus || rewrite inject_Z_mult || rewrite inject_Z_opp).

(** [Math.round] of the rounded quotient [p / targetRate] is that of the
    exact quotient: a quotient that is no half-integer is further from
    the next one than the rounding moves it. *)
Lemma round_quotient (p targetRate : Z) :
  (0 <= p)%Z -> (1 <= targetRate <= 2 ^ 16)%Z -> (p <= 2 ^ 32 * targetRate)%Z ->
  exists y, of_Q (inject_Z p / inject_Z targetRate) = Fin y /\
    Qfloor (y + (1 # 2)) = Sampling.js_round (inject_Z p / inject_Z targetRate).
Proof.
  intros Hp Htr Hb. unfold Sampling.js_round.
  set (P := inject_Z p). set (T := inject_Z targetRate). set (x := P / T).
  assert (HT : 1 <= T <= inject_Z (2 ^ 16)).
  { unfold T. change 1 with (inject_Z 1). rewrite <- !Zle_Qle. lia. }
  assert (HP : 0 <= P <= inject_Z (2 ^ 32) * T).
  { unfold P, T. rewrite <- inject_Z_mult. change 0 with (inject_Z 0).
    rewrite <- !Zle_Qle. lia. }
  assert (Hx : 0 <= x <= inject_Z (2 ^ 32)).
  { unfold x. split.
    - apply Qle_shift_div_l; lra.
    - apply Qle_shift_div_r; lra. }
  destruct (of_Q_small x (2 ^ 32)) as (y & Hy & E & _); [|lia|].
  { rewrite Qabs_pos; tauto. }
  exists y. split; [done|].
  set (k := Qfloor (x + (1 # 2))).
  pose proof (Qfloor_le (x + (1 # 2))) as Hlo.
  pose proof (Qlt_floor (x + (1 # 2))) as Hhi. fold k in Hlo, Hhi.
  set (N := (2 * p + targetRate - 2 * k * targetRate)%Z).
  assert (EN : x + (1 # 2) - inject_Z k == inject_Z N / (2 * T)).
  { unfold N, x, P. push_inject. fold T. change (inject_Z 2) with 2. field. lra. }
  assert (HN : (0 <= N < 2 * targetRate)%Z).
  { assert (H1 : 0 <= inject_Z N / (2 * T)) by (rewrite <- EN; lra).
    assert (H2 : inject_Z N / (2 * T) < 1).
    { rewrite <- EN. rewrite inject_Z_plus in Hhi. change (inject_Z 1) with 1 in Hhi.
      lra. }
    assert (H3 : 0 <= inject_Z N).
    { assert (E3 : inject_Z N == inject_Z N / (2 * T) * (2 * T)) by (field; lra).
      rewrite E3. apply Qmult_le_0_compat; lra. }
    assert (H4 : inject_Z N < 2 * T).
    { apply Qlt_shift_div_r in H2 || idtac.
      assert (E3 : inject_Z N == inject_Z N / (2 * T) * (2 * T)) by (field; lra).
      rewrite E3. set (d := inject_Z N / (2 * T)) in *.
      assert (0 < (1 - d) * (2 * T)) by (apply Qmult_lt_0_compat; lra). lra. }
    change 0 with (inject_Z 0) in H3. rewrite <- Zle_Qle in H3.
    unfold T in H4. change 2 with (inject_Z 2) in H4.
    rewrite <- inject_Z_mult, <- Zlt_Qlt in H4. lia. }
  destruct (Z.eq_dec N 0%Z) as [HN0|HN0].
  - (* a half-integer is a double *)
    assert (Ex : x == inject_Z (2 * k - 1) * 2 ^ (-1)).
    { rewrite HN0 in EN. push_inject. change (inject_Z 2) with 2.
      change (inject_Z 1) with 1.
      assert (E2 : 2 ^ (-1) == 1 # 2) by reflexivity. rewrite E2.
      assert (E0 : inject_Z 0 / (2 * T) == 0) by (field; lra).
      rewrite E0 in EN. clear -EN. clearbody x k. lra. }
    assert (Hk : (0 <= k <= 2 ^ 32 + 1)%Z).
    { unfold k. apply SamplingFacts.Qfloor_between.
      - change (inject_Z 0) with 0. lra.
      - push_inject. change (inject_Z 1) with 1.
        assert (inject_Z (2 ^ 32) = 4294967296) as Hc by reflexivity.
        rewrite Hc in *. lra. }
    apply Qfloor_comp. rewrite E, round64_exact.
    + by rewrite Qred_correct.
    + exists (2 * k - 1)%Z, (-1)%Z. split; [lia|]. split; [lia|done].
  - assert (Hgap : (1 # 131072) <= x + (1 # 2) - inject_Z k
                   /\ x + (1 # 2) - inject_Z k <= 1 - (1 # 131072)).
    { rewrite EN.
      assert (H1 : 1 <= inject_Z N).
      { change 1 with (inject_Z 1). rewrite <- Zle_Qle. lia. }
      assert (H2 : inject_Z N <= 2 * T - 1).
      { unfold T. change 2 with (inject_Z 2). change 1 with (inject_Z 1).
        rewrite <- inject_Z_mult, <- inject_Z_opp, <- inject_Z_plus || idtac.
        unfold Qminus. rewrite <- inject_Z_mult, <- inject_Z_opp, <- inject_Z_plus.
        rewrite <- Zle_Qle. lia. }
      assert (Hc : inject_Z (2 ^ 16) = 65536) by reflexivity. rewrite Hc in HT.
      split.
      - apply Qle_shift_div_l; lra.
      - apply Qle_shift_div_r; lra. }
    assert (Herr : Qabs (y - x) <= 1 # 2000000).
    { rewrite E. eapply Qle_trans; [apply round64_error|].
      assert (HA : inject_Z (2 ^ 32) * 2 ^ (-53) + 2 ^ (-1075) <= 1 # 2000000)
        by numeric.
      eapply Qle_trans; [|exact HA]. apply Qplus_le_l.
      apply Qmult_le_compat_r; [|apply Qlt_le_weak, pow2_pos].
      rewrite Qabs_pos; tauto. }
    apply Qabs_Qle_condition in Herr.
    assert (Hk : (k <= Qfloor (y + (1 # 2)) <= k)%Z); [|lia].
    apply SamplingFacts.Qfloor_between.
    + lra.
    + rewrite inject_Z_plus. change (inject_Z 1) with 1. lra.
Qed.

(** Reading a cell of the buffer. *)
Lemma read_cell (samples : list Q) (k : Z) (s : Q) :
  (0 <= k)%Z -> samples !! Z.to_nat k = Some s -> read samples (int k) = Fin s.
Proof.
  intros Hk Hs. unfold read. rewrite Qfloor_Z.
  rewrite (proj2 (Qeq_bool_iff _ _) (Qeq_refl _)).
  unfold aget_opt. rewrite (proj2 (Z.ltb_ge k 0)) by lia. by rewrite Hs.
Qed.

(** [Math.max(-1, Math.min(1, s))] *)
Lemma clamp_number (s : Q) :
  exists v', Math_max (Fin (-1)) (Math_min (Fin 1) (Fin s)) = Fin v' /\
    v' == Qmax (-1) (Qmin 1 s) /\ (v' = s \/ v' = 1 \/ v' = -1) /\ -1 <= v' <= 1.
Proof.
  unfold Math_min, Math_max, fle.
  destruct (Qle_bool 1 s) eqn:E1.
  - apply Qle_bool_iff in E1. change (Qle_bool (-1) 1) with true. cbv iota.
    exists 1. split; [done|]. split.
    + rewrite (Q.min_l 1 s) by done. by rewrite Q.max_r.
    + split; [tauto|]. split; discriminate.
  - assert (H1 : s < 1).
    { apply Qnot_le_lt. intros H. apply Qle_bool_iff in H. congruence. }
    destruct (Qle_bool (-1) s) eqn:E2.
    + apply Qle_bool_iff in E2. exists s. split; [done|]. split.
      * rewrite (Q.min_r 1 s) by lra. by rewrite Q.max_r.
      * split; [tauto|]. lra.
    + assert (H2 : s < -1).
      { apply Qnot_le_lt. intros H. apply Qle_bool_iff in H. congruence. }
      exists (-1). split; [done|]. split.
      * rewrite (Q.min_r 1 s) by lra. rewrite Q.max_l by lra. reflexivity.
      * split; [tauto|]. split; [lra|discriminate].
Qed.

Lemma is_float32_unit : is_float32 1 /\ is_float32 (-1).
Proof.
  split; (split; [|reflexivity]).
  - exists 1%Z, 0%Z. split; [lia|]. split; [lia|reflexivity].
  - exists (-1)%Z, 0%Z. split; [lia|]. split; [lia|reflexivity].
Qed.

(** The product of a sample by a code range below [2^29] fits the 53
    bits of a double. *)
Lemma product_exact (v' : Q) (M : Z) :
  is_float32 v' -> (Z.abs M < 2 ^ 29)%Z -> is_double (v' * inject_Z M).
Proof.
  intros [(m & k & Hm & Hk & Ev) Hb] HM. split.
  - exists (m * M)%Z, k. split; [|split; [lia|]].
    + rewrite Z.abs_mul. change (2 ^ 53)%Z with (2 ^ 24 * 2 ^ 29)%Z.
      pose proof (Z.abs_nonneg m). pose proof (Z.abs_nonneg M). nia.
    + rewrite Ev, inject_Z_mult. ring.
  - rewrite Qabs_Qmult. apply Qle_lt_trans with (2 ^ 128 * inject_Z (2 ^ 29)).
    + apply Qmult_le_compat_nonneg; split.
      * apply Qabs_nonneg.
      * by apply Qlt_le_weak.
      * apply Qabs_nonneg.
      * apply inject_Z_abs_le. lia.
    + apply Qlt_alt. vm_compute. reflexivity.
Qed.

(** The body of the loop at index [i], for a buffer of binary32 samples,
    a target rate up to [2^16] and up to 30 bits: the source index, the
    clamped amplitude and the code are the exact ones, the time and the
    reconstructed amplitude are the exact quotients rounded once. *)
Lemma quantize_exact (samples : list Q) (sampleRate : positive)
    (targetRate bits i : Z) :
  samples <> [] -> Forall is_float32 samples -> (len samples <= 2 ^ 31)%Z ->
  (Z.pos sampleRate <= 2 ^ 53)%Z ->
  (1 <= targetRate <= 2 ^ 16)%Z -> (2 <= bits <= 30)%Z ->
  (0 <= i)%Z -> (i * Z.pos sampleRate <= 2 ^ 32 * targetRate)%Z ->
  exists (k : Z) (s v' : Q) (c : Z),
    k = Z.min (len samples - 1)
          (Sampling.js_round (inject_Z (i * Z.pos sampleRate) / inject_Z targetRate)) /\
    (0 <= k < len samples)%Z /\
    samples !! Z.to_nat k = Some s /\
    v' == Qmax (-1) (Qmin 1 s) /\
    c = Sampling.js_round (v' * inject_Z (2 ^ (bits - 1) - 1)) /\
    (- (2 ^ (bits - 1) - 1) <= c <= 2 ^ (bits - 1) - 1)%Z /\
    quantize samples sampleRate targetRate (Sampling.maxInt bits) (int i)
    = {| t := of_Q (inject_Z i / inject_Z targetRate);
         srcIdx := int k;
         v := Fin v';
         q := int c;
         vq := of_Q (inject_Z c / inject_Z (2 ^ (bits - 1) - 1)) |}.
Proof.
  intros Hne Hf32 HL Hsr Htr Hbits Hi Hisr.
  pose proof (len_nonneg samples) as HL0.
  assert (HL1 : (1 <= len samples)%Z).
  { destruct samples; [done|]. unfold len. simpl. lia. }
  rewrite SamplingFacts.maxInt_pow2 by lia.
  set (M := (2 ^ (bits - 1) - 1)%Z).
  assert (HM : (1 <= M < 2 ^ 29)%Z).
  { unfold M.
    assert (2 ^ 1 <= 2 ^ (bits - 1))%Z by (apply Z.pow_le_mono_r; lia).
    assert (2 ^ (bits - 1) <= 2 ^ 29)%Z by (apply Z.pow_le_mono_r; lia).
    change (2 ^ 1)%Z with 2%Z in *. lia. }
  destruct (round_quotient (i * Z.pos sampleRate) targetRate) as (y & Hy & Hr);
    [lia|lia|lia|].
  set (r := Sampling.js_round (inject_Z (i * Z.pos sampleRate) / inject_Z targetRate))
    in *.
  assert (Hr0 : (0 <= r)%Z).
  { apply SamplingFacts.js_round_nonneg. apply Qle_shift_div_l.
    - change 0 with (inject_Z 0). rewrite <- Zlt_Qlt. lia.
    - rewrite Qmult_0_l. change 0 with (inject_Z 0). rewrite <- Zle_Qle. lia. }
  set (k := Z.min (len samples - 1) r).
  assert (Hk : (0 <= k < len samples)%Z) by (unfold k; lia).
  destruct (lookup_lt_is_Some_2 samples (Z.to_nat k)) as [s Hs].
  { unfold len in Hk. lia. }
  assert (Hs32 : is_float32 s).
  { by apply (Forall_lookup_1 _ _ _ _ Hf32 Hs). }
  destruct (clamp_number s) as (v' & Hv & Ev & Hcase & Hrange).
  assert (Hv32 : is_float32 v').
  { destruct Hcase as [-> | [-> | ->]]; [done|apply is_float32_unit..]. }
  set (c := Sampling.js_round (v' * inject_Z M)).
  assert (Hc : (- M <= c <= M)%Z).
  { unfold c. apply SamplingFacts.js_round_between.
    - assert (0 <= (v' + 1) * inject_Z M).
      { apply Qmult_le_0_compat; [lra|]. change 0 with (inject_Z 0).
        rewrite <- Zle_Qle. lia. }
      lra.
    - assert (0 <= (1 - v') * inject_Z M).
      { apply Qmult_le_0_compat; [lra|]. change 0 with (inject_Z 0).
        rewrite <- Zle_Qle. lia. }
      lra. }
  exists k, s, v', c.
  split; [done|]. split; [done|]. split; [done|]. split; [done|]. split; [done|].
  split; [lia|].
  unfold quantize.
  assert (Esrc : Math_min (of_Z (len samples - 1))
                   (Math_round (fdiv (fmul (int i) (of_Z (Z.pos sampleRate)))
                                  (of_Z targetRate))) = int k).
  { rewrite !of_Z_exact by lia. rewrite fmul_int by lia.
    rewrite fdiv_by_int by lia. rewrite Hy.
    unfold Math_round, on_finite. rewrite Hr. by rewrite Math_min_int. }
  rewrite Esrc, (read_cell samples k s) by (done || lia). rewrite Hv.
  assert (Eq : Math_round (fmul (Fin v') (of_Z M)) = int c).
  { rewrite of_Z_exact by lia. unfold fmul.
    rewrite (of_Q_exact (v' * inject_Z M)) by (apply product_exact; [done|lia]).
    unfold Math_round, on_finite. f_equal. f_equal. unfold c, Sampling.js_round.
    apply Qfloor_comp. by rewrite Qred_correct. }
  rewrite Eq. rewrite !of_Z_exact by lia. by rewrite !fdiv_by_int by lia.
Qed.

(** *** The trace *)

(** What lies within an eighth of [c * targetRate / sampleRate]. *)
Lemma near_product (c : Z) (sampleRate : positive) (targetRate : Z) (y : Q) :
  (0 <= c <= 2 ^ 31)%Z -> (Z.abs targetRate <= 2 ^ 16)%Z ->
  Qabs (y - inject_Z c * inject_Z targetRate / inject_Z (Z.pos sampleRate))
    <= 1 # 8 ->
  (- 2 ^ 48 <= Qfloor y <= 2 ^ 48)%Z /\ (- 2 ^ 48 <= Qceiling y <= 2 ^ 48)%Z /\
  ((1 <= targetRate)%Z -> (Z.pos sampleRate <= 2 ^ 30)%Z ->
   forall i : Z, (i <= Qfloor y)%Z ->
     (i * Z.pos sampleRate <= 2 ^ 32 * targetRate)%Z).
Proof.
  intros Hc Htr Hy. apply Qabs_Qle_condition in Hy.
  set (S := inject_Z (Z.pos sampleRate)) in *.
  assert (HS : 1 <= S).
  { unfold S. change 1 with (inject_Z 1). rewrite <- Zle_Qle. lia. }
  set (X := inject_Z c * inject_Z targetRate / S) in *.
  assert (EX : X * S == inject_Z (c * targetRate)).
  { unfold X. rewrite inject_Z_mult. field. lra. }
  assert (Hct : (- 2 ^ 47 <= c * targetRate <= 2 ^ 47)%Z) by nia.
  assert (HX : - inject_Z (2 ^ 47) <= X <= inject_Z (2 ^ 47)).
  { assert (H1 : - inject_Z (2 ^ 47) <= inject_Z (c * targetRate) <= inject_Z (2 ^ 47)).
    { rewrite <- inject_Z_opp, <- !Zle_Qle. lia. }
    rewrite <- EX in H1.
    assert (E47 : inject_Z (2 ^ 47) = 140737488355328) by reflexivity.
    rewrite E47 in *.
    destruct (Qlt_le_dec X 0) as [Hn|Hp].
    - assert (0 <= (- X) * (S - 1)) by (apply Qmult_le_0_compat; lra). lra.
    - assert (0 <= X * (S - 1)) by (apply Qmult_le_0_compat; lra). lra. }
  assert (Hyb : inject_Z (- 2 ^ 48) <= y /\ y <= inject_Z (2 ^ 48 - 1)).
  { assert (E47 : inject_Z (2 ^ 47) = 140737488355328) by reflexivity.
    assert (E48 : inject_Z (- 2 ^ 48) = -281474976710656) by reflexivity.
    assert (E49 : inject_Z (2 ^ 48 - 1) = 281474976710655) by reflexivity.
    rewrite E47 in HX. rewrite E48, E49. lra. }
  split; [|split].
  - apply SamplingFacts.Qfloor_between; [tauto|].
    eapply Qle_lt_trans; [apply Hyb|]. rewrite <- Zlt_Qlt. lia.
  - apply SamplingFacts.Qceiling_between; [|].
    + eapply Qlt_le_trans; [|apply Hyb]. rewrite <- Zlt_Qlt. lia.
    + eapply Qle_trans; [apply Hyb|]. rewrite <- Zle_Qle. lia.
  - intros Ht Hsr i Hi.
    assert (Hiy : inject_Z i <= y).
    { eapply Qle_trans; [|apply Qfloor_le]. by rewrite <- Zle_Qle. }
    assert (H1 : inject_Z i * S <= (X + (1 # 8)) * S).
    { apply Qmult_le_compat_r; lra. }
    assert (H2 : inject_Z (i * Z.pos sampleRate)
                 <= inject_Z (c * targetRate) + (1 # 8) * S).
    { rewrite inject_Z_mult. fold S. rewrite <- EX. lra. }
    assert (H3 : S <= inject_Z (2 ^ 30)).
    { unfold S. by rewrite <- Zle_Qle. }
    assert (H4 : inject_Z (c * targetRate) + (1 # 8) * S
                 <= inject_Z (2 ^ 32 * targetRate)).
    { assert (H5 : inject_Z (c * targetRate) + inject_Z (2 ^ 27)
                   <= inject_Z (2 ^ 32 * targetRate)).
      { rewrite <- inject_Z_plus, <- Zle_Qle. nia. }
      assert (E27 : inject_Z (2 ^ 27) = 134217728) by reflexivity.
      assert (E30 : inject_Z (2 ^ 30) = 1073741824) by reflexivity.
      rewrite E27 in H5. rewrite E30 in H3. lra. }
    rewrite Zle_Qle. lra.
Qed.

(** The run of the quantiser for a buffer of at most [2^31] samples and a
    target rate of magnitude at most [2^16].  The view state is made of
    the integers [W] (the window) and [cs] (its start), [F] being what
    [Math.floor] returned; the loop bounds are the integers [a] and [b]
    that [Math.ceil] and [Math.floor] return for the two products, each
    product within an eighth of the exact one; the loop ends, and the
    trace holds the point of every index from [a] to [b], in order. *)
Lemma simulate_run (samples : list Q) (sampleRate : positive)
    (targetRate bits winMs startSample : Z) :
  (len samples <= 2 ^ 31)%Z -> (Z.pos sampleRate <= 2 ^ 30)%Z ->
  (Z.abs winMs <= 2 ^ 53)%Z -> (Z.abs startSample <= 2 ^ 53)%Z ->
  (Z.abs targetRate <= 2 ^ 16)%Z ->
  exists (F W cs a b : Z) (y0 y1 : Q),
    (Math_floor (fmul (fdiv (of_Z winMs) (Fin 1000)) (of_Z (Z.pos sampleRate)))
       = int F /\
     W = Z.max 256 (Z.min (len samples) F) /\
     cs = Z.max 0 (Z.min startSample (Z.max 0 (len samples - W))) /\
     Math_ceil (fmul (fdiv (int cs) (of_Z (Z.pos sampleRate))) (of_Z targetRate))
       = int a /\
     Math_floor (fmul (fdiv (int (cs + W)) (of_Z (Z.pos sampleRate)))
                   (of_Z targetRate))
       = int b) /\
    (windowSamples samples sampleRate winMs = int W /\
     clampedStart samples sampleRate winMs startSample = int cs /\
     endSample samples sampleRate winMs startSample = int (cs + W) /\
     iStart samples sampleRate winMs startSample targetRate = int a /\
     iEnd samples sampleRate winMs startSample targetRate = int b) /\
    (a = Qceiling y0 /\ b = Qfloor y1 /\
     Qabs (y0 - inject_Z cs * inject_Z targetRate / inject_Z (Z.pos sampleRate))
       <= 1 # 8 /\
     Qabs (y1 - inject_Z (cs + W) * inject_Z targetRate
                / inject_Z (Z.pos sampleRate))
       <= 1 # 8) /\
    ((256 <= W <= Z.max 256 (len samples))%Z /\
     (- 2 ^ 48 <= a <= 2 ^ 48)%Z /\ (- 2 ^ 48 <= b <= 2 ^ 48)%Z /\
     ((0 <= targetRate)%Z -> (0 <= a)%Z) /\
     ((1 <= targetRate)%Z ->
      forall i, (i <= b)%Z -> (i * Z.pos sampleRate <= 2 ^ 32 * targetRate)%Z)) /\
    forall fuel : nat, (Z.to_nat (b - a + 1) < fuel)%nat ->
      simulate fuel samples sampleRate targetRate bits winMs startSample
      = Returned
          {| stems := (fun i => quantize samples sampleRate targetRate
                                  (Sampling.maxInt bits) (int i))
                      <$> seqZ a (b - a + 1);
             zoh := zoh_path None
                      ((fun i => quantize samples sampleRate targetRate
                                   (Sampling.maxInt bits) (int i))
                       <$> seqZ a (b - a + 1)) |}.
Proof.
  intros HL Hsr Hw Hs Htr. pose proof (len_nonneg samples) as HL0.
  destruct (index_range samples sampleRate targetRate winMs startSample)
    as (F & W & cs & y0 & y1 & HF & HWd & Hcsd & E0 & E1 & HW & Hcs & Hes & HWb
        & Ha & Hb & H0 & H1 & Hpos); [lia..|].
  destruct (near_product cs sampleRate targetRate y0) as (_ & Hab & _);
    [lia|lia|done|].
  destruct (near_product (cs + W) sampleRate targetRate y1) as (Hbb & _ & Hib);
    [lia|lia|done|].
  exists F, W, cs, (Qceiling y0), (Qfloor y1), y0, y1.
  split; [|split; [done|split; [done|split]]].
  - split; [done|]. split; [done|]. split; [done|]. rewrite E0, E1.
    split; reflexivity.
  - split; [done|]. split; [done|]. split; [done|]. split.
    + intros Ht. destruct (Hpos Ht) as [Hy0 _].
      assert (H : (0 <= Qceiling y0 <= Qceiling y0)%Z); [|lia].
      apply SamplingFacts.Qceiling_between.
      * eapply Qlt_le_trans; [|exact Hy0]. reflexivity.
      * apply Qle_ceiling.
    + intros Ht. by apply Hib.
  - intros fuel Hfuel. unfold simulate. rewrite Ha, Hb.
    rewrite loop_spec by lia. done.
Qed.

Lemma lookup_seqZ_fmap {A : Type} (f : Z -> A) (a n i : Z) :
  (a <= i < a + n)%Z -> (f <$> seqZ a n) !! Z.to_nat (i - a) = Some (f i).
Proof.
  intros Hi. rewrite list_lookup_fmap.
  rewrite (proj2 (lookup_seqZ a n (Z.to_nat (i - a)) i)); [done|]. lia.
Qed.

Lemma len_seqZ_fmap {A : Type} (f : Z -> A) (a n : Z) :
  len (f <$> seqZ a n) = Z.max 0 n.
Proof. unfold len. rewrite length_fmap, length_seqZ. lia. Qed.

Lemma is_float32_dyadic (x : Q) (m k : Z) :
  (Z.abs m < 2 ^ 24)%Z -> (-149 <= k <= 100)%Z -> x == inject_Z m * 2 ^ k ->
  is_float32 x.
Proof.
  intros Hm Hk Ex. split; [exists m, k; split; [done|]; split; [lia|done]|].
  rewrite Ex, Qabs_Qmult, Qabs_inject_Z.
  apply Qle_lt_trans with (inject_Z (2 ^ 24) * 2 ^ 100).
  - apply Qmult_le_compat_nonneg; split.
    + change 0 with (inject_Z 0). rewrite <- Zle_Qle. lia.
    + rewrite <- Zle_Qle. lia.
    + apply Qabs_nonneg.
    + rewrite Qabs_pos by apply Qlt_le_weak, pow2_pos. apply pow2_le. lia.
  - apply Qlt_alt. vm_compute. reflexivity.
Qed.

(** *** The claims *)

(** C4 (counterexample). A 100 ms buffer at 48 kHz whose last sample is
    [1/2], resampled at 8 kHz with 8 bits: the loop runs from index 0 to
    index 800; for index 800 the mapping of the design document,
    [round(800 * 48000 / 8000) = 4800], is past the end of the buffer,
    where there is no amplitude, yet the code outputs code 64, read from
    source index 4799. *)
Lemma simulate_last_index_clamped :
  let samples := replicate 4799 0 ++ [1 # 2] in
  iStart samples 48000 100 0 8000 = int 0 /\
  iEnd samples 48000 100 0 8000 = int 800 /\
  Sampling.srcIdx (Sampling.quantize_spec samples 48000 8000 8 800) = Some 4800%Z /\
  aget_opt samples 4800 = None /\
  Sampling.vq (Sampling.quantize_spec samples 48000 8000 8 800) = None /\
  exists trace p,
    simulate 900 samples 48000 8000 8 100 0 = Returned trace /\
    stems trace !! 800%nat = Some p /\
    srcIdx p = int 4799 /\ v p = Fin (1 # 2) /\ q p = int 64 /\
    vq p = of_Q (64 # 127).
Proof.
  intros samples.
  split; [by vm_compute|]. split; [by vm_compute|]. split; [by vm_compute|].
  split; [by vm_compute|]. split; [by vm_compute|].
  assert (E : exists trace, simulate 900 samples 48000 8000 8 100 0 = Returned trace
              /\ (exists p, stems trace !! 800%nat = Some p /\
                    srcIdx p = int 4799 /\ v p = Fin (1 # 2) /\ q p = int 64 /\
                    vq p = of_Q (64 # 127))).
  { vm_compute. eexists. split; [reflexivity|]. eexists. split; [reflexivity|].
    repeat split. }
  destruct E as (trace & Hrun & p & Hp). eauto.
Qed.

(** From 31 bits on the product [v * maxInt] no longer fits a double: for
    the binary32 sample [8388609 / 2^24] the code is 536870976 where
    [round(v * (2^30 - 1))] is 536870975. *)
Example quantize_31_bits_rounds :
  is_float32 (8388609 # 16777216) /\
  q (quantize [8388609 # 16777216] 48000 48000 (Sampling.maxInt 31) (int 0))
  = int 536870976 /\
  Sampling.js_round ((8388609 # 16777216) * inject_Z (2 ^ 30 - 1)) = 536870975%Z.
Proof.
  split; [|split; by vm_compute].
  apply (is_float32_dyadic _ 8388609 (-24)); [lia|lia|by vm_compute].
Qed.

(** C4 (amended). On a non-empty buffer of binary32 samples (at most
    [2^31] of them), with a target rate from 1 to 65536 Hz and a bit depth
    from 2 to 30, the loop of [SamplingCanvas] ends and computes one point
    for every index [i] from [iStart] to [iEnd], the bounds the code
    computes in doubles.  The point of index [i] reads the source index
    [min(length - 1, round(i * sourceRate / targetRate))] (nearest
    neighbour, bounded by the last sample; no filter), the rounding of
    the quotient in doubles changing nothing; the amplitude read is
    clamped to [-1, 1], quantised to the exact
    [code = round(amplitude * (2^(bits-1) - 1))], and reconstructed as the
    double nearest to [code / (2^(bits-1) - 1)]; its time is the double
    nearest to [i / targetRate]. *)
Theorem simulate_point_mapping (samples : list Q) (sampleRate : positive)
    (targetRate bits winMs startSample : Z) :
  samples <> [] -> Forall is_float32 samples -> (len samples <= 2 ^ 31)%Z ->
  (Z.pos sampleRate <= 2 ^ 30)%Z ->
  (Z.abs winMs <= 2 ^ 53)%Z -> (Z.abs startSample <= 2 ^ 53)%Z ->
  (1 <= targetRate <= 2 ^ 16)%Z -> (2 <= bits <= 30)%Z ->
  let M := (2 ^ (bits - 1) - 1)%Z in
  exists F W cs a b : Z,
    (Math_floor (fmul (fdiv (of_Z winMs) (Fin 1000)) (of_Z (Z.pos sampleRate)))
       = int F /\
     W = Z.max 256 (Z.min (len samples) F) /\
     cs = Z.max 0 (Z.min startSample (Z.max 0 (len samples - W))) /\
     Math_ceil (fmul (fdiv (int cs) (of_Z (Z.pos sampleRate))) (of_Z targetRate))
       = int a /\
     Math_floor (fmul (fdiv (int (cs + W)) (of_Z (Z.pos sampleRate)))
                   (of_Z targetRate))
       = int b) /\
    iStart samples sampleRate winMs startSample targetRate = int a /\
    iEnd samples sampleRate winMs startSample targetRate = int b /\
    forall fuel : nat, (Z.to_nat (b - a + 1) < fuel)%nat ->
      exists trace : QuantizedTrace,
        simulate fuel samples sampleRate targetRate bits winMs startSample
          = Returned trace /\
        len (stems trace) = Z.max 0 (b - a + 1) /\
        forall i : Z, (a <= i <= b)%Z ->
          exists (src : Z) (s amplitude : Q) (code : Z),
            src = Z.min (len samples - 1)
                    (Sampling.js_round
                       (inject_Z (i * Z.pos sampleRate) / inject_Z targetRate)) /\
            (0 <= src < len samples)%Z /\
            samples !! Z.to_nat src = Some s /\
            amplitude == Qmax (-1) (Qmin 1 s) /\
            code = Sampling.js_round (amplitude * inject_Z M) /\
            stems trace !! Z.to_nat (i - a)
            = Some {| t := of_Q (inject_Z i / inject_Z targetRate);
                      srcIdx := int src;
                      v := Fin amplitude;
                      q := int code;
                      vq := of_Q (inject_Z code / inject_Z M) |}.
Proof.
  intros Hne Hf32 HL Hsr Hw Hs Htr Hbits M.
  destruct (simulate_run samples sampleRate targetRate bits winMs startSample)
    as (F & W & cs & a & b & y0 & y1 & Hview & (HW & Hcs & Hes & Ha & Hb)
        & (Eya & Eyb & H0 & H1) & (HWb & Hab & Hbb & Ha0 & Hib) & Hrun); [lia..|].
  exists F, W, cs, a, b. split; [done|]. split; [done|]. split; [done|].
  intros fuel Hfuel. eexists. split; [by apply Hrun|]. cbn [stems].
  split; [apply len_seqZ_fmap|].
  intros i Hi.
  destruct (quantize_exact samples sampleRate targetRate bits i)
    as (k & s & v' & c & Hk & Hkb & Hsk & Hv & Hc & _ & Hq);
    [done|done|done|lia|done|done|lia|apply Hib; lia|].
  exists k, s, v', c. split; [done|]. split; [done|]. split; [done|].
  split; [done|]. split; [done|].
  rewrite lookup_seqZ_fmap by lia. by rewrite Hq.
Qed.

(** The amended C4 on a four-sample buffer at 4 Hz resampled at 2 Hz with
    3 bits. *)
Lemma simulate_point_mapping_witness :
  let samples := [1 # 2; -3 # 4; 2; -2] in
  let M := (2 ^ (3 - 1) - 1)%Z in
  exists F W cs a b : Z,
    (Math_floor (fmul (fdiv (of_Z 100) (Fin 1000)) (of_Z (Z.pos 4))) = int F /\
     W = Z.max 256 (Z.min (len samples) F) /\
     cs = Z.max 0 (Z.min 0 (Z.max 0 (len samples - W))) /\
     Math_ceil (fmul (fdiv (int cs) (of_Z (Z.pos 4))) (of_Z 2)) = int a /\
     Math_floor (fmul (fdiv (int (cs + W)) (of_Z (Z.pos 4))) (of_Z 2)) = int b) /\
    iStart samples 4 100 0 2 = int a /\
    iEnd samples 4 100 0 2 = int b /\
    forall fuel : nat, (Z.to_nat (b - a + 1) < fuel)%nat ->
      exists trace : QuantizedTrace,
        simulate fuel samples 4 2 3 100 0 = Returned trace /\
        len (stems trace) = Z.max 0 (b - a + 1) /\
        forall i : Z, (a <= i <= b)%Z ->
          exists (src : Z) (s amplitude : Q) (code : Z),
            src = Z.min (len samples - 1)
                    (Sampling.js_round (inject_Z (i * Z.pos 4) / inject_Z 2)) /\
            (0 <= src < len samples)%Z /\
            samples !! Z.to_nat src = Some s /\
            amplitude == Qmax (-1) (Qmin 1 s) /\
            code = Sampling.js_round (amplitude * inject_Z M) /\
            stems trace !! Z.to_nat (i - a)
            = Some {| t := of_Q (inject_Z i / inject_Z 2);
                      srcIdx := int src;
                      v := Fin amplitude;
                      q := int code;
                      vq := of_Q (inject_Z code / inject_Z M) |}.
Proof.
  apply (simulate_point_mapping [1 # 2; -3 # 4; 2; -2] 4 2 3 100 0).
  - discriminate.
  - repeat constructor.
    + apply (is_float32_dyadic _ 1 (-1)); [lia|lia|by vm_compute].
    + apply (is_float32_dyadic _ (-3) (-2)); [lia|lia|by vm_compute].
    + apply (is_float32_dyadic _ 2 0); [lia|lia|by vm_compute].
    + apply (is_float32_dyadic _ (-2) 0); [lia|lia|by vm_compute].
  - vm_compute. discriminate.
  - lia.
  - lia.
  - lia.
  - lia.
  - lia.
Defined.

(** A counter that has reached [2^53] no longer grows: a loop whose last
    index is above [2^53] never ends. *)
Lemma loop_never_ends (body : number -> point) (first last : Z) (fuel : nat) :
  (0 <= first <= 2 ^ 53)%Z -> (2 ^ 53 < last)%Z ->
  loop fuel (int first) (int last) body = OutOfFuel.
Proof.
  intros Hfirst Hlast. unfold loop.
  assert (H : forall (i : Z) (ps : list point), (0 <= i <= 2 ^ 53)%Z ->
            while fuel (fun '(i, _) => fle i (int last))
              (fun '(i, ps) => Returned (fadd i (Fin 1), ps ++ [body i]))
              (int i, ps) = OutOfFuel).
  { induction fuel as [|fuel IH]; intros i ps Hi; cbn [while]; [done|].
    rewrite fle_int, (proj2 (Z.leb_le i last)) by lia.
    cbn [mbind result_bind bind].
    destruct (Z.eq_dec i (2 ^ 53)%Z) as [->|Hne].
    - change (fadd (int (2 ^ 53)) (Fin 1)) with (int (2 ^ 53)).
      apply IH. lia.
    - change (Fin 1) with (int 1). rewrite fadd_int by lia. apply IH. lia. }
  by rewrite H.
Qed.

(** With a target rate of [10^19] Hz the last index is [10^18], above
    [2^53], and the loop of the quantiser never ends. *)
Example simulate_huge_rate_never_returns :
  let samples := replicate 4800 0 in
  iStart samples 48000 100 0 (10 ^ 19) = int 0 /\
  iEnd samples 48000 100 0 (10 ^ 19) = int (10 ^ 18) /\
  forall fuel : nat, simulate fuel samples 48000 (10 ^ 19) 8 100 0 = OutOfFuel.
Proof.
  intros samples.
  assert (Ha : iStart samples 48000 100 0 (10 ^ 19) = int 0) by (by vm_compute).
  assert (Hb : iEnd samples 48000 100 0 (10 ^ 19) = int (10 ^ 18)) by (by vm_compute).
  split; [done|]. split; [done|].
  intros fuel. unfold simulate. rewrite Ha, Hb.
  rewrite loop_never_ends by lia. done.
Qed.

(** C8 (counterexample). With [bits = 25], outside [2, 24], [simulate]
    returns a trace of 43 samples; with [target_rate = 0] it returns a
    trace too (of one sample, whose fields are NaN), and with a negative
    rate an empty one. *)
Lemma simulate_out_of_range_returns :
  ~ (2 <= 25 <= 24)%Z /\
  (exists trace, simulate 100 [1 # 2] 48000 8000 25 10 0 = Returned trace
                 /\ length (stems trace) = 43%nat) /\
  (0 <= 0)%Z /\
  (exists trace, simulate 100 [1 # 2] 48000 0 8 10 0 = Returned trace
                 /\ stems trace
                    = [{| t := NaN; srcIdx := NaN; v := NaN; q := NaN;
                          vq := NaN |}]) /\
  (-8000 <= 0)%Z /\
  (exists trace, simulate 100 [1 # 2] 48000 (-8000) 8 10 0 = Returned trace
                 /\ stems trace = []).
Proof.
  split; [lia|]. split; [|split; [lia|split; [|split; [lia|]]]].
  - vm_compute. eexists. split; reflexivity.
  - vm_compute. eexists. split; reflexivity.
  - vm_compute. eexists. split; reflexivity.
Qed.

(** C8 (amended). [simulate] checks no parameter: no run of it raises,
    [InvalidParameters] or anything else, whatever [bits] and
    [target_rate] are.  For a buffer of at most [2^31] samples and a
    target rate of magnitude up to 65536, zero and the negative rates
    included, and for every [bits], it returns a trace.  For [bits] in
    [2, 24], a target rate from 1 to 65536 and a non-empty buffer of
    binary32 samples, every time, source index, amplitude and code of the
    trace is a finite number. *)
Theorem simulate_no_parameter_check (samples : list Q) (sampleRate : positive)
    (targetRate bits winMs startSample : Z) :
  (forall (fuel : nat) (e : error),
     simulate fuel samples sampleRate targetRate bits winMs startSample
     <> Thrown e) /\
  ((len samples <= 2 ^ 31)%Z -> (Z.pos sampleRate <= 2 ^ 30)%Z ->
   (Z.abs winMs <= 2 ^ 53)%Z -> (Z.abs startSample <= 2 ^ 53)%Z ->
   (Z.abs targetRate <= 2 ^ 16)%Z ->
   exists (n : nat) (trace : QuantizedTrace),
     (forall fuel : nat, (n < fuel)%nat ->
        simulate fuel samples sampleRate targetRate bits winMs startSample
        = Returned trace) /\
     (samples <> [] -> Forall is_float32 samples ->
      (1 <= targetRate)%Z -> (2 <= bits <= 24)%Z ->
      Forall
        (fun p => exists (time : Q) (src : Z) (amplitude : Q) (code : Z)
                         (level : Q),
           t p = Fin time /\ srcIdx p = int src /\ v p = Fin amplitude /\
           q p = int code /\ vq p = Fin level)
        (stems trace))).
Proof.
  split; [intros fuel e; apply simulate_not_thrown|].
  intros HL Hsr Hw Hs Htr.
  destruct (simulate_run samples sampleRate targetRate bits winMs startSample)
    as (F & W & cs & a & b & y0 & y1 & _ & _ & _ & (_ & Hab & Hbb & Ha0 & Hib)
        & Hrun); [lia..|].
  eexists _, _. split; [exact Hrun|]. cbn [stems].
  intros Hne Hf32 Ht Hbits. apply Forall_fmap, Forall_forall.
  intros i Hi. apply elem_of_seqZ in Hi.
  destruct (quantize_exact samples sampleRate targetRate bits i)
    as (k & s & v' & c & Hk & Hkb & Hsk & Hv & Hc & Hcb & Hq);
    [done|done|done|lia|lia|lia|lia|apply Hib; lia|].
  cbn [compose]. rewrite Hq. cbn [t srcIdx v q vq].
  assert (HM : (1 <= 2 ^ (bits - 1) - 1)%Z).
  { assert (2 ^ 1 <= 2 ^ (bits - 1))%Z by (apply Z.pow_le_mono_r; lia).
    change (2 ^ 1)%Z with 2%Z in *. lia. }
  destruct (of_Q_small (inject_Z i / inject_Z targetRate) (2 ^ 49))
    as (time & Htime & _); [|lia|].
  { assert (H1 : 1 <= inject_Z targetRate).
    { change 1 with (inject_Z 1). rewrite <- Zle_Qle. lia. }
    assert (H2 : 0 <= inject_Z i <= inject_Z (2 ^ 49)).
    { change 0 with (inject_Z 0). rewrite <- !Zle_Qle. lia. }
    rewrite Qabs_pos.
    - apply Qle_shift_div_r; [lra|].
      assert (0 <= inject_Z (2 ^ 49) * (inject_Z targetRate - 1)).
      { apply Qmult_le_0_compat; lra. }
      lra.
    - apply Qle_shift_div_l; lra. }
  destruct (of_Q_small (inject_Z c / inject_Z (2 ^ (bits - 1) - 1)) 1)
    as (level & Hlevel & _); [|lia|].
  { set (M := (2 ^ (bits - 1) - 1)%Z) in *.
    assert (H1 : 1 <= inject_Z M).
    { change 1 with (inject_Z 1). rewrite <- Zle_Qle. lia. }
    assert (H2 : - inject_Z M <= inject_Z c <= inject_Z M).
    { rewrite <- inject_Z_opp, <- !Zle_Qle. lia. }
    apply Qabs_Qle_condition. change (inject_Z 1) with 1. split.
    - apply Qle_shift_div_l; lra.
    - apply Qle_shift_div_r; lra. }
  exists time, k, v', c, level. by rewrite Htime, Hlevel.
Qed.

(** The amended C8 at 8 bits and 8 kHz. *)
Lemma simulate_no_parameter_check_witness :
  (forall (fuel : nat) (e : error),
     simulate fuel [1 # 2] 48000 8000 8 10 0 <> Thrown e) /\
  exists (n : nat) (trace : QuantizedTrace),
    (forall fuel : nat, (n < fuel)%nat ->
       simulate fuel [1 # 2] 48000 8000 8 10 0 = Returned trace) /\
    Forall
      (fun p => exists (time : Q) (src : Z) (amplitude : Q) (code : Z)
                       (level : Q),
         t p = Fin time /\ srcIdx p = int src /\ v p = Fin amplitude /\
         q p = int code /\ vq p = Fin level)
      (stems trace).
Proof.
  destruct (simulate_no_parameter_check [1 # 2] 48000 8000 8 10 0) as [Hno Hret].
  split; [exact Hno|].
  destruct Hret as (n & trace & Hrun & Hfin).
  - vm_compute. discriminate.
  - vm_compute. discriminate.
  - lia.
  - lia.
  - lia.
  - exists n, trace. split; [exact Hrun|]. apply Hfin.
    + discriminate.
    + repeat constructor. apply (is_float32_dyadic _ 1 (-1)); [lia|lia|by vm_compute].
    + lia.
    + lia.
Defined.

(** C9 (counterexample). A 100 ms buffer at 48 kHz, viewed whole
    ([winMs = 100] from sample 0), at 8000 Hz and 8 bits: the window is
    4800 samples, exactly 100 ms, and the trace has 801 points, for the
    loop visits both ends [i = 0] and [i = 800].  At 16 kHz, the window
    of 1600 samples that starts at sample 256004 gives 799 points: both
    ends are on the grid, at 128002 and 128802, and the rounded products
    fall inside, so the loop runs from 128003 to 128801. *)
Lemma simulate_100ms_801_points :
  (let samples := replicate 4800 0 in
   windowSamples samples 48000 100 = int 4800 /\
   iStart samples 48000 100 0 8000 = int 0 /\
   iEnd samples 48000 100 0 8000 = int 800 /\
   exists trace, simulate 900 samples 48000 8000 8 100 0 = Returned trace
                 /\ length (stems trace) = 801%nat) /\
  (let samples := replicate (Z.to_nat 260000) 0 in
   windowSamples samples 16000 100 = int 1600 /\
   clampedStart samples 16000 100 256004 = int 256004 /\
   iStart samples 16000 100 256004 8000 = int 128003 /\
   iEnd samples 16000 100 256004 8000 = int 128801 /\
   exists trace, simulate 900 samples 16000 8000 8 100 256004 = Returned trace
                 /\ length (stems trace) = 799%nat).
Proof.
  split.
  - intros samples.
    split; [by vm_compute|]. split; [by vm_compute|]. split; [by vm_compute|].
    vm_compute. eexists. split; reflexivity.
  - intros samples.
    assert (Ha : iStart samples 16000 100 256004 8000 = int 128003) by (by vm_compute).
    assert (Hb : iEnd samples 16000 100 256004 8000 = int 128801) by (by vm_compute).
    split; [by vm_compute|]. split; [by vm_compute|]. split; [done|]. split; [done|].
    eexists. split.
    + unfold simulate. rewrite Ha, Hb, loop_spec by lia. reflexivity.
    + cbn [stems]. rewrite length_fmap, length_seqZ. lia.
Qed.

(** C9 (amended). For every non-empty buffer of binary32 samples (at
    most [2^31] of them) and every window exactly 100 ms long, that is of
    [sampleRate / 10] samples, [simulate] at 8000 Hz and 8 bits produces
    one point for every index from [iStart] to [iEnd], both ends
    included: 799, 800 or 801 points, the rounded products that give the
    two bounds falling on either side of the grid points at the ends of
    the window.  Every output code is one of the 255 integers from -127
    to 127, and the amplitude is the double nearest to [code / 127]. *)
Theorem simulate_100ms_points (samples : list Q) (sampleRate : positive)
    (winMs startSample W : Z) :
  samples <> [] -> Forall is_float32 samples -> (len samples <= 2 ^ 31)%Z ->
  (Z.pos sampleRate <= 2 ^ 30)%Z ->
  (Z.abs winMs <= 2 ^ 53)%Z -> (Z.abs startSample <= 2 ^ 53)%Z ->
  windowSamples samples sampleRate winMs = int W ->
  (10 * W = Z.pos sampleRate)%Z ->
  exists F cs a b : Z,
    (Math_floor (fmul (fdiv (of_Z winMs) (Fin 1000)) (of_Z (Z.pos sampleRate)))
       = int F /\
     W = Z.max 256 (Z.min (len samples) F) /\
     cs = Z.max 0 (Z.min startSample (Z.max 0 (len samples - W))) /\
     Math_ceil (fmul (fdiv (int cs) (of_Z (Z.pos sampleRate))) (of_Z 8000))
       = int a /\
     Math_floor (fmul (fdiv (int (cs + W)) (of_Z (Z.pos sampleRate))) (of_Z 8000))
       = int b) /\
    iStart samples sampleRate winMs startSample 8000 = int a /\
    iEnd samples sampleRate winMs startSample 8000 = int b /\
    (799 <= b - a + 1 <= 801)%Z /\
    forall fuel : nat, (Z.to_nat (b - a + 1) < fuel)%nat ->
      exists trace : QuantizedTrace,
        simulate fuel samples sampleRate 8000 8 winMs startSample = Returned trace /\
        len (stems trace) = (b - a + 1)%Z /\
        Forall
          (fun p => exists k : Z,
             (-127 <= k <= 127)%Z /\ q p = int k /\
             vq p = of_Q (inject_Z k / 127))
          (stems trace).
Proof.
  intros Hne Hf32 HL Hsr Hw Hs HWin H100.
  destruct (simulate_run samples sampleRate 8000 8 winMs startSample)
    as (F & W' & cs & a & b & y0 & y1 & Hview & (HW & Hcs & Hes & Ha & Hb)
        & (Eya & Eyb & H0 & H1) & (HWb & Hab & Hbb & Ha0 & Hib) & Hrun); [lia..|].
  assert (W' = W) as ->.
  { rewrite HWin in HW. by injection HW. }
  assert (Hcount : (799 <= b - a + 1 <= 801)%Z).
  { apply Qabs_Qle_condition in H0. apply Qabs_Qle_condition in H1.
    set (S := inject_Z (Z.pos sampleRate)) in *.
    assert (ES : S == 10 * inject_Z W).
    { unfold S. rewrite <- H100, inject_Z_mult. reflexivity. }
    assert (HWp : 256 <= inject_Z W).
    { change 256 with (inject_Z 256). rewrite <- Zle_Qle. lia. }
    assert (E : inject_Z (cs + W) * inject_Z 8000 / S
                == inject_Z cs * inject_Z 8000 / S + 800).
    { rewrite inject_Z_plus. change (inject_Z 8000) with 8000.
      rewrite ES. field. lra. }
    rewrite E in H1. set (x0 := inject_Z cs * inject_Z 8000 / S) in *.
    pose proof (Qle_ceiling y0) as Ha1. pose proof (Qceiling_lt y0) as Ha2.
    pose proof (Qfloor_le y1) as Hb1. pose proof (Qlt_floor y1) as Hb2.
    rewrite <- Eya in Ha1, Ha2. rewrite <- Eyb in Hb1, Hb2.
    unfold Z.sub in Ha2. rewrite inject_Z_plus, inject_Z_opp in Ha2.
    rewrite inject_Z_plus in Hb2. change (inject_Z 1) with 1 in *.
    assert (Hup : inject_Z (b - a) < inject_Z 801).
    { unfold Z.sub. rewrite inject_Z_plus, inject_Z_opp.
      change (inject_Z 801) with 801. lra. }
    assert (Hdn : inject_Z 797 < inject_Z (b - a)).
    { unfold Z.sub. rewrite inject_Z_plus, inject_Z_opp.
      change (inject_Z 797) with 797. lra. }
    rewrite <- Zlt_Qlt in Hup, Hdn. lia. }
  exists F, cs, a, b.
  split; [done|]. split; [done|]. split; [done|]. split; [done|].
  intros fuel Hfuel. eexists. split; [by apply Hrun|]. cbn [stems].
  split; [rewrite len_seqZ_fmap; lia|].
  apply Forall_fmap, Forall_forall. intros i Hi. apply elem_of_seqZ in Hi.
  destruct (quantize_exact samples sampleRate 8000 8 i)
    as (k & s & v' & c & Hk & Hkb & Hsk & Hv & Hc & Hcb & Hq);
    [done|done|done|lia|lia|lia|lia|apply Hib; lia|].
  cbn [compose]. rewrite Hq. cbn [q vq].
  change (2 ^ (8 - 1) - 1)%Z with 127%Z in *.
  exists c. split; [lia|]. split; done.
Qed.

(** The amended C9 on the whole of a 100 ms buffer at 48 kHz. *)
Lemma simulate_100ms_points_witness :
  let samples := replicate 4800 (1 # 2) in
  exists F cs a b : Z,
    (Math_floor (fmul (fdiv (of_Z 100) (Fin 1000)) (of_Z (Z.pos 48000))) = int F /\
     4800%Z = Z.max 256 (Z.min (len samples) F) /\
     cs = Z.max 0 (Z.min 0 (Z.max 0 (len samples - 4800))) /\
     Math_ceil (fmul (fdiv (int cs) (of_Z (Z.pos 48000))) (of_Z 8000)) = int a /\
     Math_floor (fmul (fdiv (int (cs + 4800)) (of_Z (Z.pos 48000))) (of_Z 8000))
       = int b) /\
    iStart samples 48000 100 0 8000 = int a /\
    iEnd samples 48000 100 0 8000 = int b /\
    (799 <= b - a + 1 <= 801)%Z /\
    forall fuel : nat, (Z.to_nat (b - a + 1) < fuel)%nat ->
      exists trace : QuantizedTrace,
        simulate fuel samples 48000 8000 8 100 0 = Returned trace /\
        len (stems trace) = (b - a + 1)%Z /\
        Forall
          (fun p => exists k : Z,
             (-127 <= k <= 127)%Z /\ q p = int k /\
             vq p = of_Q (inject_Z k / 127))
          (stems trace).
Proof.
  apply (simulate_100ms_points (replicate 4800 (1 # 2)) 48000 100 0 4800).
  - discriminate.
  - apply Forall_replicate.
    apply (is_float32_dyadic _ 1 (-1)); [lia|lia|by vm_compute].
  - vm_compute. discriminate.
  - vm_compute. discriminate.
  - lia.
  - lia.
  - by vm_compute.
  - reflexivity.
Defined.

End SamplingDoubleFacts.

(** * Further properties of the code *)

(** ** Capture: settling of the promise *)

Module CaptureMore.
Import JS JSFacts Double DoubleFacts Capture CaptureFacts.

Section Settling.
Context {sample : Type} (zero : sample).
Implicit Types (msgs : list (list sample)) (events : list (@event sample)).

Lemma deliver_app (target : number) (rate : Q) events events' :
  forall st : session,
    deliver zero target rate st (events ++ events')
    = (st' ← deliver zero target rate st events;
       deliver zero target rate st' events').
Proof.
  induction events as [|e rest IH]; intros st; simpl; [done|].
  destruct (listening st) eqn:Hl.
  - destruct (match e with
              | Message chunk => onMsg zero target rate st chunk
              | MessageError => Returned (onError st)
              end) as [st1| |]; simpl; [apply IH|done|done].
  - simpl. by rewrite deliver_not_listening.
Qed.

(** With a target that is a whole number, an infinity or NaN, and that
    the empty stream does not reach, the promise depends on the samples
    received only, not on their chunks. *)
Lemma deliver_chunking (target : number) (rate : Q) msgs msgs' :
  (forall x, target = Fin x -> x = inject_Z (Qceiling x)) ->
  reached target 0 = false ->
  concat msgs = concat msgs' ->
  (st ← deliver zero target rate start (Message <$> msgs); Returned (done st))
  = (st ← deliver zero target rate start (Message <$> msgs'); Returned (done st)).
Proof.
  intros Hint H0 Heq.
  destruct (reached target (len (concat msgs))) eqn:Hr.
  - destruct target as [x| | |]; try done.
    rewrite (Hint x eq_refl) in *. rewrite reached_frames in H0, Hr.
    destruct (record_resolved zero (Qceiling x) rate msgs) as (st & -> & _ & Hd);
      [lia|lia|].
    destruct (record_resolved zero (Qceiling x) rate msgs') as (st' & -> & _ & Hd');
      [lia|rewrite <- Heq; lia|].
    simpl. by rewrite Hd, Hd', Heq.
  - destruct (deliver_pending zero target rate msgs start eq_refl eq_refl)
      as (st & -> & Hd & _); [done|].
    destruct (deliver_pending zero target rate msgs' start eq_refl eq_refl)
      as (st' & -> & Hd' & _); [simpl; by rewrite <- Heq|].
    simpl. by rewrite Hd, Hd'.
Qed.

End Settling.

(** For a duration and a rate up to [2^20] whose product is at least 1,
    the frame count is a positive integer within one of
    [ceil(durationSec * sampleRate)]. *)
Lemma targetFrames_near (d r : Q) :
  (0 < d <= inject_Z (2 ^ 20))%Q -> (0 < r <= inject_Z (2 ^ 20))%Q ->
  (1 <= d * r)%Q ->
  exists target : Z,
    targetFrames d r = Fin (inject_Z target) /\ 1 <= target /\
    Qceiling (d * r) - 1 <= target <= Qceiling (d * r) + 1.
Proof.
  intros Hd Hr Hdr. unfold targetFrames.
  assert (HA : (inject_Z (2 ^ 20) * 2 ^ (-53) + 2 ^ (-1075) <= 1 # 8000000000)%Q)
    by numeric.
  destruct (of_Q_near d (2 ^ 20)) as (d' & -> & Hd' & Hd0); [|lia|].
  { rewrite Qabs_pos; [tauto|]. apply Qlt_le_weak. tauto. }
  destruct (of_Q_near r (2 ^ 20)) as (r' & -> & Hr' & Hr0); [|lia|].
  { rewrite Qabs_pos; [tauto|]. apply Qlt_le_weak. tauto. }
  assert (Hd1 : (Qabs (d' - d) <= 1 # 8000000000)%Q) by (eapply Qle_trans; eauto).
  assert (Hr1 : (Qabs (r' - r) <= 1 # 8000000000)%Q) by (eapply Qle_trans; eauto).
  clear Hd' Hr' HA.
  assert (E20 : inject_Z (2 ^ 20) = 1048576%Q) by reflexivity. rewrite E20 in *.
  assert (Hda : (Qabs d' <= 1048577)%Q).
  { eapply Qle_trans; [apply (Qabs_near d' d _ 1048576 Hd1)|].
    - rewrite Qabs_pos; [tauto|]. apply Qlt_le_weak. tauto.
    - by vm_compute. }
  assert (Hra : (Qabs r <= 1048576)%Q).
  { rewrite Qabs_pos; [tauto|]. apply Qlt_le_weak. tauto. }
  assert (Hra' : (Qabs r' <= 1048577)%Q).
  { eapply Qle_trans; [apply (Qabs_near r' r _ 1048576 Hr1 Hra)|]. by vm_compute. }
  unfold fmul.
  destruct (of_Q_near (d' * r') (2 ^ 41)) as (y & -> & Hy & _); [|lia|].
  { eapply Qle_trans; [apply (Qabs_mult_le _ _ _ _ Hda Hra')|]. by vm_compute. }
  assert (HB : (inject_Z (2 ^ 41) * 2 ^ (-53) + 2 ^ (-1075) <= 1 # 4000)%Q) by numeric.
  assert (Hy1 : (Qabs (y - d' * r') <= 1 # 4000)%Q) by (eapply Qle_trans; eauto).
  clear Hy HB.
  assert (Hp : (Qabs (d' * r' - d * r) <= 1 # 3000)%Q).
  { assert (E : (d' * r' - d * r == d' * (r' - r) + (d' - d) * r)%Q) by ring.
    rewrite E. eapply Qle_trans; [apply Qabs_triangle|].
    pose proof (Qabs_mult_le _ _ _ _ Hda Hr1) as H1.
    pose proof (Qabs_mult_le _ _ _ _ Hd1 Hra) as H2.
    set (e1 := Qabs (d' * (r' - r))) in *. set (e2 := Qabs ((d' - d) * r)) in *.
    clearbody e1 e2.
    assert (K1 : (1048577 * (1 # 8000000000) <= 1 # 7000)%Q) by (by vm_compute).
    assert (K2 : ((1 # 8000000000) * 1048576 <= 1 # 7000)%Q) by (by vm_compute).
    lra. }
  assert (Hyp : (Qabs (y - d * r) <= 1 # 1000)%Q).
  { assert (E : (y - d * r == (y - d' * r') + (d' * r' - d * r))%Q) by ring.
    rewrite E. eapply Qle_trans; [apply Qabs_triangle|].
    set (e1 := Qabs (y - d' * r')) in *. set (e2 := Qabs (d' * r' - d * r)) in *.
    clearbody e1 e2. lra. }
  apply Qabs_Qle_condition in Hyp.
  exists (Qceiling y). split; [done|].
  pose proof (Qle_ceiling (d * r)) as Hc1. pose proof (Qceiling_lt (d * r)) as Hc2.
  set (C := Qceiling (d * r)) in *. set (P := (d * r)%Q) in *. clearbody P C.
  unfold Z.sub in Hc2. rewrite inject_Z_plus, inject_Z_opp in Hc2.
  change (inject_Z 1) with 1%Q in Hc2.
  assert (H1 : 1 <= Qceiling y <= C + 1).
  { apply SamplingFacts.Qceiling_between.
    - change (inject_Z (1 - 1)) with 0%Q. lra.
    - rewrite inject_Z_plus. change (inject_Z 1) with 1%Q. lra. }
  assert (H2 : C - 1 <= Qceiling y <= C + 1).
  { apply SamplingFacts.Qceiling_between.
    - unfold Z.sub. rewrite !inject_Z_plus, !inject_Z_opp.
      change (inject_Z 1) with 1%Q. lra.
    - rewrite inject_Z_plus. change (inject_Z 1) with 1%Q. lra. }
  lia.
Qed.

(** X1. While the test [collected >= targetFrames] fails for the frames
    received (they are fewer than the target
    [Math.ceil(durationSec * sampleRate)], the product rounded as a double,
    or the target is [Infinity] or NaN), the promise is pending: the
    capture never resolves early. *)
Theorem capture_pending_below_target {sample : Type} (zero : sample)
    (durationSec sampleRate : Q) (msgs : list (list sample)) :
  fle (Math_ceil (fmul (of_Q durationSec) (of_Q sampleRate)))
    (Fin (inject_Z (len (concat msgs)))) = false ->
  record3sPCM zero durationSec sampleRate (Message <$> msgs) = Returned Pending.
Proof.
  intros Hlt. unfold record3sPCM.
  change (reached (targetFrames durationSec sampleRate) (len (concat msgs)) = false)
    in Hlt.
  destruct (deliver_pending zero (targetFrames durationSec sampleRate) sampleRate
              msgs start eq_refl eq_refl) as (st & -> & Hd & _); [done|].
  simpl. by rewrite Hd.
Qed.

(** The 55 samples of 1.1 seconds at 50 Hz: the code asks for 56. *)
Lemma capture_pending_below_target_witness :
  record3sPCM 0 (11 # 10) 50 (Message <$> [replicate 30 1; replicate 25 2])
  = Returned Pending.
Proof.
  apply (capture_pending_below_target 0 (11 # 10) 50
           [replicate 30 1; replicate 25 2]).
  vm_compute. reflexivity.
Defined.

(** X2. A capture settles once: after the chunks that complete the target
    (a positive whole number of frames), whatever the port delivers
    afterwards, further chunks or an error, leaves the resolved buffer
    unchanged. *)
Theorem capture_settles_once {sample : Type} (zero : sample)
    (durationSec sampleRate : Q) (target : Z) (msgs : list (list sample))
    (later : list (@event sample)) :
  Math_ceil (fmul (of_Q durationSec) (of_Q sampleRate)) = Fin (inject_Z target) ->
  0 < target ->
  target <= len (concat msgs) ->
  record3sPCM zero durationSec sampleRate ((Message <$> msgs) ++ later)
  = Returned (Resolved (take (Z.to_nat target) (concat msgs)) sampleRate).
Proof.
  intros Htarget Hpos Htot. unfold record3sPCM, targetFrames. rewrite Htarget.
  destruct (record_resolved zero target sampleRate msgs Hpos Htot)
    as (st & Hrun & Hl & Hdone).
  rewrite deliver_app, Hrun. simpl.
  rewrite deliver_not_listening by done. simpl. by rewrite Hdone.
Qed.

Lemma capture_settles_once_witness :
  record3sPCM 0 (3 # 4) 8
    ((Message <$> [[1; 2; 3]; [4; 5; 6; 7]]) ++ [MessageError; Message [8; 9]])
  = Returned (Resolved (take (Z.to_nat 6) (concat [[1; 2; 3]; [4; 5; 6; 7]])) 8).
Proof.
  apply (capture_settles_once 0 (3 # 4) 8 6 [[1; 2; 3]; [4; 5; 6; 7]]
           [MessageError; Message [8; 9]]).
  - vm_compute. reflexivity.
  - lia.
  - vm_compute. discriminate.
Defined.

(** X3. The outcome of a capture does not depend on how the audio is cut
    into chunks: whenever the target is not already reached with no
    sample at all ([0 >= targetFrames] is false), two streams of chunks
    with the same concatenation leave the promise in the same state,
    resolved with the same buffer when they are long enough. *)
Theorem capture_chunking_independent {sample : Type} (zero : sample)
    (durationSec sampleRate : Q) (msgs msgs' : list (list sample)) :
  fle (Math_ceil (fmul (of_Q durationSec) (of_Q sampleRate))) (Fin 0) = false ->
  concat msgs = concat msgs' ->
  record3sPCM zero durationSec sampleRate (Message <$> msgs)
  = record3sPCM zero durationSec sampleRate (Message <$> msgs').
Proof.
  intros H0 Heq. unfold record3sPCM.
  change (reached (targetFrames durationSec sampleRate) 0 = false) in H0.
  apply deliver_chunking; [|done|done].
  intros x Hx. by apply (targetFrames_integer durationSec sampleRate).
Qed.

Lemma capture_chunking_independent_witness :
  record3sPCM 0 (3 # 4) 8 (Message <$> [[1; 2; 3]; [4; 5; 6; 7]])
  = record3sPCM 0 (3 # 4) 8 (Message <$> [[1]; [2; 3; 4; 5]; []; [6; 7]]).
Proof.
  apply (capture_chunking_independent 0 (3 # 4) 8
           [[1; 2; 3]; [4; 5; 6; 7]] [[1]; [2; 3; 4; 5]; []; [6; 7]]).
  - vm_compute. reflexivity.
  - reflexivity.
Defined.

(** X4. A transfer error that arrives while the test
    [collected >= targetFrames] still fails rejects the promise, and
    nothing that arrives later resolves it. *)
Theorem capture_rejected_on_error {sample : Type} (zero : sample)
    (durationSec sampleRate : Q) (msgs : list (list sample))
    (later : list (@event sample)) :
  fle (Math_ceil (fmul (of_Q durationSec) (of_Q sampleRate)))
    (Fin (inject_Z (len (concat msgs)))) = false ->
  record3sPCM zero durationSec sampleRate
    ((Message <$> msgs) ++ MessageError :: later)
  = Returned Rejected.
Proof.
  intros Hlt. unfold record3sPCM.
  change (reached (targetFrames durationSec sampleRate) (len (concat msgs)) = false)
    in Hlt.
  destruct (deliver_pending zero (targetFrames durationSec sampleRate) sampleRate
              msgs start eq_refl eq_refl) as (st & Hrun & _ & Hl); [done|].
  rewrite deliver_app, Hrun. simpl. rewrite Hl. simpl.
  by rewrite deliver_not_listening.
Qed.

Lemma capture_rejected_on_error_witness :
  record3sPCM 0 (11 # 10) 50
    ((Message <$> [replicate 30 1; replicate 25 2])
     ++ MessageError :: [Message [3; 3; 3]])
  = Returned Rejected.
Proof.
  apply (capture_rejected_on_error 0 (11 # 10) 50
           [replicate 30 1; replicate 25 2] [Message [3; 3; 3]]).
  vm_compute. reflexivity.
Defined.

End CaptureMore.

(** ** More loop rules *)

Module JSMore.
Import JS JSFacts.

(** What a loop returns keeps an invariant of its body. *)
Lemma while_inv {S : Type} (Inv : S -> Prop) (cond : S -> bool)
    (body : S -> result S) :
  (forall s s', Inv s -> cond s = true -> body s = Returned s' -> Inv s') ->
  forall fuel s s', Inv s -> while fuel cond body s = Returned s' -> Inv s'.
Proof.
  intros Hbody fuel. induction fuel as [|f IH]; intros s s' HI; simpl; [done|].
  destruct (cond s) eqn:Hc; [|by intros [= <-]].
  destruct (body s) as [s1| |] eqn:Hb; simpl; [|done|done].
  apply IH. eauto.
Qed.

Lemma for_upM_inv {S : Type} (Inv : S -> Prop) (body : Z -> S -> result S) :
  (forall i s s', Inv s -> body i s = Returned s' -> Inv s') ->
  forall count i s s', Inv s -> for_upM count i body s = Returned s' -> Inv s'.
Proof.
  intros Hbody count. induction count as [|c IH]; intros i s s' HI; simpl.
  - by intros [= <-].
  - destruct (body i s) as [s1| |] eqn:Hb; simpl; [|done|done].
    apply IH. eauto.
Qed.

Lemma bind_returned_inv {A B} (m : result A) (k : A -> result B) (b : B) :
  (m ≫= k) = Returned b -> exists a, m = Returned a /\ k a = Returned b.
Proof. destruct m as [a| |]; cbn; intros H; [eauto|done|done]. Qed.

Section Cells.
Context {A : Type} (zero : A).

(** A cell read after a write holds the value written or its old value. *)
Lemma aget_aset_cases (a : list A) (i j : Z) (x : A) :
  aget zero (aset a i x) j = x \/ aget zero (aset a i x) j = aget zero a j.
Proof.
  destruct (Z.eq_dec i j) as [->|Hne]; [|right; by apply aget_aset_ne].
  destruct (Z_lt_ge_dec j 0) as [Hneg|Hpos].
  { right. unfold aset. destruct (Z.ltb_spec j 0); [done|lia]. }
  destruct (Z_lt_ge_dec j (len a)) as [Hin|Hout].
  - left. apply aget_aset_eq. lia.
  - right. unfold aset. destruct (Z.ltb_spec j 0); [done|].
    rewrite list_insert_ge; [done|]. unfold len in *. lia.
Qed.
End Cells.

End JSMore.

(** ** Spectral analysis: more of [nextPow2], [applyHann], [fftComplex] *)

Module SpectrumMore.
Import JS JSFacts JSMore Spectrum SpectrumFacts.
#[local] Open Scope R_scope.

(** X5. From [2] to [2^30], [nextPow2 n] is the least power of two that is
    at least [n] (half of it is below [n]); in particular it leaves a power
    of two unchanged. *)
Theorem nextPow2_least (n : Z) :
  (2 <= n <= 2 ^ 30)%Z ->
  is_pow2 (nextPow2 n) /\ (nextPow2 n / 2 < n <= nextPow2 n)%Z /\
  nextPow2 (nextPow2 n) = nextPow2 n.
Proof.
  intros Hn. change (2 ^ 30)%Z with 1073741824%Z in Hn.
  assert (Hm : (1 <= n - 1 < 1073741824)%Z) by lia.
  pose proof (Z.log2_spec (n - 1) ltac:(lia)) as [Hlo Hhi].
  pose proof (Z.log2_nonneg (n - 1)) as Hnn.
  assert (Hl29 : (Z.log2 (n - 1) <= 29)%Z).
  { apply Z.lt_succ_r. apply (Z.pow_lt_mono_r_iff 2); [lia|lia|].
    change (2 ^ Z.succ 29)%Z with 1073741824%Z. lia. }
  assert (HN : nextPow2 n = (2 ^ (Z.log2 (n - 1) + 1))%Z).
  { unfold nextPow2. rewrite Z.max_r by lia. rewrite clz32_small by lia.
    replace (32 - (31 - Z.log2 (n - 1)))%Z with (Z.log2 (n - 1) + 1)%Z by lia.
    apply shl_1_pow2. lia. }
  rewrite HN.
  replace (Z.succ (Z.log2 (n - 1))) with (Z.log2 (n - 1) + 1)%Z in Hhi by lia.
  split; [exists (Z.log2 (n - 1) + 1)%Z; split; [lia|done]|].
  split.
  - rewrite Z.pow_add_r in Hhi |- * by lia. change (2 ^ 1)%Z with 2%Z in *.
    rewrite Z.div_mul by lia. lia.
  - apply nextPow2_pow2. lia.
Qed.

Lemma nextPow2_least_witness :
  is_pow2 (nextPow2 1000) /\ (nextPow2 1000 / 2 < 1000 <= nextPow2 1000)%Z /\
  nextPow2 (nextPow2 1000) = nextPow2 1000.
Proof. apply (nextPow2_least 1000). vm_compute. split; discriminate. Defined.

(** *** The Hann window *)

Lemma hann_weight_bounds (n N : Z) : 0 <= hann_weight n N <= 1.
Proof.
  unfold hann_weight.
  pose proof (COS_bound (2 * PI * IZR n / IZR (N - 1))). lra.
Qed.

(** X6. On a segment of at least two samples the Hann window never
    amplifies: every weight lies in [0, 1], so no sample of the windowed
    segment is larger in magnitude than before.  (Over the reals: the
    rounding of floating point is not modelled.) *)
Theorem applyHann_attenuates (x : list R) (n : Z) :
  (2 <= len x)%Z -> (0 <= n < len x)%Z ->
  0 <= hann_weight n (len x) <= 1 /\
  Rabs (applyHann x).[n] <= Rabs x.[n].
Proof.
  intros HN Hn. pose proof (hann_weight_bounds n (len x)) as Hw.
  split; [done|].
  destruct (applyHann_spec x) as [_ Hy]. rewrite Hy by done.
  rewrite Rabs_mult, (Rabs_right (hann_weight _ _)) by lra.
  pose proof (Rabs_pos x.[n]). nra.
Qed.

Lemma applyHann_attenuates_witness :
  0 <= hann_weight 1 (len [1; 2; 3; 4]) <= 1 /\
  Rabs (applyHann [1; 2; 3; 4]).[1] <= Rabs [1; 2; 3; 4].[1].
Proof.
  apply (applyHann_attenuates [1; 2; 3; 4] 1).
  - vm_compute. discriminate.
  - vm_compute. split; [discriminate|reflexivity].
Defined.

(** X7. On a segment of at least two samples the window brings the first
    and the last sample to zero, and it is symmetric: the samples at [n]
    and at [N - 1 - n] get the same weight.  (Over the reals: the
    rounding of floating point is not modelled; the two weights the code
    computes can differ in their last bits.) *)
Theorem applyHann_ends_and_symmetry (x : list R) (n : Z) :
  (2 <= len x)%Z -> (0 <= n < len x)%Z ->
  (applyHann x).[0] = 0 /\ (applyHann x).[len x - 1] = 0 /\
  hann_weight (len x - 1 - n) (len x) = hann_weight n (len x) /\
  (applyHann x).[len x - 1 - n] = x.[len x - 1 - n] * hann_weight n (len x).
Proof.
  intros HN Hn. destruct (applyHann_spec x) as [_ Hy].
  set (N := len x) in *.
  assert (HN1 : IZR (N - 1) <> 0).
  { apply not_0_IZR. lia. }
  assert (Hfirst : hann_weight 0 N = 0).
  { unfold hann_weight. replace (2 * PI * 0 / IZR (N - 1)) with 0
      by (unfold Rdiv; ring).
    rewrite cos_0. lra. }
  assert (Hsym : hann_weight (N - 1 - n) N = hann_weight n N).
  { unfold hann_weight. rewrite (minus_IZR (N - 1) n).
    replace (2 * PI * (IZR (N - 1) - IZR n) / IZR (N - 1))
      with (2 * PI - 2 * PI * IZR n / IZR (N - 1)) by (field; done).
    rewrite cos_minus, cos_2PI, sin_2PI. f_equal. ring. }
  assert (Hlast : hann_weight (N - 1) N = 0).
  { unfold hann_weight.
    replace (2 * PI * IZR (N - 1) / IZR (N - 1)) with (2 * PI) by (field; done).
    rewrite cos_2PI. lra. }
  split; [rewrite Hy by lia; rewrite Hfirst; ring|].
  split; [rewrite Hy by lia; rewrite Hlast; ring|].
  split; [done|].
  rewrite Hy by lia. by rewrite Hsym.
Qed.

Lemma applyHann_ends_and_symmetry_witness :
  (applyHann [1; 2; 3; 4]).[0] = 0 /\
  (applyHann [1; 2; 3; 4]).[len [1; 2; 3; 4] - 1] = 0 /\
  hann_weight (len [1; 2; 3; 4] - 1 - 1) (len [1; 2; 3; 4])
  = hann_weight 1 (len [1; 2; 3; 4]) /\
  (applyHann [1; 2; 3; 4]).[len [1; 2; 3; 4] - 1 - 1]
  = [1; 2; 3; 4].[len [1; 2; 3; 4] - 1 - 1] * hann_weight 1 (len [1; 2; 3; 4]).
Proof.
  apply (applyHann_ends_and_symmetry [1; 2; 3; 4] 1).
  - vm_compute. discriminate.
  - vm_compute. split; [discriminate|reflexivity].
Defined.

(** *** The twiddle factors *)

Lemma twiddle_closed_form (theta : R) (k : nat) :
  twiddle (cos theta) (sin theta) k = (cos (INR k * theta), sin (INR k * theta)).
Proof.
  induction k as [|k IH].
  - simpl. rewrite Rmult_0_l, cos_0, sin_0. done.
  - change (twiddle (cos theta) (sin theta) (Datatypes.S k))
      with (twiddle_next (cos theta) (sin theta) (twiddle (cos theta) (sin theta) k)).
    rewrite IH, S_INR. unfold twiddle_next.
    replace ((INR k + 1) * theta) with (INR k * theta + theta) by ring.
    rewrite cos_plus, sin_plus. f_equal; ring.
Qed.

Lemma foldl_ext_in {A B : Type} (f g : A -> B -> A) (l : list B) (a : A) :
  (forall a b, b ∈ l -> f a b = g a b) -> foldl f a l = foldl g a l.
Proof.
  revert a. induction l as [|b l IH]; intros a H; simpl; [done|].
  rewrite H by apply list_elem_of_here.
  apply IH. intros a' b' Hb. apply H. by apply list_elem_of_further.
Qed.

(** X8. The recurrence [w *= wstep] yields the twiddle factors
    [exp(-2 pi i k / size)]: in a block of a stage of size [size],
    butterfly [k] is taken with [wr = cos(2 pi k / size)] and
    [wi = - sin(2 pi k / size)].  (Over the reals: the rounding of
    floating point is not modelled; the factors the code computes drift
    from these values by the rounding of each product.) *)
Theorem block_uses_roots_of_unity (start half size : Z) (a : list R * list R) :
  let theta := -2 * PI / IZR size in
  block start half (cos theta) (sin theta) a
  = foldl (fun a (k : nat) =>
             butterfly (cos (2 * PI * INR k / IZR size))
               (- sin (2 * PI * INR k / IZR size))
               (start + Z.of_nat k) (start + Z.of_nat k + half) a)
      a (seq 0 (Z.to_nat half)).
Proof.
  intros theta. rewrite block_twiddles.
  apply foldl_ext_in. intros a' k _.
  rewrite twiddle_closed_form. simpl.
  replace (INR k * theta) with (- (2 * PI * INR k / IZR size))
    by (subst theta; unfold Rdiv; ring).
  by rewrite cos_neg, sin_neg.
Qed.

(** *** Failure and non-termination *)

Lemma segment_thrown_neg (samples : list R) (N : Z) (w : windowing) :
  (N < 0)%Z -> segment samples N w = Thrown RangeError.
Proof. intros HN. unfold segment. by rewrite new_array_thrown. Qed.

Lemma nextPow2_nonneg_upto_2_30 (n : Z) :
  (0 <= n <= 1073741824)%Z -> (n <= nextPow2 n)%Z.
Proof.
  intros Hn. destruct (nextPow2_spec n) as (k & _ & -> & Hle & _); [|done].
  change (2 ^ 30)%Z with 1073741824%Z. lia.
Qed.

(** X9. [fftComplex] raises exactly when its input has more than [2^30]
    samples (lengths up to [2^31] considered), and what it raises is the
    [RangeError] of the array constructor; on shorter inputs it raises
    nothing, whatever the fuel. *)
Theorem fftComplex_throws_iff (fuel : nat) (realIn : list R) :
  (len realIn <= 2147483648)%Z ->
  ((exists e, fftComplex fuel realIn = Thrown e) <-> (1073741824 < len realIn)%Z) /\
  (forall e, fftComplex fuel realIn = Thrown e -> e = RangeError).
Proof.
  intros Hn. split; [split|].
  - intros [e He].
    destruct (Z_lt_ge_dec 1073741824 (len realIn)) as [|Hsmall]; [done|exfalso].
    pose proof (len_nonneg realIn).
    revert He. unfold fftComplex.
    rewrite (bind_returned _ _ _
               (fft_load_pads realIn
                  (nextPow2_nonneg_upto_2_30 (len realIn) ltac:(lia)))).
    intros He. apply bind_thrown_inv in He as [He|([j a] & _ & He)].
    + by apply bit_reverse_no_throw in He.
    + by apply stages_no_throw in He.
  - intros Hbig. exists RangeError. apply fftComplex_thrown.
    rewrite nextPow2_overflow; lia.
  - apply fftComplex_error.
Qed.

Lemma fftComplex_throws_iff_witness :
  ((exists e, fftComplex 5 [1; 2; 3] = Thrown e)
   <-> (1073741824 < len [1; 2; 3])%Z) /\
  (forall e, fftComplex 5 [1; 2; 3] = Thrown e -> e = RangeError).
Proof. apply (fftComplex_throws_iff 5 [1; 2; 3]). vm_compute. discriminate. Defined.

(** X10. The spectrum computation raises exactly when [fftSize] is
    negative or above [2^30] (sizes up to [2^31] considered), each time
    the [RangeError] of an array constructor; a size of 0 is no error. *)
Theorem analyze_throws_iff (fuel : nat) (samples : list R) (sampleRate : R)
    (N : Z) (w : windowing) :
  (N <= 2147483648)%Z ->
  ((exists e, analyze fuel samples sampleRate N w = Thrown e)
   <-> (N < 0 \/ 1073741824 < N)%Z) /\
  (forall e, analyze fuel samples sampleRate N w = Thrown e -> e = RangeError).
Proof.
  intros HN. split; [split|].
  - intros [e He].
    destruct (Z_lt_ge_dec N 0) as [|Hpos]; [by left|].
    destruct (Z_lt_ge_dec 1073741824 N) as [|Hsmall]; [by right|exfalso].
    revert He. unfold analyze.
    destruct (segment_len samples N w) as (x & -> & Hx); [lia|]. simpl.
    intros He. apply bind_thrown_inv in He as [He|([re im] & _ & He)].
    + assert (Hiff := fftComplex_throws_iff fuel x ltac:(lia)).
      destruct Hiff as [[Hthrow _] _].
      assert (1073741824 < len x)%Z by (apply Hthrow; eauto). lia.
    + apply bind_thrown_inv in He as [He|(mg & _ & He)]; [|done].
      destruct (magnitudes_spec N re im) as (mg & Hmg & _); [lia|].
      rewrite Hmg in He. done.
  - intros [Hneg|Hbig].
    + exists RangeError. unfold analyze. by rewrite segment_thrown_neg.
    + exists RangeError. unfold analyze.
      destruct (segment_len samples N w) as (x & Hseg & Hx); [lia|].
      rewrite (bind_returned _ _ _ Hseg).
      apply bind_thrown, fftComplex_thrown.
      rewrite Hx, nextPow2_overflow; lia.
  - apply analyze_error.
Qed.

Lemma analyze_throws_iff_witness :
  ((exists e, analyze 5 [1; 2; 3] 48000 (-1) hann = Thrown e)
   <-> (-1 < 0 \/ 1073741824 < -1)%Z) /\
  (forall e, analyze 5 [1; 2; 3] 48000 (-1) hann = Thrown e -> e = RangeError).
Proof. apply (analyze_throws_iff 5 [1; 2; 3] 48000 (-1) hann). vm_compute. discriminate. Defined.

(** X11. On an input of more than [2^29] and at most [2^30] samples
    [fftComplex] never returns: when [size] reaches [2^30], [size <<= 1]
    wraps to [-2^31], the stage loop goes on and its block loop steps
    [start] downwards for ever. *)
Theorem fftComplex_never_returns (fuel : nat) (realIn : list R)
    (r : list R * list R) :
  (536870912 < len realIn <= 1073741824)%Z ->
  fftComplex fuel realIn <> Returned r /\
  (forall e, fftComplex fuel realIn <> Thrown e).
Proof.
  intros Hn. split.
  - apply fftComplex_diverges.
    change (2 ^ 29)%Z with 536870912%Z. change (2 ^ 30)%Z with 1073741824%Z. lia.
  - intros e He.
    destruct (fftComplex_throws_iff fuel realIn ltac:(lia)) as [[Hthrow _] _].
    assert (1073741824 < len realIn)%Z by (apply Hthrow; eauto). lia.
Qed.

Lemma fftComplex_never_returns_witness :
  fftComplex 1000 (replicate (Z.to_nat 536870913) 0) <> Returned ([], []) /\
  (forall e, fftComplex 1000 (replicate (Z.to_nat 536870913) 0) <> Thrown e).
Proof.
  apply (fftComplex_never_returns 1000 (replicate (Z.to_nat 536870913) 0) ([], [])).
  rewrite len_replicate; lia.
Defined.

End SpectrumMore.

(** ** Sampling and quantisation: the window, the grid and the step curve *)

Module SamplingMore.
Import JS JSFacts Sampling SamplingFacts.
#[local] Open Scope Q_scope.

(** X12. The view window of [SamplingCanvas] (and of [WaveformCanvas],
    which computes it the same way): it is at least 256 samples wide and
    starts at a sample that is not negative; on a buffer of 256 samples or
    more it lies inside the buffer, on a shorter one it starts at 0 and
    reaches sample 256, past the end; clamping the pan a second time
    changes nothing. *)
Theorem view_window_bounds (samples : list Q) (sampleRate : positive)
    (winMs startSample : Z) :
  let ws := windowSamples samples sampleRate winMs in
  let cs := clampedStart samples sampleRate winMs startSample in
  let es := endSample samples sampleRate winMs startSample in
  (256 <= ws)%Z /\ (0 <= cs)%Z /\ es = (cs + ws)%Z /\
  ((256 <= len samples)%Z -> (ws <= len samples /\ es <= len samples)%Z) /\
  ((len samples < 256)%Z -> cs = 0%Z /\ es = 256%Z) /\
  clampedStart samples sampleRate winMs cs = cs.
Proof.
  intros ws cs es. subst ws cs es. unfold endSample, clampedStart, windowSamples.
  set (X := Qfloor _). pose proof (len_nonneg samples). lia.
Qed.

(** *** Points of the trace *)









(** *** The zero-order-hold path *)

Lemma lookup_S {A : Type} (a : A) (l : list A) (n : nat) :
  (a :: l) !! Datatypes.S n = l !! n.
Proof. reflexivity. Qed.




End SamplingMore.

(** ** The quantiser in the arithmetic of the code *)

Module SamplingDoubleMore.
Import JS JSFacts Double DoubleFacts SamplingDouble SamplingDoubleFacts.
#[local] Open Scope Q_scope.

Lemma js_round_Z (z : Z) : Sampling.js_round (inject_Z z) = z.
Proof.
  unfold Sampling.js_round.
  assert (H : (z <= Qfloor (inject_Z z + (1 # 2)) <= z)%Z); [|lia].
  apply SamplingFacts.Qfloor_between.
  - lra.
  - rewrite inject_Z_plus. change (inject_Z 1) with 1. lra.
Qed.

Lemma js_round_eq (x : Q) (z : Z) : x == inject_Z z -> Sampling.js_round x = z.
Proof.
  intros E. rewrite <- (js_round_Z z). unfold Sampling.js_round.
  apply Qfloor_comp. by rewrite E.
Qed.

(** X14. Quantising keeps the three levels a binary32 sample holds
    exactly and saturates beyond them: for every output point, when the
    source sample it reads is 0 the code is 0 and the reconstructed
    amplitude 0; when the sample is 1 or more the code is
    [maxInt = 2^(bits-1) - 1] and the amplitude exactly 1; when it is -1
    or less the code is [-maxInt] and the amplitude exactly -1.  (Buffer
    of at most [2^31] binary32 samples, target rate from 1 to 65536, 2 to
    30 bits.) *)
Theorem quantize_fixed_levels (samples : list Q) (sampleRate : positive)
    (targetRate bits winMs startSample : Z) :
  samples <> [] -> Forall is_float32 samples -> (len samples <= 2 ^ 31)%Z ->
  (Z.pos sampleRate <= 2 ^ 30)%Z ->
  (Z.abs winMs <= 2 ^ 53)%Z -> (Z.abs startSample <= 2 ^ 53)%Z ->
  (1 <= targetRate <= 2 ^ 16)%Z -> (2 <= bits <= 30)%Z ->
  let M := (2 ^ (bits - 1) - 1)%Z in
  exists (n : nat) (trace : QuantizedTrace),
    (forall fuel : nat, (n < fuel)%nat ->
       simulate fuel samples sampleRate targetRate bits winMs startSample
       = Returned trace) /\
    Forall
      (fun p => exists (src : Z) (s : Q),
         srcIdx p = int src /\ samples !! Z.to_nat src = Some s /\
         (s == 0 -> q p = int 0 /\ vq p = int 0) /\
         (1 <= s -> q p = int M /\ vq p = int 1) /\
         (s <= -1 -> q p = int (- M) /\ vq p = int (-1)))
      (stems trace).
Proof.
  intros Hne Hf32 HL Hsr Hw Hs Htr Hbits M.
  destruct (simulate_run samples sampleRate targetRate bits winMs startSample)
    as (F & W & cs & a & b & y0 & y1 & _ & _ & _ & (_ & Hab & Hbb & Ha0 & Hib)
        & Hrun); [lia..|].
  eexists _, _. split; [exact Hrun|]. cbn [stems].
  apply Forall_fmap, Forall_forall. intros i Hi. apply elem_of_seqZ in Hi.
  destruct (quantize_exact samples sampleRate targetRate bits i)
    as (k & s & v' & c & Hk & Hkb & Hsk & Hv & Hc & Hcb & Hq);
    [done|done|done|lia|lia|lia|lia|apply Hib; lia|].
  cbn [compose]. rewrite Hq. cbn [srcIdx q vq]. fold M in Hc, Hcb |- *.
  assert (HM : (1 <= M)%Z).
  { unfold M. assert (2 ^ 1 <= 2 ^ (bits - 1))%Z by (apply Z.pow_le_mono_r; lia).
    change (2 ^ 1)%Z with 2%Z in *. lia. }
  assert (HMq : 1 <= inject_Z M).
  { change 1 with (inject_Z 1). by rewrite <- Zle_Qle. }
  exists k, s. split; [done|]. split; [done|]. split; [|split].
  - intros E0.
    assert (Ev : v' == 0).
    { rewrite Hv, E0. reflexivity. }
    assert (c = 0%Z) as ->.
    { rewrite Hc. apply js_round_eq. rewrite Ev. reflexivity. }
    split; [done|]. apply of_Q_int; [|lia]. change (inject_Z 0) with 0. field. lra.
  - intros H1.
    assert (Ev : v' == 1).
    { rewrite Hv, (Q.min_l 1 s) by done. by rewrite Q.max_r. }
    assert (c = M) as ->.
    { rewrite Hc. apply js_round_eq. rewrite Ev. ring. }
    split; [done|]. apply of_Q_int; [|lia]. change (inject_Z 1) with 1. field. lra.
  - intros H1.
    assert (Ev : v' == -1).
    { rewrite Hv, (Q.min_r 1 s) by lra. rewrite Q.max_l by done. reflexivity. }
    assert (c = (- M)%Z) as ->.
    { rewrite Hc. apply js_round_eq. rewrite Ev, inject_Z_opp. ring. }
    split; [done|]. apply of_Q_int; [|lia].
    rewrite inject_Z_opp. change (inject_Z (-1)) with (-1). field. lra.
Qed.

Lemma quantize_fixed_levels_witness :
  let samples := [0; 1; -1; 2; -3 # 2] in
  let M := (2 ^ (8 - 1) - 1)%Z in
  exists (n : nat) (trace : QuantizedTrace),
    (forall fuel : nat, (n < fuel)%nat ->
       simulate fuel samples 4 2 8 100 0 = Returned trace) /\
    Forall
      (fun p => exists (src : Z) (s : Q),
         srcIdx p = int src /\ samples !! Z.to_nat src = Some s /\
         (s == 0 -> q p = int 0 /\ vq p = int 0) /\
         (1 <= s -> q p = int M /\ vq p = int 1) /\
         (s <= -1 -> q p = int (- M) /\ vq p = int (-1)))
      (stems trace).
Proof.
  apply (quantize_fixed_levels [0; 1; -1; 2; -3 # 2] 4 2 8 100 0).
  - discriminate.
  - repeat constructor.
    + apply (is_float32_dyadic _ 0 0); [lia|lia|by vm_compute].
    + apply (is_float32_dyadic _ 1 0); [lia|lia|by vm_compute].
    + apply (is_float32_dyadic _ (-1) 0); [lia|lia|by vm_compute].
    + apply (is_float32_dyadic _ 2 0); [lia|lia|by vm_compute].
    + apply (is_float32_dyadic _ (-3) (-1)); [lia|lia|by vm_compute].
  - vm_compute. discriminate.
  - lia.
  - lia.
  - lia.
  - lia.
  - lia.
Defined.

(** The exact half step is exceeded by a rounding error: with 4 bits the
    sample [-1/2] gets the code -3, and the double nearest to [-3/7] is
    further from [-1/2] than [1/14]. *)
Example half_step_exceeded :
  let p := quantize [-1 # 2] 48000 48000 (Sampling.maxInt 4) (int 0) in
  v p = Fin (-1 # 2) /\ q p = int (-3) /\
  vq p = Fin (-7720456504063707 # 18014398509481984) /\
  1 # 14 < Qabs ((-7720456504063707 # 18014398509481984) - (-1 # 2)).
Proof. intros p. split; [|split; [|split]]; by vm_compute. Qed.

(** X15. The reconstructed amplitude of every output point is within half
    a quantisation step, [1 / (2 (2^(bits-1) - 1))], of the clamped source
    amplitude, up to the rounding of the division [q / maxInt], which is
    at most [2^-52].  (Buffer of at most [2^31] binary32 samples, target
    rate from 1 to 65536, 2 to 30 bits.) *)
Theorem quantization_error_half_step (samples : list Q) (sampleRate : positive)
    (targetRate bits winMs startSample : Z) :
  samples <> [] -> Forall is_float32 samples -> (len samples <= 2 ^ 31)%Z ->
  (Z.pos sampleRate <= 2 ^ 30)%Z ->
  (Z.abs winMs <= 2 ^ 53)%Z -> (Z.abs startSample <= 2 ^ 53)%Z ->
  (1 <= targetRate <= 2 ^ 16)%Z -> (2 <= bits <= 30)%Z ->
  exists (n : nat) (trace : QuantizedTrace),
    (forall fuel : nat, (n < fuel)%nat ->
       simulate fuel samples sampleRate targetRate bits winMs startSample
       = Returned trace) /\
    Forall
      (fun p => exists clamped reconstructed : Q,
         v p = Fin clamped /\ vq p = Fin reconstructed /\
         Qabs (reconstructed - clamped)
         <= 1 / (2 * inject_Z (2 ^ (bits - 1) - 1)) + 2 ^ (-52))
      (stems trace).
Proof.
  intros Hne Hf32 HL Hsr Hw Hs Htr Hbits.
  destruct (simulate_run samples sampleRate targetRate bits winMs startSample)
    as (F & W & cs & a & b & y0 & y1 & _ & _ & _ & (_ & Hab & Hbb & Ha0 & Hib)
        & Hrun); [lia..|].
  eexists _, _. split; [exact Hrun|]. cbn [stems].
  apply Forall_fmap, Forall_forall. intros i Hi. apply elem_of_seqZ in Hi.
  destruct (quantize_exact samples sampleRate targetRate bits i)
    as (k & s & v' & c & Hk & Hkb & Hsk & Hv & Hc & Hcb & Hq);
    [done|done|done|lia|lia|lia|lia|apply Hib; lia|].
  cbn [compose]. rewrite Hq. cbn [v vq].
  set (M := (2 ^ (bits - 1) - 1)%Z) in *.
  assert (HM : (1 <= M)%Z).
  { unfold M. assert (2 ^ 1 <= 2 ^ (bits - 1))%Z by (apply Z.pow_le_mono_r; lia).
    change (2 ^ 1)%Z with 2%Z in *. lia. }
  assert (HMq : 1 <= inject_Z M).
  { change 1 with (inject_Z 1). by rewrite <- Zle_Qle. }
  assert (Hq1 : Qabs (inject_Z c / inject_Z M) <= inject_Z 1).
  { assert (H2 : - inject_Z M <= inject_Z c <= inject_Z M).
    { rewrite <- inject_Z_opp, <- !Zle_Qle. lia. }
    apply Qabs_Qle_condition. change (inject_Z 1) with 1. split.
    - apply Qle_shift_div_l; lra.
    - apply Qle_shift_div_r; lra. }
  destruct (of_Q_near (inject_Z c / inject_Z M) 1 Hq1) as (level & Hlevel & Herr & _);
    [lia|].
  exists v', level. split; [done|]. split; [done|].
  assert (Hhalf : Qabs (inject_Z c / inject_Z M - v') <= 1 / (2 * inject_Z M)).
  { rewrite Hc. unfold Sampling.js_round.
    pose proof (Qfloor_le (v' * inject_Z M + (1 # 2))) as Hf1.
    pose proof (Qlt_floor (v' * inject_Z M + (1 # 2))) as Hf2.
    rewrite inject_Z_plus in Hf2. change (inject_Z 1) with 1 in Hf2.
    set (K := inject_Z (Qfloor (v' * inject_Z M + (1 # 2)))) in *.
    assert (Hexp : (K / inject_Z M - v') * (2 * inject_Z M)
                   == 2 * K - 2 * (v' * inject_Z M)).
    { field. lra. }
    apply (proj2 (Qabs_Qle_condition _ _)). split.
    - apply (Qmult_le_r _ _ (2 * inject_Z M)); [lra|].
      rewrite Hexp.
      assert (E : - (1 / (2 * inject_Z M)) * (2 * inject_Z M) == -1) by (field; lra).
      rewrite E. lra.
    - apply Qle_shift_div_l; [lra|]. rewrite Hexp. lra. }
  assert (E : level - v'
              == (level - inject_Z c / inject_Z M) + (inject_Z c / inject_Z M - v'))
    by ring.
  rewrite E. eapply Qle_trans; [apply Qabs_triangle|].
  assert (Hu : inject_Z 1 * 2 ^ (-53) + 2 ^ (-1075) <= 2 ^ (-52)) by numeric.
  set (e1 := Qabs (level - inject_Z c / inject_Z M)) in *.
  set (e2 := Qabs (inject_Z c / inject_Z M - v')) in *.
  set (h := 1 / (2 * inject_Z M)) in *. set (u := 2 ^ (-52)) in *.
  set (u' := inject_Z 1 * 2 ^ (-53) + 2 ^ (-1075)) in *.
  clearbody e1 e2 h u u'. lra.
Qed.

Lemma quantization_error_half_step_witness :
  exists (n : nat) (trace : QuantizedTrace),
    (forall fuel : nat, (n < fuel)%nat ->
       simulate fuel [1 # 2; -3 # 4; 2; -2] 4 2 3 100 0 = Returned trace) /\
    Forall
      (fun p => exists clamped reconstructed : Q,
         v p = Fin clamped /\ vq p = Fin reconstructed /\
         Qabs (reconstructed - clamped)
         <= 1 / (2 * inject_Z (2 ^ (3 - 1) - 1)) + 2 ^ (-52))
      (stems trace).
Proof.
  apply (quantization_error_half_step [1 # 2; -3 # 4; 2; -2] 4 2 3 100 0).
  - discriminate.
  - repeat constructor.
    + apply (is_float32_dyadic _ 1 (-1)); [lia|lia|by vm_compute].
    + apply (is_float32_dyadic _ (-3) (-2)); [lia|lia|by vm_compute].
    + apply (is_float32_dyadic _ 2 0); [lia|lia|by vm_compute].
    + apply (is_float32_dyadic _ (-2) 0); [lia|lia|by vm_compute].
  - vm_compute. discriminate.
  - lia.
  - lia.
  - lia.
  - lia.
  - lia.
Defined.

(** At equal rates the first index is not always [clampedStart]: from
    sample 7 at 48 kHz the product [(7 / 48000) * 48000] is just above 7
    and the loop starts at index 8. *)
Example resample_first_index_8 :
  let samples := replicate (Z.to_nat 9600) 0 in
  clampedStart samples 48000 100 7 = int 7 /\
  iStart samples 48000 100 7 48000 = int 8 /\
  iEnd samples 48000 100 7 48000 = int 4807.
Proof. intros samples. split; [|split]; by vm_compute. Qed.

(** X16. With the target rate equal to the source rate (at most 65536
    Hz) nothing is resampled: the point of index [i] reads source sample
    [i], or the last sample of the buffer when [i] is past the end, at
    the time nearest to [i / sampleRate].  The loop starts at
    [clampedStart] or one index later and ends at [endSample] or one
    index earlier, the rounded products [(index / rate) * rate] falling
    on either side of the index. *)
Theorem resample_at_source_rate (samples : list Q) (sampleRate : positive)
    (bits winMs startSample : Z) :
  samples <> [] -> Forall is_float32 samples -> (len samples <= 2 ^ 31)%Z ->
  (Z.pos sampleRate <= 2 ^ 16)%Z ->
  (Z.abs winMs <= 2 ^ 53)%Z -> (Z.abs startSample <= 2 ^ 53)%Z ->
  (2 <= bits <= 30)%Z ->
  exists F W cs a b : Z,
    (Math_floor (fmul (fdiv (of_Z winMs) (Fin 1000)) (of_Z (Z.pos sampleRate)))
       = int F /\
     W = Z.max 256 (Z.min (len samples) F) /\
     cs = Z.max 0 (Z.min startSample (Z.max 0 (len samples - W))) /\
     Math_ceil (fmul (fdiv (int cs) (of_Z (Z.pos sampleRate)))
                  (of_Z (Z.pos sampleRate)))
       = int a /\
     Math_floor (fmul (fdiv (int (cs + W)) (of_Z (Z.pos sampleRate)))
                   (of_Z (Z.pos sampleRate)))
       = int b) /\
    windowSamples samples sampleRate winMs = int W /\
    clampedStart samples sampleRate winMs startSample = int cs /\
    endSample samples sampleRate winMs startSample = int (cs + W) /\
    iStart samples sampleRate winMs startSample (Z.pos sampleRate) = int a /\
    iEnd samples sampleRate winMs startSample (Z.pos sampleRate) = int b /\
    (cs <= a <= cs + 1)%Z /\ (cs + W - 1 <= b <= cs + W)%Z /\
    forall fuel : nat, (Z.to_nat (b - a + 1) < fuel)%nat ->
      exists trace : QuantizedTrace,
        simulate fuel samples sampleRate (Z.pos sampleRate) bits winMs startSample
          = Returned trace /\
        len (stems trace) = (b - a + 1)%Z /\
        forall i : Z, (a <= i <= b)%Z ->
          exists p, stems trace !! Z.to_nat (i - a) = Some p /\
            srcIdx p = int (Z.min (len samples - 1) i) /\
            t p = of_Q (inject_Z i / inject_Z (Z.pos sampleRate)).
Proof.
  intros Hne Hf32 HL Hsr Hw Hs Hbits.
  destruct (simulate_run samples sampleRate (Z.pos sampleRate) bits winMs startSample)
    as (F & W & cs & a & b & y0 & y1 & Hview & (HW & Hcs & Hes & Ha & Hb)
        & (Eya & Eyb & H0 & H1) & (HWb & Hab & Hbb & Ha0 & Hib) & Hrun); [lia..|].
  set (S := inject_Z (Z.pos sampleRate)) in *.
  assert (HS : 1 <= S).
  { unfold S. change 1 with (inject_Z 1). rewrite <- Zle_Qle. lia. }
  assert (E0 : inject_Z cs * S / S == inject_Z cs) by (field; lra).
  assert (E1 : inject_Z (cs + W) * S / S == inject_Z (cs + W)) by (field; lra).
  rewrite E0 in H0. rewrite E1 in H1.
  apply Qabs_Qle_condition in H0. apply Qabs_Qle_condition in H1.
  assert (Hca : (cs <= a <= cs + 1)%Z).
  { rewrite Eya. apply SamplingFacts.Qceiling_between.
    - unfold Z.sub. rewrite inject_Z_plus, inject_Z_opp. change (inject_Z 1) with 1. lra.
    - rewrite inject_Z_plus. change (inject_Z 1) with 1. lra. }
  assert (Hcb : (cs + W - 1 <= b <= cs + W)%Z).
  { rewrite Eyb. apply SamplingFacts.Qfloor_between.
    - unfold Z.sub. rewrite (inject_Z_plus (cs + W)), inject_Z_opp.
      change (inject_Z 1) with 1. lra.
    - rewrite (inject_Z_plus (cs + W)). change (inject_Z 1) with 1. lra. }
  exists F, W, cs, a, b.
  split; [done|]. split; [done|]. split; [done|]. split; [done|]. split; [done|].
  split; [done|]. split; [done|]. split; [done|].
  intros fuel Hfuel. eexists. split; [by apply Hrun|]. cbn [stems].
  split; [rewrite len_seqZ_fmap; lia|].
  intros i Hi.
  destruct (quantize_exact samples sampleRate (Z.pos sampleRate) bits i)
    as (k & s & v' & c & Hk & Hkb & Hsk & Hv & Hc & _ & Hq);
    [done|done|done|lia|lia|done|lia|apply Hib; lia|].
  eexists. split; [by apply lookup_seqZ_fmap; lia|]. rewrite Hq. cbn [srcIdx t].
  split; [|done]. rewrite Hk. do 3 f_equal. apply js_round_eq.
  rewrite inject_Z_mult. fold S. field. lra.
Qed.

Lemma resample_at_source_rate_witness :
  let samples := replicate (Z.to_nat 9600) 0 in
  exists F W cs a b : Z,
    (Math_floor (fmul (fdiv (of_Z 100) (Fin 1000)) (of_Z (Z.pos 48000))) = int F /\
     W = Z.max 256 (Z.min (len samples) F) /\
     cs = Z.max 0 (Z.min 7 (Z.max 0 (len samples - W))) /\
     Math_ceil (fmul (fdiv (int cs) (of_Z (Z.pos 48000))) (of_Z (Z.pos 48000)))
       = int a /\
     Math_floor (fmul (fdiv (int (cs + W)) (of_Z (Z.pos 48000)))
                   (of_Z (Z.pos 48000)))
       = int b) /\
    windowSamples samples 48000 100 = int W /\
    clampedStart samples 48000 100 7 = int cs /\
    endSample samples 48000 100 7 = int (cs + W) /\
    iStart samples 48000 100 7 (Z.pos 48000) = int a /\
    iEnd samples 48000 100 7 (Z.pos 48000) = int b /\
    (cs <= a <= cs + 1)%Z /\ (cs + W - 1 <= b <= cs + W)%Z /\
    forall fuel : nat, (Z.to_nat (b - a + 1) < fuel)%nat ->
      exists trace : QuantizedTrace,
        simulate fuel samples 48000 (Z.pos 48000) 8 100 7 = Returned trace /\
        len (stems trace) = (b - a + 1)%Z /\
        forall i : Z, (a <= i <= b)%Z ->
          exists p, stems trace !! Z.to_nat (i - a) = Some p /\
            srcIdx p = int (Z.min (len samples - 1) i) /\
            t p = of_Q (inject_Z i / inject_Z (Z.pos 48000)).
Proof.
  apply (resample_at_source_rate (replicate (Z.to_nat 9600) 0) 48000 8 100 7).
  - discriminate.
  - apply Forall_replicate.
    apply (is_float32_dyadic _ 0 0); [lia|lia|by vm_compute].
  - vm_compute. discriminate.
  - vm_compute. discriminate.
  - lia.
  - lia.
  - lia.
Defined.

End SamplingDoubleMore.

(** ** The windowed transform *)

Module WindowFFTMore.
Import JS JSFacts JSMore Spectrum SpectrumFacts WindowFFT.
#[local] Open Scope R_scope.


(** [subarray(0, e)] with a negative end counts from the end of the array. *)
Lemma subarray_negative_end {A : Type} (a : list A) (e : Z) :
  (e < 0)%Z -> len (subarray a 0 e) = Z.max 0 (len a + e).
Proof.
  intros He. unfold subarray, rel_index.
  destruct (Z.ltb_spec e 0); [|lia]. simpl.
  pose proof (len_nonneg a) as Ha.
  replace (Z.min 0 (len a)) with 0%Z by lia. simpl. rewrite drop_0.
  unfold len in *. rewrite length_take. lia.
Qed.



(** X19. Edge cases of the windowed transform.  On an empty buffer it
    returns no magnitude and a bin width of 1, without transforming.  With
    a centre so far below zero that [center + half] is negative, the end
    index of [subarray] counts from the end of the buffer, and when the
    view so obtained is longer than the window, [set] raises
    [RangeError]. *)
Theorem windowFFT_edges (fuel : nat) (samples : list R) (sampleRate : R)
    (windowSize centerIndex : Z) :
  (0 <= windowSize)%Z ->
  (centerIndex + windowSize / 2 < 0)%Z ->
  (windowSize < len samples + (centerIndex + windowSize / 2))%Z ->
  windowFFT fuel samples sampleRate windowSize centerIndex = Thrown RangeError /\
  windowFFT fuel [] sampleRate windowSize centerIndex
  = Returned {| mags := []; binHz := 1 |}.
Proof.
  intros Hws Hneg Hlong. split; [|done].
  unfold windowFFT. pose proof (len_nonneg samples).
  destruct (Z.eqb_spec (len samples) 0); [lia|].
  rewrite (bind_returned _ _ _ (new_array_returned 0 windowSize ltac:(lia))).
  apply bind_thrown.
  replace (Z.max 0 (centerIndex - windowSize / 2)) with 0%Z
    by (pose proof (Z.div_pos windowSize 2); lia).
  replace (Z.min (len samples) (centerIndex + windowSize / 2))
    with (centerIndex + windowSize / 2)%Z by lia.
  unfold typed_set.
  rewrite subarray_negative_end by done. rewrite len_replicate by lia.
  destruct (Z.ltb_spec 0 0); [lia|].
  destruct (Z.ltb_spec windowSize
              (0 + Z.max 0 (len samples + (centerIndex + windowSize / 2)))); [done|lia].
Qed.

Lemma windowFFT_edges_witness :
  windowFFT 5 [1; 2; 3; 4; 5; 6; 7; 8] 48000 2 (-3) = Thrown RangeError /\
  windowFFT 5 [] 48000 2 (-3) = Returned {| mags := []; binHz := 1 |}.
Proof.
  apply (windowFFT_edges 5 [1; 2; 3; 4; 5; 6; 7; 8] 48000 2 (-3)).
  - lia.
  - vm_compute. reflexivity.
  - vm_compute. reflexivity.
Defined.

End WindowFFTMore.

(** ** The peak marker and the display scale *)

Module PeakMore.
Import JS JSFacts Spectrum Peak.
#[local] Open Scope R_scope.

(** X20. The bin the peak marker is drawn at is the first largest
    magnitude of the bins in view: it lies in [kStart, kEnd], no bin in
    view is larger, and every bin in view before it is strictly smaller. *)
Theorem peak_is_first_maximum (mags : list R) (kStart kEnd : Z) :
  (kStart <= kEnd)%Z ->
  let peakIdx := snd (peak_scan mags kStart kEnd) in
  (kStart <= peakIdx <= kEnd)%Z /\
  fst (peak_scan mags kStart kEnd) = Some mags.[peakIdx] /\
  (forall k, (kStart <= k <= kEnd)%Z -> mags.[k] <= mags.[peakIdx]) /\
  (forall k, (kStart <= k < peakIdx)%Z -> mags.[k] < mags.[peakIdx]).
Proof.
  intros Hle peakIdx. subst peakIdx. unfold peak_scan.
  set (body := fun (k : Z) '(peakMag, peakIdx) =>
                 let mag := mags.[k] in
                 if above mag peakMag then (Some mag, k) else (peakMag, peakIdx)).
  pose proof (for_up_ind
    (fun i (s : option R * Z) =>
       (i = kStart /\ s = (None, kStart)) \/
       ((kStart < i)%Z /\ (kStart <= snd s < i)%Z /\ fst s = Some mags.[snd s] /\
        (forall k, (kStart <= k < i)%Z -> mags.[k] <= mags.[snd s]) /\
        (forall k, (kStart <= k < snd s)%Z -> mags.[k] < mags.[snd s])))
    body (Z.to_nat (kEnd - kStart + 1)) kStart (None, kStart)) as Hind.
  destruct Hind as [[Hi _]|(_ & Hidx & Hfst & Hmax & Hfirst)].
  - by left.
  - intros i [pm idx] Hi [[-> [= -> ->]]|(Hgt & Hidx & Hfst & Hmax & Hfirst)].
    + right. simpl. split; [lia|]. split; [lia|]. split; [done|].
      split; intros k Hk; [|lia].
      replace k with kStart by lia. lra.
    + right. simpl in *. subst pm. unfold above.
      destruct (Rlt_dec mags.[idx] mags.[i]) as [Hlt|Hge]; simpl.
      * split; [lia|]. split; [lia|]. split; [done|]. split.
        -- intros k Hk. destruct (Z.eq_dec k i) as [->|]; [lra|].
           specialize (Hmax k ltac:(lia)). lra.
        -- intros k Hk. specialize (Hmax k ltac:(lia)). lra.
      * split; [lia|]. split; [lia|]. split; [done|]. split; [|done].
        intros k Hk. destruct (Z.eq_dec k i) as [->|]; [lra|].
        apply Hmax. lia.
  - lia.
  - replace (kStart + Z.of_nat (Z.to_nat (kEnd - kStart + 1)))%Z
      with (kEnd + 1)%Z in * by lia.
    split; [lia|]. split; [done|]. split; [|done].
    intros k Hk. apply Hmax. lia.
Qed.

Lemma peak_is_first_maximum_witness :
  let peakIdx := snd (peak_scan [1; 3; 2; 3] 0 3) in
  (0 <= peakIdx <= 3)%Z /\
  fst (peak_scan [1; 3; 2; 3] 0 3) = Some [1; 3; 2; 3].[peakIdx] /\
  (forall k, (0 <= k <= 3)%Z -> [1; 3; 2; 3].[k] <= [1; 3; 2; 3].[peakIdx]) /\
  (forall k, (0 <= k < peakIdx)%Z -> [1; 3; 2; 3].[k] < [1; 3; 2; 3].[peakIdx]).
Proof. apply (peak_is_first_maximum [1; 3; 2; 3] 0 3). lia. Defined.

Lemma maxMag_spec (mags : list R) :
  forall floor : R,
    floor <= maxMag floor mags /\
    Forall (fun v => v <= maxMag floor mags) mags.
Proof.
  unfold maxMag. induction mags as [|v rest IH]; intros floor; simpl.
  - split; [lra|constructor].
  - destruct (Rlt_dec floor v) as [Hlt|Hge].
    + destruct (IH v) as [H1 H2]. split; [lra|]. constructor; done.
    + destruct (IH floor) as [H1 H2]. split; [done|]. constructor; [lra|done].
Qed.

(** X21. The scale of the linear display: with a positive floor (the code
    uses [1e-12]) [maxMag] is positive, so the quotient [m / maxMag] never
    divides by zero, and for each magnitude [m] that is not negative it
    lies in [0, 1]. *)
Theorem relative_magnitude_in_unit_range (floor : R) (mags : list R) :
  0 < floor ->
  0 < maxMag floor mags /\
  Forall (fun m => 0 <= m -> 0 <= m / maxMag floor mags <= 1) mags.
Proof.
  intros Hfloor. destruct (maxMag_spec mags floor) as [H1 H2].
  split; [lra|].
  eapply Forall_impl; [exact H2|]. intros m Hm Hpos. simpl in *.
  set (M := maxMag floor mags) in *.
  assert (HM : 0 < M) by lra.
  split.
  - apply Rmult_le_pos; [done|]. left. by apply Rinv_0_lt_compat.
  - apply (Rmult_le_reg_r M); [done|].
    unfold Rdiv. rewrite Rmult_assoc, Rinv_l by lra. lra.
Qed.

Lemma relative_magnitude_in_unit_range_witness :
  0 < maxMag 1 [0; 3; 2] /\
  Forall (fun m => 0 <= m -> 0 <= m / maxMag 1 [0; 3; 2] <= 1) [0; 3; 2].
Proof. apply (relative_magnitude_in_unit_range 1 [0; 3; 2]). lra. Defined.

End PeakMore.

(** ** The waveform envelope *)

Module WaveformMore.
Import JS JSFacts Waveform.
#[local] Open Scope Q_scope.

Notation "a .[ i ]" := (aget 0 a i) (at level 1, format "a .[ i ]").

Lemma Qfloor_div (a b : Z) :
  (0 < b)%Z -> Qfloor (inject_Z a / inject_Z b) = (a / b)%Z.
Proof.
  intros Hb. destruct b as [|p|p]; [lia| |lia].
  unfold Qdiv, Qinv, Qmult, inject_Z, Qfloor. simpl.
  by rewrite Z.mul_1_r.
Qed.

Lemma min_max_spec (visible : list Q) (i0 i1 : Z) :
  (i0 <= i1)%Z ->
  let lo := fst (min_max visible i0 i1) in
  let hi := snd (min_max visible i0 i1) in
  (forall j, (i0 <= j < i1)%Z -> lo <= visible.[j] <= hi) /\
  (lo = 1 \/ exists j, (i0 <= j < i1)%Z /\ lo = visible.[j]) /\
  (hi = -1 \/ exists j, (i0 <= j < i1)%Z /\ hi = visible.[j]).
Proof.
  intros Hle lo hi. subst lo hi. unfold min_max.
  pose proof (for_up_ind
    (fun i (s : Q * Q) =>
       (forall j, (i0 <= j < i)%Z -> fst s <= visible.[j] <= snd s) /\
       (fst s = 1 \/ exists j, (i0 <= j < i)%Z /\ fst s = visible.[j]) /\
       (snd s = -1 \/ exists j, (i0 <= j < i)%Z /\ snd s = visible.[j]))
    (fun j '(vmin, vmax) =>
       let v := visible.[j] in
       let vmin := if Qlt_le_dec v vmin then v else vmin in
       let vmax := if Qlt_le_dec vmax v then v else vmax in
       (vmin, vmax))
    (Z.to_nat (i1 - i0)) i0 (1, -1)) as Hind.
  replace (i0 + Z.of_nat (Z.to_nat (i1 - i0)))%Z with i1 in Hind by lia.
  apply Hind; clear Hind.
  - split; [intros; lia|]. split; by left.
  - intros i [lo hi] Hi (Hb & Hlo & Hhi). simpl in *.
    destruct (Qlt_le_dec visible.[i] lo) as [Hl|Hl],
             (Qlt_le_dec hi visible.[i]) as [Hh|Hh]; simpl.
    all: split; [intros j Hj; destruct (Z.eq_dec j i) as [->|];
                 [lra|specialize (Hb j ltac:(lia)); lra]|].
    all: split.
    all: try (right; exists i; split; [lia|reflexivity]).
    all: match goal with
         | H : ?x = ?c \/ _ |- ?x = ?c \/ _ =>
             destruct H as [H|(j & Hj & H)]; [by left|right; exists j; split; [lia|done]]
         end.
Qed.

Lemma columns_lookup (count : nat) :
  forall (c i step : Z) (visible : list Q) (n : nat),
    (1 <= step)%Z -> (0 <= i)%Z ->
    columns count c i step visible !! n
    = if decide ((n < count)%nat /\ (i + Z.of_nat n * step < len visible)%Z)
      then Some ((c + Z.of_nat n)%Z,
                 min_max visible (i + Z.of_nat n * step)
                   (Z.min (len visible) (i + (Z.of_nat n + 1) * step)))
      else None.
Proof.
  induction count as [|count IH]; intros c i step visible n Hstep Hi.
  - cbn [columns]. case_decide as Hn; [lia|done].
  - cbn [columns].
    destruct (Z.leb_spec (Z.min (len visible) (i + step)) (Z.min (len visible) i))
      as [Hbreak|Hgo].
    + case_decide as Hn; [nia|done].
    + destruct n as [|n].
      * change (Some (c, min_max visible (Z.min (len visible) i)
                           (Z.min (len visible) (i + step))) = 
                if decide ((0 < Datatypes.S count)%nat /\
                           (i + Z.of_nat 0 * step < len visible)%Z)
                then Some ((c + Z.of_nat 0)%Z,
                  min_max visible (i + Z.of_nat 0 * step)
                    (Z.min (len visible) (i + (Z.of_nat 0 + 1) * step)))
                else None).
        case_decide as Hn; [|exfalso; apply Hn; split; lia].
        do 3 f_equal; lia.
      * rewrite SamplingMore.lookup_S, IH by lia.
        replace (c + 1 + Z.of_nat n)%Z with (c + Z.of_nat (Datatypes.S n))%Z by lia.
        replace (i + step + Z.of_nat n * step)%Z
          with (i + Z.of_nat (Datatypes.S n) * step)%Z by lia.
        replace (i + step + (Z.of_nat n + 1) * step)%Z
          with (i + (Z.of_nat (Datatypes.S n) + 1) * step)%Z by lia.
        case_decide as H1; case_decide as H3.
        -- done.
        -- exfalso. apply H3. split; [lia|nia].
        -- exfalso. apply H1. split; [lia|nia].
        -- done.
Qed.

Lemma envelope_lookup (visible : list Q) (plotW : Q) (n : nat) :
  envelope visible plotW !! n
  = if decide ((Z.of_nat n < cols_of plotW)%Z /\
               (Z.of_nat n * step_of visible plotW < len visible)%Z)
    then Some (Z.of_nat n,
               min_max visible (Z.of_nat n * step_of visible plotW)
                 (Z.min (len visible) ((Z.of_nat n + 1) * step_of visible plotW)))
    else None.
Proof.
  unfold envelope. rewrite Qfloor_div by lia. fold (cols_of plotW).
  fold (step_of visible plotW).
  rewrite columns_lookup by (unfold step_of; lia).
  replace (0 + Z.of_nat n * step_of visible plotW)%Z
    with (Z.of_nat n * step_of visible plotW)%Z by lia.
  replace (0 + (Z.of_nat n + 1) * step_of visible plotW)%Z
    with ((Z.of_nat n + 1) * step_of visible plotW)%Z by lia.
  change (0 + Z.of_nat n)%Z with (Z.of_nat n).
  unfold cols_of.
  case_decide as H1; case_decide as H3; try done.
  - exfalso. apply H3. split; lia.
  - exfalso. apply H1. split; lia.
Qed.

(** X22. Each column of the envelope bounds the samples it stands for:
    column [c] covers the samples from [c * step] up to (not including)
    [min(length, (c+1) * step)], its [vmin] is at most and its [vmax] at
    least each of them, and when those samples lie in [-1, 1] both are
    values of samples of the column. *)
Theorem envelope_bounds (visible : list Q) (plotW : Q) (n : nat)
    (c : Z) (vmin vmax : Q) :
  envelope visible plotW !! n = Some (c, (vmin, vmax)) ->
  let step := step_of visible plotW in
  let first := (c * step)%Z in
  let last := Z.min (len visible) ((c + 1) * step) in
  c = Z.of_nat n /\ (0 <= first < last)%Z /\
  (forall j, (first <= j < last)%Z -> vmin <= visible.[j] <= vmax) /\
  ((forall j, (first <= j < last)%Z -> -1 <= visible.[j] <= 1) ->
   (exists j, (first <= j < last)%Z /\ vmin == visible.[j]) /\
   (exists j, (first <= j < last)%Z /\ vmax == visible.[j])).
Proof.
  intros Hcol step first last. rewrite envelope_lookup in Hcol.
  destruct (decide _) as [[H1 H2]|]; [|done].
  injection Hcol as <- Hmm. fold step in H2, Hmm.
  assert (Hstep : (1 <= step)%Z) by (unfold step, step_of; lia).
  assert (Hrange : (0 <= first < last)%Z) by (subst first last; nia).
  destruct (min_max_spec visible first last ltac:(lia)) as (Hb & Hlo & Hhi).
  fold first last in Hmm. rewrite Hmm in Hb, Hlo, Hhi. simpl in Hb, Hlo, Hhi.
  split; [done|]. split; [done|]. split; [done|].
  intros Hunit. split.
  - destruct Hlo as [->|(j & Hj & ->)]; [|exists j; split; [done|reflexivity]].
    exists first. split; [lia|].
    specialize (Hb first ltac:(lia)). specialize (Hunit first ltac:(lia)). lra.
  - destruct Hhi as [->|(j & Hj & ->)]; [|exists j; split; [done|reflexivity]].
    exists first. split; [lia|].
    specialize (Hb first ltac:(lia)). specialize (Hunit first ltac:(lia)). lra.
Qed.

Lemma envelope_bounds_witness :
  let visible := [1 # 2; -1 # 2; 3 # 4; 0; 1 # 4; -3 # 4; 1 # 8] in
  let step := step_of visible 3 in
  let first := (1 * step)%Z in
  let last := Z.min (len visible) ((1 + 1) * step) in
  1%Z = Z.of_nat 1 /\ (0 <= first < last)%Z /\
  (forall j, (first <= j < last)%Z -> 0 <= visible.[j] <= 3 # 4) /\
  ((forall j, (first <= j < last)%Z -> -1 <= visible.[j] <= 1) ->
   (exists j, (first <= j < last)%Z /\ 0 == visible.[j]) /\
   (exists j, (first <= j < last)%Z /\ 3 # 4 == visible.[j])).
Proof.
  apply (envelope_bounds [1 # 2; -1 # 2; 3 # 4; 0; 1 # 4; -3 # 4; 1 # 8] 3 1
           1 0 (3 # 4)).
  reflexivity.
Defined.

(** X23. The envelope draws [min(cols, length)] columns, column [n]
    standing for the samples from [n * step]; when the window holds at
    least [cols] samples, [step] is [floor(length / cols)] and the columns
    stop at sample [cols * step]: the last [length mod cols] samples of
    the window are not drawn. *)
Theorem envelope_coverage (visible : list Q) (plotW : Q) :
  let cols := cols_of plotW in
  let step := step_of visible plotW in
  length (envelope visible plotW) = Z.to_nat (Z.min cols (len visible)) /\
  (forall (n : nat) col, envelope visible plotW !! n = Some col ->
     fst col = Z.of_nat n /\ (Z.of_nat n + 1) * step <= cols * step)%Z /\
  ((cols <= len visible)%Z ->
   (cols * step = len visible - len visible mod cols)%Z) /\
  ((len visible < cols)%Z -> step = 1%Z).
Proof.
  intros cols step.
  assert (Hcols : (1 <= cols)%Z) by (unfold cols, cols_of; lia).
  pose proof (len_nonneg visible) as Hlen.
  assert (Hbig : (cols <= len visible -> step = len visible / cols
                  /\ cols * step = len visible - len visible mod cols)%Z).
  { intros Hc. assert (1 <= len visible / cols)%Z.
    { apply Z.div_le_lower_bound; lia. }
    assert (step = len visible / cols)%Z as -> by (unfold step, step_of; fold cols; lia).
    split; [done|]. pose proof (Z.div_mod (len visible) cols ltac:(lia)). lia. }
  assert (Hsmall : (len visible < cols -> step = 1)%Z).
  { intros Hc. unfold step, step_of. fold cols.
    rewrite Z.div_small by lia. done. }
  split; [|split; [|split; [by intros Hc; apply Hbig|done]]].
  - apply Nat.le_antisymm.
    + apply Nat.nlt_ge. intros Hlt.
      destruct (lookup_lt_is_Some_2 (envelope visible plotW)
                  (Z.to_nat (Z.min cols (len visible))) Hlt) as [col Hcol].
      rewrite envelope_lookup in Hcol. fold cols step in Hcol.
      destruct (decide _) as [[H1 H2]|]; [|done].
      destruct (Z_le_gt_dec cols (len visible)) as [Hc|Hc].
      * lia.
      * rewrite (Hsmall ltac:(lia)) in H2. lia.
    + apply Nat.nlt_ge. intros Hlt.
      assert (Hnone : envelope visible plotW !! length (envelope visible plotW) = None)
        by (apply lookup_ge_None; lia).
      rewrite envelope_lookup in Hnone. fold cols step in Hnone.
      destruct (decide _) as [|Hn]; [done|]. apply Hn.
      destruct (Z_le_gt_dec cols (len visible)) as [Hc|Hc].
      * destruct (Hbig Hc) as [Hs Hcov]. split; [lia|].
        pose proof (Z.mod_pos_bound (len visible) cols ltac:(lia)).
        assert (1 <= step)%Z by (unfold step, step_of; lia). nia.
      * rewrite (Hsmall ltac:(lia)). lia.
  - intros n col Hcol. rewrite envelope_lookup in Hcol. fold cols step in Hcol.
    destruct (decide _) as [[H1 H2]|]; [|done].
    injection Hcol as <-. simpl. split; [done|].
    assert (1 <= step)%Z by (unfold step, step_of; lia). nia.
Qed.

End WaveformMore.

(** ** What the transform computes *)

Module FourierMore.
Import JS JSFacts JSMore Spectrum SpectrumFacts SpectrumMore Fourier.

(** *** Bit reversal *)

Lemma bitrev_range (b : nat) (i : Z) : 0 <= bitrev b i < 2 ^ Z.of_nat b.
Proof.
  revert i. induction b as [|b IH]; intros i; [simpl; lia|].
  cbn [bitrev]. specialize (IH (i / 2)).
  rewrite Nat2Z.inj_succ, Z.pow_succ_r by lia.
  pose proof (Z.mod_pos_bound i 2 ltac:(lia)). nia.
Qed.

Lemma bitrev_0 (b : nat) : bitrev b 0 = 0.
Proof. induction b as [|b IH]; [done|]. cbn [bitrev]. by rewrite Z.div_0_l, IH. Qed.

(** The other recursion: the top bit of [i] becomes the lowest. *)
Lemma bitrev_top (b : nat) (i : Z) :
  bitrev (Datatypes.S b) i
  = 2 * bitrev b (i mod 2 ^ Z.of_nat b) + (i / 2 ^ Z.of_nat b) mod 2.
Proof.
  revert i. induction b as [|b IH]; intros i.
  - simpl. rewrite Z.div_1_r. lia.
  - change (bitrev (Datatypes.S (Datatypes.S b)) i)
      with ((i mod 2) * 2 ^ Z.of_nat (Datatypes.S b) + bitrev (Datatypes.S b) (i / 2)).
    rewrite IH. cbn [bitrev].
    rewrite Nat2Z.inj_succ, Z.pow_succ_r by lia.
    set (P := 2 ^ Z.of_nat b). assert (0 < P) by (apply Z.pow_pos_nonneg; lia).
    assert (E1 : (i mod (2 * P)) mod 2 = i mod 2).
    { apply Z.mod_mod_divide. exists P. lia. }
    assert (E2 : (i mod (2 * P)) / 2 = (i / 2) mod P).
    { rewrite Z.rem_mul_r by lia.
      replace (i mod 2 + 2 * ((i / 2) mod P)) with ((i / 2) mod P * 2 + i mod 2) by lia.
      rewrite Z.div_add_l by lia.
      rewrite (Z.div_small (i mod 2)) by (apply Z.mod_pos_bound; lia). lia. }
    assert (E3 : i / 2 / P = i / (2 * P)) by (rewrite Z.div_div; lia).
    rewrite E1, E2, E3. lia.
Qed.

Lemma bitrev_involutive (b : nat) (i : Z) :
  0 <= i < 2 ^ Z.of_nat b -> bitrev b (bitrev b i) = i.
Proof.
  revert i. induction b as [|b IH]; intros i Hi; [simpl in *; lia|].
  rewrite bitrev_top. cbn [bitrev].
  rewrite Nat2Z.inj_succ, Z.pow_succ_r in Hi by lia.
  set (P := 2 ^ Z.of_nat b) in *.
  pose proof (bitrev_range b (i / 2)) as Hr. fold P in Hr.
  pose proof (Z.mod_pos_bound i 2 ltac:(lia)) as Hm.
  assert (E1 : (i mod 2 * P + bitrev b (i / 2)) mod P = bitrev b (i / 2)).
  { rewrite Z.add_comm, Z.mod_add by lia. apply Z.mod_small; lia. }
  assert (E2 : (i mod 2 * P + bitrev b (i / 2)) / P = i mod 2).
  { rewrite Z.add_comm, Z.div_add by lia. rewrite (Z.div_small _ P) by lia. lia. }
  rewrite E1, E2, IH.
  - rewrite Z.mod_mod by lia. pose proof (Z.div_mod i 2 ltac:(lia)). lia.
  - split; [apply Z.div_pos; lia|]. apply Z.div_lt_upper_bound; lia.
Qed.

(** [bitrev] on an even and on an odd index. *)
Lemma bitrev_even (b : nat) (n : Z) : bitrev (Datatypes.S b) (2 * n) = bitrev b n.
Proof.
  cbn [bitrev]. rewrite (Z.mul_comm 2 n), Z.mod_mul, Z.div_mul by lia. lia.
Qed.

Lemma bitrev_odd (b : nat) (n : Z) :
  bitrev (Datatypes.S b) (2 * n + 1) = 2 ^ Z.of_nat b + bitrev b n.
Proof.
  cbn [bitrev].
  replace (2 * n + 1) with (1 + n * 2) by lia.
  rewrite Z.mod_add, Z.div_add by lia.
  change (1 mod 2) with 1. change (1 / 2) with 0.
  replace (0 + n) with n by lia. lia.
Qed.

(** *** The carry loop is the increment of a reversed index *)

Lemma band_pow2_low (j : Z) (k : Z) :
  0 <= k -> 0 <= j < 2 ^ k -> Z.land j (2 ^ k) = 0.
Proof.
  intros Hk Hj. apply Z.bits_inj'. intros n Hn.
  rewrite Z.land_spec, Z.bits_0, Z.pow2_bits_eqb by lia.
  destruct (Z.eqb_spec k n) as [->|]; [|by rewrite andb_false_r].
  rewrite andb_true_r.
  destruct (Z.eq_dec j 0) as [->|]; [apply Z.bits_0|].
  apply Z.bits_above_log2; [lia|]. apply Z.log2_lt_pow2; lia.
Qed.

Lemma bits_pow2_high (j k : Z) :
  0 <= k -> 2 ^ k <= j < 2 * 2 ^ k ->
  Z.land j (2 ^ k) = 2 ^ k /\ Z.lxor j (2 ^ k) = j - 2 ^ k.
Proof.
  intros Hk Hj.
  pose proof (band_pow2_low (j - 2 ^ k) k Hk ltac:(lia)) as H0.
  assert (Hx : Z.lxor (j - 2 ^ k) (2 ^ k) = j).
  { rewrite <- Z.add_nocarry_lxor by done. lia. }
  split.
  - rewrite <- Hx at 1. apply Z.bits_inj'. intros n Hn.
    rewrite Z.land_spec, Z.lxor_spec.
    assert (Hb : Z.testbit (Z.land (j - 2 ^ k) (2 ^ k)) n = false)
      by (rewrite H0; apply Z.bits_0).
    rewrite Z.land_spec in Hb.
    destruct (Z.testbit (j - 2 ^ k) n), (Z.testbit (2 ^ k) n); done.
  - rewrite <- Hx at 1. rewrite Z.lxor_assoc, Z.lxor_nilpotent, Z.lxor_0_r. done.
Qed.

Lemma bor_pow2_low (j k : Z) :
  0 <= k -> 0 <= j < 2 ^ k -> Z.lor j (2 ^ k) = j + 2 ^ k.
Proof.
  intros Hk Hj. pose proof (band_pow2_low j k Hk Hj) as H0.
  rewrite <- Z.lxor_lor by done. by rewrite <- Z.add_nocarry_lxor.
Qed.

Lemma rev_inc_bitrev (b : nat) (i : Z) :
  0 <= i -> i + 1 < 2 ^ Z.of_nat b ->
  rev_inc b (bitrev b i) = bitrev b (i + 1).
Proof.
  revert i. induction b as [|b IH]; intros i H0 H1; [simpl in *; lia|].
  cbn [rev_inc bitrev].
  rewrite Nat2Z.inj_succ, Z.pow_succ_r in H1 by lia.
  set (P := 2 ^ Z.of_nat b) in *.
  pose proof (bitrev_range b (i / 2)) as Hr. fold P in Hr.
  pose proof (Z.div_mod i 2 ltac:(lia)) as Hdm.
  pose proof (Z.mod_pos_bound i 2 ltac:(lia)) as Hm.
  destruct (Z.eq_dec (i mod 2) 0) as [He|Ho].
  - rewrite He in *.
    replace (i + 1) with (1 + (i / 2) * 2) by lia.
    rewrite Z.mod_add, Z.div_add by lia.
    change (1 mod 2) with 1. change (1 / 2) with 0.
    destruct (Z.ltb_spec (0 * P + bitrev b (i / 2)) P); [|lia].
    replace (0 + i / 2) with (i / 2) by lia. lia.
  - assert (Hi : i mod 2 = 1) by lia. rewrite Hi in *.
    replace (i + 1) with (0 + (i / 2 + 1) * 2) by lia.
    rewrite Z.mod_add, Z.div_add by lia.
    change (0 mod 2) with 0. change (0 / 2) with 0.
    destruct (Z.ltb_spec (1 * P + bitrev b (i / 2)) P); [lia|].
    replace (1 * P + bitrev b (i / 2) - P) with (bitrev b (i / 2)) by lia.
    rewrite IH; [|apply Z.div_pos; lia|lia].
    replace (0 + (i / 2 + 1)) with (i / 2 + 1) by lia. lia.
Qed.

Lemma rev_carry_spec (b : nat) :
  forall (fuel : nat) (j : Z),
    (b <= 30)%nat -> (b < fuel)%nat -> 0 <= j < 2 ^ Z.of_nat b ->
    exists j' m', rev_carry fuel j (2 ^ Z.of_nat b / 2) = Returned (j', m')
                  /\ bor j' m' = rev_inc b j.
Proof.
  induction b as [|b IH]; intros fuel j Hb Hfuel Hj.
  - destruct fuel as [|fuel]; [lia|]. simpl in Hj.
    assert (j = 0) as -> by lia.
    exists 0, 0. split; reflexivity.
  - destruct fuel as [|fuel]; [lia|].
    rewrite Nat2Z.inj_succ, Z.pow_succ_r in * by lia.
    replace (2 * 2 ^ Z.of_nat b / 2) with (2 ^ Z.of_nat b)
      by (rewrite Z.mul_comm, Z.div_mul; lia).
    pose proof (pow2_bounds (Z.of_nat b) 30 ltac:(lia)) as HP.
    change (2 ^ 30) with 1073741824 in HP.
    set (P := 2 ^ Z.of_nat b) in *.
    unfold rev_carry. cbn [while rev_inc]. fold P.
    unfold band. rewrite !ToInt32_small by lia.
    destruct (Z.ltb_spec j P) as [Hlt|Hge].
    + assert (Hland : Z.land j P = 0) by (apply band_pow2_low; lia).
      rewrite Hland. simpl.
      exists j, P. split; [done|].
      unfold bor. rewrite !ToInt32_small by lia.
      apply bor_pow2_low; lia.
    + destruct (bits_pow2_high j (Z.of_nat b) ltac:(lia) ltac:(fold P; lia))
        as [Hand Hxor]. fold P in Hand, Hxor.
      rewrite Hand.
      destruct (Z.eqb_spec P 0) as [|_]; [lia|]. simpl.
      unfold bxor. rewrite !ToInt32_small by lia. rewrite Hxor.
      rewrite sar_1 by lia.
      apply (IH fuel (j - P)); [lia|lia|fold P; lia].
Qed.

(** An induction rule for the counted loop with a body that may fail. *)
Lemma for_upM_ind {S : Type} (P : Z -> S -> Prop) (body : Z -> S -> result S)
    (count : nat) :
  forall (i0 : Z) (s : S),
    P i0 s ->
    (forall i s, i0 <= i < i0 + Z.of_nat count -> P i s ->
       exists s', body i s = Returned s' /\ P (i + 1) s') ->
    exists s', for_upM count i0 body s = Returned s' /\ P (i0 + Z.of_nat count) s'.
Proof.
  induction count as [|count IH]; intros i0 s H0 Hstep.
  - exists s. split; [done|]. by replace (i0 + Z.of_nat 0) with i0 by lia.
  - cbn [for_upM].
    destruct (Hstep i0 s ltac:(lia) H0) as (s1 & Hb & H1).
    rewrite (bind_returned _ _ s1 Hb).
    destruct (IH (i0 + 1) s1 H1) as (s' & Hs' & HP).
    + intros i s2 Hi. apply Hstep. lia.
    + exists s'. split; [done|].
      by replace (i0 + Z.of_nat (Datatypes.S count)) with (i0 + 1 + Z.of_nat count) by lia.
Qed.

Lemma swap_cells (N i j : Z) (a : list R * list R) (p : Z) :
  lens N a -> 0 <= i < N -> 0 <= j < N ->
  let q := if (p =? j) then i else if (p =? i) then j else p in
  (fst (swap i j a)).[p] = (fst a).[q] /\ (snd (swap i j a)).[p] = (snd a).[q].
Proof.
  destruct a as [re im]. intros [Hre Him] Hi Hj. simpl in Hre, Him. cbn [swap fst snd].
  destruct (Z.eqb_spec p j) as [->|Hpj].
  - rewrite !aget_aset_eq by (rewrite ?len_aset; lia). done.
  - rewrite !(aget_aset_ne _ _ j p) by done.
    destruct (Z.eqb_spec p i) as [->|Hpi].
    + rewrite !aget_aset_eq by lia. done.
    + rewrite !aget_aset_ne by done. done.
Qed.

Lemma pow2_gt (b : nat) : Z.of_nat b < 2 ^ Z.of_nat b.
Proof. apply Z.pow_gt_lin_r; lia. Qed.

(** What the permutation loop of [fftComplex] does: cell [p] receives the
    cell at the reversed index. *)
Lemma bit_reverse_spec (fuel : nat) (K : nat) (a : list R * list R) :
  (K <= 30)%nat -> (Z.to_nat (2 ^ Z.of_nat K) < fuel)%nat ->
  lens (2 ^ Z.of_nat K) a ->
  exists j a', bit_reverse fuel (2 ^ Z.of_nat K) a = Returned (j, a') /\
    lens (2 ^ Z.of_nat K) a' /\
    forall p, 0 <= p < 2 ^ Z.of_nat K ->
      (fst a').[p] = (fst a).[bitrev K p] /\ (snd a').[p] = (snd a).[bitrev K p].
Proof.
  intros HK Hfuel Hlens.
  pose proof (pow2_bounds (Z.of_nat K) 30 ltac:(lia)) as HN.
  change (2 ^ 30) with 1073741824 in HN.
  pose proof (pow2_gt K) as HKN.
  set (N := 2 ^ Z.of_nat K) in *.
  set (src := fun (i p : Z) =>
                if (p <? i) || (bitrev K p <? i) then bitrev K p else p).
  unfold bit_reverse.
  destruct (for_upM_ind
    (fun i (s : Z * (list R * list R)) =>
       (i < N -> fst s = bitrev K i) /\ lens N (snd s) /\
       forall p, 0 <= p < N ->
         (fst (snd s)).[p] = (fst a).[src i p] /\
         (snd (snd s)).[p] = (snd a).[src i p])
    (fun i '(j, a) =>
       let a := if (i <? j)%Z then swap i j a else a in
       '(j, m) ← rev_carry fuel j (sar N 1);
       Returned (bor j m, a))
    (Z.to_nat N) 0 (0, a)) as ([j a'] & Hret & _ & Hl & Hcells).
  - split; [by rewrite bitrev_0|]. split; [done|].
    intros p Hp. unfold src. cbn [fst snd].
    destruct (Z.ltb_spec p 0); [lia|].
    pose proof (bitrev_range K p).
    destruct (Z.ltb_spec (bitrev K p) 0); [lia|]. done.
  - intros i [j a1] Hi (Hj & Hl1 & Hc). cbn [fst snd] in Hj, Hl1, Hc.
    specialize (Hj ltac:(lia)). subst j.
    pose proof (bitrev_range K i) as Hbi. fold N in Hbi.
    rewrite sar_1 by lia.
    destruct (rev_carry_spec K fuel (bitrev K i) HK ltac:(lia) Hbi)
      as (j' & m' & Hrc & Hbor). fold N in Hrc.
    rewrite (bind_returned _ _ (j', m') Hrc).
    eexists. split; [reflexivity|]. cbn [fst snd].
    split; [|split].
    + intros Hlt. rewrite Hbor. apply rev_inc_bitrev; fold N; lia.
    + destruct (i <? bitrev K i); [by apply swap_lens|done].
    + intros p Hp.
      pose proof (bitrev_range K p) as Hbp. fold N in Hbp.
      assert (Hinv : bitrev K (bitrev K p) = p) by (apply bitrev_involutive; fold N; lia).
      assert (Hinvi : bitrev K (bitrev K i) = i) by (apply bitrev_involutive; fold N; lia).
      destruct (Z.ltb_spec i (bitrev K i)) as [Hsw|Hns].
      * destruct (swap_cells N i (bitrev K i) a1 p Hl1 ltac:(lia) ltac:(lia))
          as [-> ->].
        destruct (Z.eqb_spec p (bitrev K i)) as [->|Hpj].
        -- rewrite !(proj1 (Hc i ltac:(lia))), !(proj2 (Hc i ltac:(lia))).
           unfold src. rewrite Hinvi.
           destruct (Z.ltb_spec i i); [lia|].
           destruct (Z.ltb_spec (bitrev K i) i); [lia|].
           destruct (Z.ltb_spec (bitrev K i) (i + 1)); [lia|].
           destruct (Z.ltb_spec i (i + 1)); [|lia]. done.
        -- destruct (Z.eqb_spec p i) as [->|Hpi].
           ++ rewrite !(proj1 (Hc (bitrev K i) ltac:(lia))),
                      !(proj2 (Hc (bitrev K i) ltac:(lia))).
              unfold src. rewrite Hinvi.
              destruct (Z.ltb_spec (bitrev K i) i); [lia|].
              destruct (Z.ltb_spec i i); [lia|].
              destruct (Z.ltb_spec i (i + 1)); [|lia]. done.
           ++ rewrite !(proj1 (Hc p ltac:(lia))), !(proj2 (Hc p ltac:(lia))).
              unfold src.
              assert (bitrev K p <> i) by (intros E; rewrite E in Hinv; lia).
              replace (p <? i + 1) with (p <? i) by lia.
              replace (bitrev K p <? i + 1) with (bitrev K p <? i) by lia.
              done.
      * rewrite !(proj1 (Hc p ltac:(lia))), !(proj2 (Hc p ltac:(lia))).
        unfold src.
        destruct (Z.eq_dec p i) as [->|Hpi].
        -- destruct (Z.ltb_spec i i); [lia|].
           destruct (Z.ltb_spec i (i + 1)); [|lia].
           destruct (Z.ltb_spec (bitrev K i) i); [done|].
           simpl. split; f_equal; lia.
        -- destruct (Z.eq_dec (bitrev K p) i) as [E|Hbpi].
           ++ assert (p < i) by (rewrite E in Hinv; lia).
              destruct (Z.ltb_spec p i); [|lia].
              destruct (Z.ltb_spec p (i + 1)); [|lia]. done.
           ++ replace (p <? i + 1) with (p <? i) by lia.
              replace (bitrev K p <? i + 1) with (bitrev K p <? i) by lia.
              done.
  - exists j, a'. replace (0 + Z.of_nat (Z.to_nat N)) with N in Hcells by lia.
    cbn [fst snd] in Hl, Hcells.
    split; [done|]. split; [done|].
    intros p Hp. destruct (Hcells p Hp) as [-> ->]. unfold src.
    destruct (Z.ltb_spec p N); [|lia]. done.
Qed.

(** *** Sums and the even/odd split of the transform *)

#[local] Open Scope R_scope.

Lemma sumR_ext (n : nat) (f g : nat -> R) :
  (forall i, (i < n)%nat -> f i = g i) -> sumR n f = sumR n g.
Proof.
  induction n as [|n IH]; intros H; [done|]. cbn [sumR].
  rewrite IH by (intros; apply H; lia). rewrite H by lia. done.
Qed.

Lemma sumR_plus (n : nat) (f g : nat -> R) :
  sumR n (fun i => f i + g i) = sumR n f + sumR n g.
Proof. induction n as [|n IH]; cbn [sumR]; [lra|rewrite IH; lra]. Qed.

Lemma sumR_scal (n : nat) (c : R) (f : nat -> R) :
  sumR n (fun i => c * f i) = c * sumR n f.
Proof. induction n as [|n IH]; cbn [sumR]; [lra|rewrite IH; lra]. Qed.

Lemma sumR_even_odd (m : nat) (f : nat -> R) :
  sumR (2 * m) f
  = sumR m (fun n => f (2 * n)%nat) + sumR m (fun n => f (2 * n + 1)%nat).
Proof.
  induction m as [|m IH]; [simpl; lra|].
  replace (2 * Datatypes.S m)%nat with (Datatypes.S (Datatypes.S (2 * m))) by lia.
  cbn [sumR]. rewrite IH.
  replace (Datatypes.S (2 * m)) with (2 * m + 1)%nat by lia. lra.
Qed.

Section Split.
Variables (f : nat -> R) (M : nat) (k : Z).
Hypothesis M_pos : (0 < M)%nat.

Let e := fun n : nat => f (2 * n)%nat.
Let o := fun n : nat => f (2 * n + 1)%nat.
Let phi := 2 * PI * IZR k / INR (2 * M).

Lemma INR_M_pos : 0 < INR M.
Proof using M_pos. apply lt_0_INR. lia. Qed.

Lemma angle_even (n : nat) :
  2 * PI * INR (2 * n) * IZR k / INR (2 * M) = 2 * PI * INR n * IZR k / INR M.
Proof using M_pos.
  pose proof INR_M_pos. rewrite !mult_INR. change (INR 2) with 2. field. lra.
Qed.

Lemma angle_odd (n : nat) :
  2 * PI * INR (2 * n + 1) * IZR k / INR (2 * M)
  = phi + 2 * PI * INR n * IZR k / INR M.
Proof using M_pos.
  pose proof INR_M_pos. unfold phi.
  rewrite plus_INR, !mult_INR. change (INR 2) with 2. change (INR 1) with 1.
  field. lra.
Qed.

Lemma angle_even_shift (n : nat) :
  2 * PI * INR (2 * n) * IZR (k + Z.of_nat M) / INR (2 * M)
  = 2 * PI * INR n * IZR k / INR M + 2 * INR n * PI.
Proof using M_pos.
  pose proof INR_M_pos. rewrite plus_IZR, <- INR_IZR_INZ, !mult_INR.
  change (INR 2) with 2. field. lra.
Qed.

Lemma angle_odd_shift (n : nat) :
  2 * PI * INR (2 * n + 1) * IZR (k + Z.of_nat M) / INR (2 * M)
  = phi + 2 * PI * INR n * IZR k / INR M + PI + 2 * INR n * PI.
Proof using M_pos.
  pose proof INR_M_pos. unfold phi.
  rewrite plus_IZR, <- INR_IZR_INZ, plus_INR, !mult_INR.
  change (INR 2) with 2. change (INR 1) with 1. field. lra.
Qed.

Let alpha (n : nat) := 2 * PI * INR n * IZR k / INR M.

Lemma dft_re_split :
  dft_re_of f (2 * M) k
  = dft_re_of e M k + (cos phi * dft_re_of o M k + sin phi * dft_im_of o M k).
Proof using M_pos.
  unfold dft_re_of, dft_im_of. rewrite sumR_even_odd. f_equal.
  - apply sumR_ext. intros n _. by rewrite angle_even.
  - transitivity (sumR M (fun n => cos phi * (o n * cos (alpha n))
                                   + (- sin phi) * (o n * sin (alpha n)))).
    + apply sumR_ext. intros n _. rewrite angle_odd, cos_plus.
      fold (o n) (alpha n). lra.
    + rewrite sumR_plus, !sumR_scal. unfold alpha. lra.
Qed.

Lemma dft_im_split :
  dft_im_of f (2 * M) k
  = dft_im_of e M k + (cos phi * dft_im_of o M k - sin phi * dft_re_of o M k).
Proof using M_pos.
  unfold dft_re_of, dft_im_of. rewrite sumR_even_odd.
  rewrite Ropp_plus_distr. f_equal.
  - f_equal. apply sumR_ext. intros n _. by rewrite angle_even.
  - transitivity (- sumR M (fun n => cos phi * (o n * sin (alpha n))
                                     + sin phi * (o n * cos (alpha n)))).
    + f_equal. apply sumR_ext. intros n _. rewrite angle_odd, sin_plus.
      fold (o n) (alpha n). lra.
    + rewrite sumR_plus, !sumR_scal. unfold alpha. lra.
Qed.

Lemma dft_re_split_shift :
  dft_re_of f (2 * M) (k + Z.of_nat M)
  = dft_re_of e M k - (cos phi * dft_re_of o M k + sin phi * dft_im_of o M k).
Proof using M_pos.
  unfold dft_re_of, dft_im_of. rewrite sumR_even_odd. unfold Rminus. f_equal.
  - apply sumR_ext. intros n _. by rewrite angle_even_shift, cos_period.
  - transitivity (sumR M (fun n => (- cos phi) * (o n * cos (alpha n))
                                   + sin phi * (o n * sin (alpha n)))).
    + apply sumR_ext. intros n _.
      rewrite angle_odd_shift, cos_period, neg_cos, cos_plus.
      fold (o n) (alpha n). lra.
    + rewrite sumR_plus, !sumR_scal. unfold alpha. lra.
Qed.

Lemma dft_im_split_shift :
  dft_im_of f (2 * M) (k + Z.of_nat M)
  = dft_im_of e M k - (cos phi * dft_im_of o M k - sin phi * dft_re_of o M k).
Proof using M_pos.
  unfold dft_re_of, dft_im_of. rewrite sumR_even_odd.
  rewrite Ropp_plus_distr. unfold Rminus. f_equal.
  - f_equal. apply sumR_ext. intros n _. by rewrite angle_even_shift, sin_period.
  - transitivity (- sumR M (fun n => (- cos phi) * (o n * sin (alpha n))
                                     + (- sin phi) * (o n * cos (alpha n)))).
    + f_equal. apply sumR_ext. intros n _.
      rewrite angle_odd_shift, sin_period, neg_sin, sin_plus.
      fold (o n) (alpha n). lra.
    + rewrite sumR_plus, !sumR_scal. unfold alpha. lra.
Qed.

End Split.

(** *** One block, one stage *)

Lemma butterfly_cells (N : Z) (wr wi : R) (i0 i1 : Z) (a : list R * list R)
    (p : Z) :
  lens N a -> (0 <= i0 < N)%Z -> (0 <= i1 < N)%Z -> i0 <> i1 ->
  let t := twiddled (wr, wi) a i1 in
  cell (butterfly wr wi i0 i1 a) p
  = if (p =? i0)%Z then ((fst a).[i0] + fst t, (snd a).[i0] + snd t)
    else if (p =? i1)%Z then ((fst a).[i0] - fst t, (snd a).[i0] - snd t)
    else cell a p.
Proof.
  destruct a as [re im]. intros [Hre Him] H0 H1 Hne. simpl in Hre, Him.
  unfold cell, twiddled. cbn [butterfly fst snd].
  destruct (Z.eqb_spec p i0) as [->|Hp0].
  - rewrite !aget_aset_eq by (rewrite ?len_aset; lia).
    rewrite !(aget_aset_ne _ _ i1 i0) by done. done.
  - rewrite !(aget_aset_ne _ _ i0 p) by done.
    destruct (Z.eqb_spec p i1) as [->|Hp1].
    + rewrite !aget_aset_eq by lia. done.
    + rewrite !aget_aset_ne by done. done.
Qed.

Lemma twiddle_S (wpr wpi : R) (n : nat) :
  twiddle wpr wpi (Datatypes.S n) = twiddle_next wpr wpi (twiddle wpr wpi n).
Proof. reflexivity. Qed.

Lemma block_spec (N start half : Z) (wpr wpi : R) (a : list R * list R) :
  lens N a -> (0 <= start)%Z -> (0 <= half)%Z -> (start + 2 * half <= N)%Z ->
  lens N (block start half wpr wpi a) /\
  forall p, (0 <= p < N)%Z ->
    cell (block start half wpr wpi a) p
    = if (start <=? p)%Z && (p <? start + 2 * half)%Z
      then block_cell start half (twiddle wpr wpi) a p
      else cell a p.
Proof.
  intros Hl Hs Hh Hend. unfold block.
  pose proof (for_up_ind
    (fun k (s : (R * R) * (list R * list R)) =>
       fst s = twiddle wpr wpi (Z.to_nat k) /\ lens N (snd s) /\
       forall p, (0 <= p < N)%Z ->
         cell (snd s) p
         = if ((start <=? p)%Z && (p <? start + k)%Z)
              || ((start + half <=? p)%Z && (p <? start + half + k)%Z)
           then block_cell start half (twiddle wpr wpi) a p
           else cell a p)
    (fun k '(w, a) =>
            let i0 := (start + k)%Z in
            let i1 := (i0 + half)%Z in
            (twiddle_next wpr wpi w, butterfly (fst w) (snd w) i0 i1 a))
    (Z.to_nat half) 0%Z ((1, 0), a)) as Hind.
  replace (0 + Z.of_nat (Z.to_nat half))%Z with half in Hind by lia.
  destruct Hind as (_ & Hl' & Hc).
  - split; [done|]. split; [done|]. intros p Hp. cbn [snd].
    replace ((start <=? p)%Z && (p <? start + 0)%Z
             || (start + half <=? p)%Z && (p <? start + half + 0)%Z) with false by lia.
    done.
  - intros k [w ak] Hk (Hw & Hlk & Hck). cbn [fst snd] in *.
    split; [|split].
    + replace (Z.to_nat (k + 1)) with (Datatypes.S (Z.to_nat k)) by lia.
      by rewrite twiddle_S, Hw.
    + by apply butterfly_lens.
    + intros p Hp.
      rewrite (butterfly_cells N (fst w) (snd w) (start + k) (start + k + half)
                 ak p Hlk ltac:(lia) ltac:(lia) ltac:(lia)).
      pose proof (Hck (start + k)%Z ltac:(lia)) as H0.
      pose proof (Hck (start + k + half)%Z ltac:(lia)) as H1.
      match type of H0 with _ = if ?c then _ else _ =>
        replace c with false in H0 by lia end.
      match type of H1 with _ = if ?c then _ else _ =>
        replace c with false in H1 by lia end.
      unfold cell in H0, H1.
      injection H0 as H0r H0i. injection H1 as H1r H1i.
      destruct (Z.eqb_spec p (start + k)) as [->|Hp0].
      * match goal with |- _ = if ?c then _ else _ =>
          replace c with true by lia end.
        unfold block_cell, twiddled.
        replace (start + k - start)%Z with k by lia.
        replace (k <? half)%Z with true by lia.
        cbn [fst snd]. rewrite H0r, H0i, H1r, H1i, <- Hw. done.
      * destruct (Z.eqb_spec p (start + k + half)) as [->|Hp1].
        -- match goal with |- _ = if ?c then _ else _ =>
             replace c with true by lia end.
           unfold block_cell, twiddled.
           replace (start + k + half - start)%Z with (k + half)%Z by lia.
           replace (k + half <? half)%Z with false by lia.
           replace (k + half - half)%Z with k by lia.
           replace (start + k + half - half)%Z with (start + k)%Z by lia.
           cbn [fst snd]. rewrite H0r, H0i, H1r, H1i, <- Hw. done.
        -- rewrite (Hck p Hp).
           match goal with |- (if ?c then _ else _) = if ?d then _ else _ =>
             replace d with c by lia end.
           done.
  - split; [exact Hl'|]. intros p Hp.
    etransitivity; [exact (Hc p Hp)|].
    match goal with |- (if ?c then _ else _) = if ?d then _ else _ =>
      replace d with c by lia end.
    done.
Qed.

Lemma cell_eq (a b : list R * list R) (p q : Z) :
  cell a p = cell b q ->
  (fst a).[p] = (fst b).[q] /\ (snd a).[p] = (snd b).[q].
Proof. unfold cell. intros [= -> ->]. done. Qed.

Lemma stage_spec (fuel : nat) (N size half c : Z) (wpr wpi : R)
    (a : list R * list R) :
  (1 <= half)%Z -> size = (2 * half)%Z -> (0 <= c)%Z -> N = (c * size)%Z ->
  (Z.to_nat N < fuel)%nat -> lens N a ->
  exists a', stage fuel N size half wpr wpi a = Returned a' /\ lens N a' /\
    forall p, (0 <= p < N)%Z ->
      cell a' p = block_cell (p - p mod size) half (twiddle wpr wpi) a p.
Proof.
  intros Hhalf Hsize Hc HN Hfuel Hl. unfold stage.
  set (w := while _ _ _ _).
  assert (Hw : exists s', w = Returned s' /\
    (exists b, (0 <= b <= c)%Z /\ fst s' = (b * size)%Z /\ lens N (snd s') /\
       forall p, (0 <= p < N)%Z ->
         cell (snd s') p
         = if (p <? fst s')%Z
           then block_cell (p - p mod size) half (twiddle wpr wpi) a p
           else cell a p) /\
    (fun '(start, _) => (start <? N)%Z) s' = false).
  { apply (while_total
      (fun s : Z * (list R * list R) =>
         exists b, (0 <= b <= c)%Z /\ fst s = (b * size)%Z /\ lens N (snd s) /\
           forall p, (0 <= p < N)%Z ->
             cell (snd s) p
             = if (p <? fst s)%Z
               then block_cell (p - p mod size) half (twiddle wpr wpi) a p
               else cell a p)
      (fun s => Z.to_nat (N - fst s))).
    - intros [start ac] (b & Hb & Hstart & Hlc & Hcells) Hcond.
      cbn [fst snd] in *. apply Z.ltb_lt in Hcond.
      assert (Hbc : (b < c)%Z) by nia.
      assert (Hend : (start + 2 * half <= N)%Z) by nia.
      destruct (block_spec N start half wpr wpi ac Hlc ltac:(nia) ltac:(lia) Hend)
        as [Hlb Hcb].
      eexists. split; [reflexivity|]. cbn [fst snd]. split; [|lia].
      exists (b + 1)%Z. split; [lia|]. split; [lia|]. split; [done|].
      intros p Hp. rewrite (Hcb p Hp).
      destruct (Z.ltb_spec p start) as [Hlow|Hge].
      + replace ((start <=? p)%Z && (p <? start + 2 * half)%Z) with false by lia.
        replace (p <? start + size)%Z with true by lia.
        rewrite (Hcells p Hp). by replace (p <? start)%Z with true by lia.
      + destruct (Z.ltb_spec p (start + size)) as [Hin|Hout].
        * replace ((start <=? p)%Z && (p <? start + 2 * half)%Z) with true by lia.
          assert (Hmod : (p mod size = p - start)%Z).
          { replace p with ((p - start) + b * size)%Z at 1 by lia.
            rewrite Z.mod_add by lia. apply Z.mod_small. lia. }
          rewrite Hmod. replace (p - (p - start))%Z with start by lia.
          unfold block_cell, twiddled.
          destruct (Z.ltb_spec (p - start) half) as [Hk|Hk].
          -- pose proof (Hcells p Hp) as H0.
             pose proof (Hcells (p + half)%Z ltac:(lia)) as H1.
             replace (p <? start)%Z with false in H0 by lia.
             replace (p + half <? start)%Z with false in H1 by lia.
             apply cell_eq in H0, H1. destruct H0 as [-> ->], H1 as [-> ->]. done.
          -- pose proof (Hcells p Hp) as H0.
             pose proof (Hcells (p - half)%Z ltac:(lia)) as H1.
             replace (p <? start)%Z with false in H0 by lia.
             replace (p - half <? start)%Z with false in H1 by lia.
             apply cell_eq in H0, H1. destruct H0 as [-> ->], H1 as [-> ->]. done.
        * replace ((start <=? p)%Z && (p <? start + 2 * half)%Z) with false by lia.
          rewrite (Hcells p Hp). by replace (p <? start)%Z with false by lia.
    - exists 0%Z. cbn [fst snd]. split; [nia|]. split; [lia|]. split; [done|].
      intros p Hp. by replace (p <? 0)%Z with false by lia.
    - cbn [fst]. lia. }
  destruct Hw as ([start a'] & -> & (b & Hb & Hstart & Hl' & Hcells) & Hcond).
  cbn [fst snd] in *. apply Z.ltb_ge in Hcond.
  exists a'. split; [done|]. split; [done|].
  intros p Hp. rewrite (Hcells p Hp).
  assert (start = N) by nia.
  by replace (p <? start)%Z with true by lia.
Qed.

(** *** All stages *)

Lemma pow2_nat (s : nat) : Z.of_nat (2 ^ s) = (2 ^ Z.of_nat s)%Z.
Proof. by rewrite Nat2Z.inj_pow. Qed.

Lemma pow2_nat_pos (s : nat) : (0 < 2 ^ s)%nat.
Proof. pose proof (Nat.pow_nonzero 2 s). lia. Qed.

Lemma dft_of_ext (f g : nat -> R) (M : nat) (k : Z) :
  (forall n, (n < M)%nat -> f n = g n) ->
  dft_re_of f M k = dft_re_of g M k /\ dft_im_of f M k = dft_im_of g M k.
Proof.
  intros H. unfold dft_re_of, dft_im_of.
  split; [|f_equal]; apply sumR_ext; intros n Hn; by rewrite H.
Qed.

Lemma sub_seq_even (y : Z -> R) (s : nat) (base : Z) (n : nat) :
  sub_seq y (Datatypes.S s) base (2 * n) = sub_seq y s base n.
Proof.
  unfold sub_seq. rewrite Nat2Z.inj_mul. change (Z.of_nat 2) with 2%Z.
  by rewrite bitrev_even.
Qed.

Lemma sub_seq_odd (y : Z -> R) (s : nat) (base : Z) (n : nat) :
  sub_seq y (Datatypes.S s) base (2 * n + 1)
  = sub_seq y s (base + 2 ^ Z.of_nat s) n.
Proof.
  unfold sub_seq. rewrite Nat2Z.inj_add, Nat2Z.inj_mul.
  change (Z.of_nat 2) with 2%Z. change (Z.of_nat 1) with 1%Z.
  rewrite bitrev_odd. f_equal. lia.
Qed.

Lemma twiddle_angle (s : nat) (k : Z) :
  (0 <= k)%Z ->
  let theta := -2 * PI / IZR (2 ^ Z.of_nat (Datatypes.S s)) in
  let phi := 2 * PI * IZR k / INR (2 * 2 ^ s) in
  twiddle (cos theta) (sin theta) (Z.to_nat k) = (cos phi, - sin phi).
Proof.
  intros Hk theta phi. rewrite twiddle_closed_form.
  assert (E : INR (Z.to_nat k) * theta = - phi).
  { unfold theta, phi.
    rewrite INR_IZR_INZ, Z2Nat.id by lia.
    rewrite <- pow2_nat, <- INR_IZR_INZ.
    change (2 ^ Datatypes.S s)%nat with (2 * 2 ^ s)%nat.
    pose proof (lt_0_INR (2 * 2 ^ s) ltac:(pose proof (pow2_nat_pos s); lia)).
    field. lra. }
  rewrite E, cos_neg, sin_neg. done.
Qed.

Lemma level_step (y : Z -> R) (N c : Z) (s : nat) (a a' : list R * list R) :
  (0 <= c)%Z -> N = (c * 2 ^ Z.of_nat (Datatypes.S s))%Z ->
  level y N s a ->
  let theta := -2 * PI / IZR (2 ^ Z.of_nat (Datatypes.S s)) in
  (forall p, (0 <= p < N)%Z ->
     cell a' p = block_cell (p - p mod 2 ^ Z.of_nat (Datatypes.S s))
                   (2 ^ Z.of_nat s) (twiddle (cos theta) (sin theta)) a p) ->
  level y N (Datatypes.S s) a'.
Proof.
  intros Hc HN Hlev theta Hcells b k Hb Hend Hk.
  rewrite Nat2Z.inj_succ, Z.pow_succ_r in * by lia.
  assert (HP : (0 < 2 ^ Z.of_nat s)%Z) by (apply Z.pow_pos_nonneg; lia).
  set (P := (2 ^ Z.of_nat s)%Z) in *.
  set (base := (b * (2 * P))%Z).
  assert (Hmod : ((base + k) mod (2 * P) = k)%Z).
  { unfold base. rewrite Z.add_comm, Z.mod_add by lia. apply Z.mod_small. lia. }
  rewrite Hcells by (unfold base; nia).
  rewrite Hmod. replace (base + k - k)%Z with base by lia.
  change (2 ^ Datatypes.S s)%nat with (2 * 2 ^ s)%nat.
  pose proof (pow2_nat_pos s) as HM.
  destruct (dft_of_ext (fun n => sub_seq y (Datatypes.S s) base (2 * n))
              (sub_seq y s base) (2 ^ s) k) as [Eer Eei].
  { intros n _. apply sub_seq_even. }
  destruct (dft_of_ext (fun n => sub_seq y (Datatypes.S s) base (2 * n + 1))
              (sub_seq y s (base + P)) (2 ^ s) k) as [Eor Eoi].
  { intros n _. apply sub_seq_odd. }
  unfold block_cell, twiddled.
  replace (base + k - base)%Z with k by lia.
  destruct (Z.ltb_spec k P) as [Hlow|Hhigh].
  - pose proof (Hlev (2 * b)%Z k ltac:(lia) ltac:(fold P; nia) ltac:(fold P; lia)) as He.
    pose proof (Hlev (2 * b + 1)%Z k ltac:(lia) ltac:(fold P; nia) ltac:(fold P; lia)) as Ho.
    fold P in He, Ho.
    replace (2 * b * P)%Z with base in He by (unfold base; lia).
    replace ((2 * b + 1) * P)%Z with (base + P)%Z in Ho by (unfold base; lia).
    replace (base + P + k)%Z with (base + k + P)%Z in Ho by lia.
    unfold cell in He, Ho.
    injection He as -> ->. injection Ho as -> ->.
    unfold theta. rewrite (twiddle_angle s k) by lia. cbn [fst snd].
    rewrite (dft_re_split _ _ _ HM), (dft_im_split _ _ _ HM).
    rewrite Eer, Eei, Eor, Eoi. f_equal; lra.
  - pose proof (Hlev (2 * b)%Z (k - P)%Z ltac:(lia) ltac:(fold P; nia)
                  ltac:(fold P; lia)) as He.
    pose proof (Hlev (2 * b + 1)%Z (k - P)%Z ltac:(lia) ltac:(fold P; nia)
                  ltac:(fold P; lia)) as Ho.
    fold P in He, Ho.
    replace (2 * b * P)%Z with base in He by (unfold base; lia).
    replace ((2 * b + 1) * P)%Z with (base + P)%Z in Ho by (unfold base; lia).
    replace (base + (k - P))%Z with (base + k - P)%Z in He by lia.
    replace (base + P + (k - P))%Z with (base + k)%Z in Ho by lia.
    unfold cell in He, Ho.
    injection He as -> ->. injection Ho as -> ->.
    unfold theta. rewrite (twiddle_angle s (k - P)) by lia. cbn [fst snd].
    assert (Ek : ((k - P) + Z.of_nat (2 ^ s))%Z = k) by (rewrite pow2_nat; fold P; lia).
    pose proof (dft_re_split_shift (sub_seq y (Datatypes.S s) base) _ (k - P) HM) as Hre.
    pose proof (dft_im_split_shift (sub_seq y (Datatypes.S s) base) _ (k - P) HM) as Him.
    rewrite Ek in Hre, Him. rewrite Hre, Him.
    destruct (dft_of_ext (fun n => sub_seq y (Datatypes.S s) base (2 * n))
                (sub_seq y s base) (2 ^ s) (k - P)) as [Eer' Eei'].
    { intros n _. apply sub_seq_even. }
    destruct (dft_of_ext (fun n => sub_seq y (Datatypes.S s) base (2 * n + 1))
                (sub_seq y s (base + P)) (2 ^ s) (k - P)) as [Eor' Eoi'].
    { intros n _. apply sub_seq_odd. }
    rewrite Eer', Eei', Eor', Eoi'. f_equal; lra.
Qed.

Lemma level_0 (y : Z -> R) (N : Z) (a : list R * list R) :
  (forall p, (0 <= p < N)%Z -> cell a p = (y p, 0)) -> level y N 0 a.
Proof.
  intros Hy b k Hb Hend Hk. change (2 ^ Z.of_nat 0)%Z with 1%Z in *.
  assert (k = 0%Z) as -> by lia.
  rewrite Hy by lia.
  unfold dft_re_of, dft_im_of, sub_seq. cbn [sumR Nat.pow bitrev].
  change (INR 0) with 0.
  replace (2 * PI * 0 * 0 / INR 1) with 0 by (simpl; field).
  rewrite cos_0, sin_0. f_equal; lra.
Qed.

Lemma stages_spec (fuel : nat) (K : nat) (y : Z -> R) (a : list R * list R) :
  (K <= 29)%nat -> (Z.to_nat (2 ^ Z.of_nat K) < fuel)%nat ->
  lens (2 ^ Z.of_nat K) a ->
  (forall p, (0 <= p < 2 ^ Z.of_nat K)%Z -> cell a p = (y p, 0)) ->
  exists a', stages fuel (2 ^ Z.of_nat K) a = Returned a' /\
    lens (2 ^ Z.of_nat K) a' /\ level y (2 ^ Z.of_nat K) K a'.
Proof.
  intros HK Hfuel Hl Hy.
  pose proof (pow2_gt K) as HKN.
  set (N := (2 ^ Z.of_nat K)%Z) in *.
  unfold stages. set (w := while _ _ _ _).
  assert (Hw : exists s', w = Returned s' /\
    (exists s : nat, (s <= K)%nat /\ fst s' = (2 ^ Z.of_nat (Datatypes.S s))%Z /\
       lens N (snd s') /\ level y N s (snd s')) /\
    (fun '(size, _) => (size <=? N)%Z) s' = false).
  { apply (while_total
      (fun st : Z * (list R * list R) =>
         exists s : nat, (s <= K)%nat /\ fst st = (2 ^ Z.of_nat (Datatypes.S s))%Z /\
           lens N (snd st) /\ level y N s (snd st))
      (fun st => Z.to_nat (Z.of_nat K + 1 - Z.log2 (fst st)))).
    - intros [size a1] (s & Hs & Hsize & Hl1 & Hlev) Hcond.
      cbn [fst snd] in *. apply Z.leb_le in Hcond. subst size.
      assert (HsK : (s < K)%nat).
      { unfold N in Hcond. apply Z.pow_le_mono_r_iff in Hcond; lia. }
      pose proof (pow2_bounds (Z.of_nat (Datatypes.S s)) 29 ltac:(lia)) as Hb.
      change (2 ^ 29)%Z with 536870912%Z in Hb.
      assert (Hhalf : sar (2 ^ Z.of_nat (Datatypes.S s)) 1 = (2 ^ Z.of_nat s)%Z).
      { rewrite sar_1 by lia. rewrite Nat2Z.inj_succ, Z.pow_succ_r by lia.
        rewrite Z.mul_comm, Z.div_mul; lia. }
      rewrite Hhalf.
      assert (HP : (0 < 2 ^ Z.of_nat s)%Z) by (apply Z.pow_pos_nonneg; lia).
      assert (HNc : N = (2 ^ Z.of_nat (K - Datatypes.S s)
                         * 2 ^ Z.of_nat (Datatypes.S s))%Z).
      { unfold N. rewrite <- Z.pow_add_r by lia. f_equal. lia. }
      destruct (stage_spec fuel N (2 ^ Z.of_nat (Datatypes.S s)) (2 ^ Z.of_nat s)
                  (2 ^ Z.of_nat (K - Datatypes.S s))
                  (cos (-2 * PI / IZR (2 ^ Z.of_nat (Datatypes.S s))))
                  (sin (-2 * PI / IZR (2 ^ Z.of_nat (Datatypes.S s)))) a1)
        as (a2 & Hst & Hl2 & Hcells); [lia| |apply Z.pow_nonneg; lia|done..|].
      { rewrite Nat2Z.inj_succ, Z.pow_succ_r by lia. done. }
      rewrite (bind_returned _ _ a2 Hst).
      eexists. split; [reflexivity|]. cbn [fst snd].
      assert (Hshl : shl (2 ^ Z.of_nat (Datatypes.S s)) 1
                     = (2 ^ Z.of_nat (Datatypes.S (Datatypes.S s)))%Z).
      { rewrite shl_pow2_1 by lia. f_equal. lia. }
      split.
      + exists (Datatypes.S s). split; [lia|]. split; [done|]. split; [done|].
        eapply (level_step y N _ s a1 a2); [|exact HNc|exact Hlev|exact Hcells].
        apply Z.pow_nonneg. lia.
      + rewrite Hshl, !Z.log2_pow2 by lia. lia.
    - exists 0%nat. cbn [fst snd]. split; [lia|]. split; [done|]. split; [done|].
      by apply level_0.
    - cbn [fst]. change (Z.log2 2) with 1%Z. lia. }
  destruct Hw as ([size a'] & -> & (s & Hs & Hsize & Hl' & Hlev) & Hcond).
  cbn [fst snd] in *. apply Z.leb_gt in Hcond. subst size.
  assert (s = K).
  { unfold N in Hcond. apply Z.pow_lt_mono_r_iff in Hcond; lia. }
  subst s. exists a'. done.
Qed.

(** *** The transform *)

Lemma aget_replicate_0 (m : nat) (i : Z) : (replicate m 0).[i] = 0.
Proof.
  unfold aget, aget_opt. destruct (i <? 0)%Z; [done|].
  destruct (replicate m 0 !! Z.to_nat i) eqn:E; [|done].
  apply lookup_replicate in E as [-> _]. done.
Qed.

Lemma aget_app_zeros (x : list R) (m : nat) (i : Z) :
  (x ++ replicate m 0).[i] = x.[i].
Proof.
  unfold aget, aget_opt. destruct (i <? 0)%Z; [done|].
  destruct (decide (Z.to_nat i < length x)%nat) as [Hlt|Hge].
  - by rewrite lookup_app_l.
  - rewrite lookup_app_r by lia. rewrite (lookup_ge_None_2 x) by lia.
    destruct (replicate m 0 !! _) eqn:E; [|done].
    apply lookup_replicate in E as [-> _]. done.
Qed.

Lemma fftComplex_dft (fuel : nat) (realIn : list R) :
  (len realIn <= 2 ^ 29)%Z ->
  (Z.to_nat (nextPow2 (len realIn)) < fuel)%nat ->
  let N := nextPow2 (len realIn) in
  exists re im, fftComplex fuel realIn = Returned (re, im) /\
    len re = N /\ len im = N /\
    forall k, (0 <= k < N)%Z ->
      re.[k] = dft_re realIn N k /\ im.[k] = dft_im realIn N k.
Proof.
  intros Hlen Hfuel N.
  destruct (fftComplex_returns fuel realIn Hlen Hfuel) as (_ & Heq & _).
  destruct (nextPow2_spec (len realIn)) as (k0 & Hk0 & HN & Hle & Hk29).
  { pose proof (len_nonneg realIn). lia. }
  specialize (Hk29 Hlen). fold N in Heq, Hfuel, HN.
  set (K := Z.to_nat k0).
  assert (HNK : N = (2 ^ Z.of_nat K)%Z) by (unfold K; rewrite Z2Nat.id by lia; done).
  set (padded := (realIn ++ replicate (Z.to_nat (N - len realIn)) 0,
                  replicate (Z.to_nat N) 0)) in Heq.
  assert (Hlp : lens N padded).
  { split; cbn [fst snd padded].
    - rewrite len_app, len_replicate; lia.
    - apply len_replicate. lia. }
  rewrite HNK in Hlp, Hfuel.
  destruct (bit_reverse_spec fuel K padded ltac:(lia) Hfuel Hlp)
    as (j & a1 & Hbr & Hl1 & Hc1).
  destruct (stages_spec fuel K (fun p => (fst a1).[p]) a1 ltac:(lia) Hfuel Hl1)
    as (a' & Hst & Hl' & Hlev).
  { intros p Hp. unfold cell. f_equal.
    rewrite (proj2 (Hc1 p Hp)). apply aget_replicate_0. }
  rewrite Heq, HNK, (bind_returned _ _ (j, a1) Hbr). cbn beta iota.
  destruct a' as [re im]. exists re, im. split; [exact Hst|].
  destruct Hl' as [Hlr Hli]. cbn [fst snd] in Hlr, Hli.
  split; [done|]. split; [done|].
  intros k Hk.
  assert (HP : (0 < 2 ^ Z.of_nat K)%Z) by (apply Z.pow_pos_nonneg; lia).
  pose proof (Hlev 0%Z k ltac:(lia) ltac:(lia) Hk) as Hcell.
  replace (0 * 2 ^ Z.of_nat K + k)%Z with k in Hcell by lia.
  unfold cell in Hcell. cbn [fst snd] in Hcell. injection Hcell as -> ->.
  unfold dft_re, dft_im.
  replace (Z.to_nat (2 ^ Z.of_nat K)) with (2 ^ K)%nat
    by (rewrite <- pow2_nat; lia).
  apply dft_of_ext. intros n Hn. unfold sub_seq.
  assert (Hn' : (0 <= Z.of_nat n < 2 ^ Z.of_nat K)%Z) by (rewrite <- pow2_nat; lia).
  pose proof (bitrev_range K (Z.of_nat n)) as Hr.
  replace (0 * 2 ^ Z.of_nat K + bitrev K (Z.of_nat n))%Z
    with (bitrev K (Z.of_nat n)) by lia.
  rewrite (proj1 (Hc1 _ Hr)), bitrev_involutive by done.
  apply aget_app_zeros.
Qed.

Lemma bitrev_testbit (K : nat) :
  forall p i : Z, (0 <= i < Z.of_nat K)%Z ->
    Z.testbit (bitrev K p) i = Z.testbit p (Z.of_nat K - 1 - i).
Proof.
  induction K as [|b IH]; intros p i Hi; [lia|].
  cbn [bitrev]. pose proof (bitrev_range b (p / 2)) as Hr.
  destruct (Z.eq_dec i (Z.of_nat b)) as [->|Hne].
  - replace (Z.of_nat (Datatypes.S b) - 1 - Z.of_nat b)%Z with 0%Z by lia.
    apply (Z.testbit_unique _ _ _ (bitrev b (p / 2)) 0); [done|].
    rewrite Z.bit0_mod. lia.
  - rewrite <- (Z.mod_pow2_bits_low _ (Z.of_nat b)) by lia.
    rewrite Z.add_comm, Z.mod_add by lia.
    rewrite Z.mod_small by done.
    rewrite IH by lia. rewrite Z.div2_bits by lia. f_equal. lia.
Qed.

Lemma sumR_zero_tail (f : nat -> R) (L n : nat) :
  (L <= n)%nat -> (forall i, (L <= i)%nat -> f i = 0) -> sumR n f = sumR L f.
Proof.
  intros HL H0. induction n as [|n IH].
  - by replace L with 0%nat by lia.
  - destruct (decide (L = Datatypes.S n)) as [->|Hne]; [done|].
    cbn [sumR]. rewrite IH by lia. rewrite H0 by lia. lra.
Qed.

Lemma aget_past_end (x : list R) (i : Z) : (len x <= i)%Z -> x.[i] = 0.
Proof.
  intros Hi. unfold aget, aget_opt. destruct (i <? 0)%Z; [done|].
  rewrite lookup_ge_None_2; [done|]. unfold len in Hi. lia.
Qed.

(** X24. The first loop of [fftComplex] is the bit-reversal permutation:
    on arrays of [2^K] cells it returns, and cell [p] of each array then
    holds what cell [bitrev K p] held, where [bitrev K p] is an index of
    the array, is its own inverse, and has bit [i] equal to bit
    [K - 1 - i] of [p]. *)
Theorem bit_reverse_permutes (fuel : nat) (K : nat) (a : list R * list R) :
  (K <= 30)%nat -> (Z.to_nat (2 ^ Z.of_nat K) < fuel)%nat ->
  lens (2 ^ Z.of_nat K) a ->
  exists j a', bit_reverse fuel (2 ^ Z.of_nat K) a = Returned (j, a') /\
    lens (2 ^ Z.of_nat K) a' /\
    forall p, (0 <= p < 2 ^ Z.of_nat K)%Z ->
      (fst a').[p] = (fst a).[bitrev K p] /\
      (snd a').[p] = (snd a).[bitrev K p] /\
      (0 <= bitrev K p < 2 ^ Z.of_nat K)%Z /\
      bitrev K (bitrev K p) = p /\
      forall i, (0 <= i < Z.of_nat K)%Z ->
        Z.testbit (bitrev K p) i = Z.testbit p (Z.of_nat K - 1 - i).
Proof.
  intros HK Hfuel Hl.
  destruct (bit_reverse_spec fuel K a HK Hfuel Hl) as (j & a' & Hbr & Hl' & Hc).
  exists j, a'. split; [done|]. split; [done|].
  intros p Hp. destruct (Hc p Hp) as [Hre Him].
  split; [done|]. split; [done|]. split; [apply bitrev_range|].
  split; [by apply bitrev_involutive|]. intros i Hi. by apply bitrev_testbit.
Qed.

Lemma bit_reverse_permutes_witness :
  let a := ([10; 11; 12; 13; 14; 15; 16; 17], [20; 21; 22; 23; 24; 25; 26; 27]) in
  exists j a', bit_reverse 9 (2 ^ Z.of_nat 3) a = Returned (j, a') /\
    lens (2 ^ Z.of_nat 3) a' /\
    forall p, (0 <= p < 2 ^ Z.of_nat 3)%Z ->
      (fst a').[p] = (fst a).[bitrev 3 p] /\
      (snd a').[p] = (snd a).[bitrev 3 p] /\
      (0 <= bitrev 3 p < 2 ^ Z.of_nat 3)%Z /\
      bitrev 3 (bitrev 3 p) = p /\
      forall i, (0 <= i < Z.of_nat 3)%Z ->
        Z.testbit (bitrev 3 p) i = Z.testbit p (Z.of_nat 3 - 1 - i).
Proof.
  apply (bit_reverse_permutes 9 3); [lia|vm_compute; lia|split; reflexivity].
Defined.

(** X25. [fftComplex] computes the discrete Fourier transform of its
    input, zero-padded to [N = nextPow2(length)] samples: bin [k] holds
    the real part [sum x[n] cos(2 pi n k / N)] and the imaginary part
    [- sum x[n] sin(2 pi n k / N)] of [sum x[n] exp(-2 pi i n k / N)], the
    sums running over the samples of the input.  (Over the reals: the
    rounding of floating point is not modelled.) *)
Theorem fftComplex_is_dft (fuel : nat) (realIn : list R) :
  (len realIn <= 2 ^ 29)%Z ->
  (Z.to_nat (nextPow2 (len realIn)) < fuel)%nat ->
  let N := nextPow2 (len realIn) in
  exists re im, fftComplex fuel realIn = Returned (re, im) /\
    len re = N /\ len im = N /\
    forall k, (0 <= k < N)%Z ->
      re.[k] = sumR (length realIn)
                 (fun n => realIn.[Z.of_nat n] * cos (2 * PI * INR n * IZR k / IZR N)) /\
      im.[k] = - sumR (length realIn)
                 (fun n => realIn.[Z.of_nat n] * sin (2 * PI * INR n * IZR k / IZR N)).
Proof.
  intros Hlen Hfuel N.
  destruct (fftComplex_dft fuel realIn Hlen Hfuel) as (re & im & Hret & Hlr & Hli & Hk).
  exists re, im. split; [done|]. split; [done|]. split; [done|].
  intros k Hkr. destruct (Hk k Hkr) as [-> ->]. fold N.
  assert (HN : (len realIn <= N)%Z).
  { unfold N. apply nextPow2_nonneg_upto_2_30.
    pose proof (len_nonneg realIn). lia. }
  assert (HNR : INR (Z.to_nat N) = IZR N).
  { rewrite INR_IZR_INZ, Z2Nat.id; [done|]. pose proof (len_nonneg realIn). lia. }
  unfold dft_re, dft_im, dft_re_of, dft_im_of. rewrite HNR.
  unfold len in HN.
  split; [|f_equal]; apply sumR_zero_tail; try lia.
  - intros i Hi. rewrite aget_past_end by (unfold len; lia). lra.
  - intros i Hi. rewrite aget_past_end by (unfold len; lia). lra.
Qed.

Lemma fftComplex_is_dft_witness :
  let realIn := [1; 2; 3] in
  let N := nextPow2 (len realIn) in
  exists re im, fftComplex 5 realIn = Returned (re, im) /\
    len re = N /\ len im = N /\
    forall k, (0 <= k < N)%Z ->
      re.[k] = sumR (length realIn)
                 (fun n => realIn.[Z.of_nat n] * cos (2 * PI * INR n * IZR k / IZR N)) /\
      im.[k] = - sumR (length realIn)
                 (fun n => realIn.[Z.of_nat n] * sin (2 * PI * INR n * IZR k / IZR N)).
Proof.
  apply (fftComplex_is_dft 5 [1; 2; 3]); vm_compute; [discriminate|lia].
Defined.

Lemma dft_mirror (f : nat -> R) (M : nat) (k : Z) :
  (0 < M)%nat ->
  dft_re_of f M (Z.of_nat M - k) = dft_re_of f M k /\
  dft_im_of f M (Z.of_nat M - k) = - dft_im_of f M k.
Proof.
  intros HM. pose proof (lt_0_INR M HM) as HMR.
  assert (Hang : forall n : nat,
    2 * PI * INR n * IZR (Z.of_nat M - k) / INR M
    = - (2 * PI * INR n * IZR k / INR M) + 2 * INR n * PI).
  { intros n. rewrite minus_IZR, <- INR_IZR_INZ. field. lra. }
  unfold dft_re_of, dft_im_of. split.
  - apply sumR_ext. intros n _. by rewrite Hang, cos_period, cos_neg.
  - rewrite Ropp_involutive.
    transitivity (- sumR M (fun n => -1 * (f n * sin (2 * PI * INR n * IZR k / INR M)))).
    + f_equal. apply sumR_ext. intros n _. rewrite Hang, sin_period, sin_neg. lra.
    + rewrite sumR_scal. lra.
Qed.

Lemma dft_dc (f : nat -> R) (M : nat) :
  (0 < M)%nat -> dft_re_of f M 0 = sumR M f /\ dft_im_of f M 0 = 0.
Proof.
  intros HM. pose proof (lt_0_INR M HM) as HMR.
  assert (Hang : forall n : nat, 2 * PI * INR n * 0 / INR M = 0)
    by (intros; field; lra).
  unfold dft_re_of, dft_im_of. split.
  - apply sumR_ext. intros n _. rewrite Hang, cos_0. lra.
  - rewrite (sumR_ext M _ (fun n => 0 * f n)).
    + rewrite sumR_scal. lra.
    + intros n _. rewrite Hang, sin_0. lra.
Qed.



Lemma nextPow2_log2 (n : Z) :
  (0 <= n <= 2 ^ 30)%Z ->
  nextPow2 n = (2 ^ (Z.log2 (Z.max 1 (n - 1)) + 1))%Z.
Proof.
  intros Hn. change (2 ^ 30)%Z with 1073741824%Z in Hn. unfold nextPow2.
  set (m := Z.max 1 (n - 1)).
  assert (Hm : (1 <= m < 1073741824)%Z) by (unfold m; lia).
  rewrite clz32_small by lia.
  pose proof (Z.log2_nonneg m).
  assert (Z.log2 m < 30)%Z.
  { apply Z.log2_lt_pow2; [lia|]. change (2 ^ 30)%Z with 1073741824%Z. lia. }
  replace (32 - (31 - Z.log2 m))%Z with (Z.log2 m + 1)%Z by lia.
  apply shl_1_pow2. lia.
Qed.

Lemma initial_fftSize_pow2 (samples : list R) :
  exists k : Z, (1 <= k <= 15)%Z /\ initial_fftSize samples = (2 ^ k)%Z.
Proof.
  unfold initial_fftSize. change (shl 1 15) with 32768%Z.
  pose proof (len_nonneg samples) as Hl.
  set (n := Z.min (len samples) 32768).
  rewrite nextPow2_log2 by (change (2 ^ 30)%Z with 1073741824%Z; lia).
  set (m := Z.max 1 (n - 1)).
  assert (Hm : (1 <= m < 32768)%Z) by (unfold m, n; lia).
  exists (Z.log2 m + 1)%Z. split; [|done].
  pose proof (Z.log2_nonneg m).
  assert (Z.log2 m < 15)%Z; [|lia].
  apply Z.log2_lt_pow2; [lia|]. change (2 ^ 15)%Z with 32768%Z. lia.
Qed.

(** X27. Every size [SpectrumCanvas] can hold in [fftSize], its initial
    state or an option of its selector, is a power of two from [2] to
    [32768]; [nextPow2] leaves it unchanged, so the transform has that
    size, and the spectrum computation returns [fftSize / 2] magnitudes
    without raising. *)
Theorem fftSize_is_pow2 (samples : list R) (sampleRate : R) (N : Z)
    (w : windowing) (fuel : nat) :
  N = initial_fftSize samples \/ N ∈ fftSize_options ->
  (Z.to_nat N < fuel)%nat ->
  (exists k : Z, (1 <= k <= 15)%Z /\ N = (2 ^ k)%Z) /\
  nextPow2 N = N /\
  exists frame,
    analyze fuel samples sampleRate N w = Returned frame /\
    len (mags frame) = (N / 2)%Z /\ binHz frame = sampleRate / IZR N.
Proof.
  intros HN Hfuel.
  assert (Hk : exists k : Z, (1 <= k <= 15)%Z /\ N = (2 ^ k)%Z).
  { destruct HN as [->|Hin]; [apply initial_fftSize_pow2|].
    assert (Hopt : fftSize_options = [1024; 2048; 4096; 8192; 16384; 32768]%Z)
      by reflexivity.
    rewrite Hopt in Hin.
    repeat (apply elem_of_cons in Hin as [->|Hin]); [..|by apply elem_of_nil in Hin].
    - by exists 10%Z.
    - by exists 11%Z.
    - by exists 12%Z.
    - by exists 13%Z.
    - by exists 14%Z.
    - by exists 15%Z. }
  destruct Hk as (k & Hk & ->).
  pose proof (pow2_bounds k 15 ltac:(lia)) as Hb. change (2 ^ 15)%Z with 32768%Z in Hb.
  assert (Hnp : nextPow2 (2 ^ k) = (2 ^ k)%Z) by (apply nextPow2_pow2; lia).
  split; [by exists k|]. split; [done|].
  destruct (analyze_spec fuel samples sampleRate (2 ^ k) w)
    as (x & re & im & mg & _ & _ & _ & _ & _ & Han & Hlm & _).
  { change (2 ^ 29)%Z with 536870912%Z. lia. }
  { by rewrite Hnp. }
  eexists. split; [exact Han|]. done.
Qed.

Lemma fftSize_is_pow2_witness :
  (exists k : Z, (1 <= k <= 15)%Z /\ 4096%Z = (2 ^ k)%Z) /\
  nextPow2 4096 = 4096%Z /\
  exists frame,
    analyze (Z.to_nat 4097) [1; 2; 3] 48000 4096 hann = Returned frame /\
    len (mags frame) = (4096 / 2)%Z /\ binHz frame = 48000 / IZR 4096.
Proof.
  apply (fftSize_is_pow2 [1; 2; 3] 48000 4096 hann (Z.to_nat 4097)); [|lia].
  right. assert (Hopt : fftSize_options = [1024; 2048; 4096; 8192; 16384; 32768]%Z)
    by reflexivity.
  rewrite Hopt. repeat constructor.
Defined.

(** X28. The spectrum of a real input is mirrored: bin [0] is the sum of
    the samples, with no imaginary part, and bin [N - k] is the complex
    conjugate of bin [k], so both have the same magnitude; the upper half
    of the bins, which the callers leave out, repeats the lower half.
    (Over the reals: the rounding of floating point is not modelled.) *)
Theorem spectrum_mirrored (fuel : nat) (realIn : list R) :
  (len realIn <= 2 ^ 29)%Z ->
  (Z.to_nat (nextPow2 (len realIn)) < fuel)%nat ->
  let N := nextPow2 (len realIn) in
  exists re im, fftComplex fuel realIn = Returned (re, im) /\
    re.[0] = sumR (length realIn) (fun n => realIn.[Z.of_nat n]) /\
    im.[0] = 0 /\
    forall k, (0 < k < N)%Z ->
      re.[N - k] = re.[k] /\ im.[N - k] = - im.[k] /\
      hypot re.[N - k] im.[N - k] = hypot re.[k] im.[k].
Proof.
  intros Hlen Hfuel N.
  destruct (fftComplex_dft fuel realIn Hlen Hfuel) as (re & im & Hret & Hlr & Hli & Hk).
  fold N in Hk.
  destruct (nextPow2_spec (len realIn)) as (k0 & Hk0 & HN & Hle & _).
  { pose proof (len_nonneg realIn). lia. }
  fold N in HN, Hle.
  pose proof (pow2_bounds k0 30 ltac:(lia)) as HNpos. rewrite <- HN in HNpos.
  assert (HM : (0 < Z.to_nat N)%nat) by lia.
  exists re, im. split; [done|].
  destruct (Hk 0%Z ltac:(lia)) as [-> ->]. unfold dft_re, dft_im.
  destruct (dft_dc (fun n => realIn.[Z.of_nat n]) (Z.to_nat N) HM) as [-> ->].
  split.
  { apply sumR_zero_tail; [unfold len in Hle; lia|].
    intros i Hi. apply aget_past_end. unfold len. lia. }
  split; [done|].
  intros k Hkr.
  destruct (Hk k ltac:(lia)) as [-> ->], (Hk (N - k)%Z ltac:(lia)) as [-> ->].
  unfold dft_re, dft_im.
  destruct (dft_mirror (fun n => realIn.[Z.of_nat n]) (Z.to_nat N) k HM) as [Er Ei].
  rewrite Z2Nat.id in Er, Ei by lia. rewrite Er, Ei.
  split; [done|]. split; [done|]. unfold hypot. f_equal. ring.
Qed.

Lemma spectrum_mirrored_witness :
  let realIn := [1; 2; 3] in
  let N := nextPow2 (len realIn) in
  exists re im, fftComplex 5 realIn = Returned (re, im) /\
    re.[0] = sumR (length realIn) (fun n => realIn.[Z.of_nat n]) /\
    im.[0] = 0 /\
    forall k, (0 < k < N)%Z ->
      re.[N - k] = re.[k] /\ im.[N - k] = - im.[k] /\
      hypot re.[N - k] im.[N - k] = hypot re.[k] im.[k].
Proof.
  apply (spectrum_mirrored 5 [1; 2; 3]); vm_compute; [discriminate|lia].
Defined.

End FourierMore.

(** ** The bins in view *)

Module SpectrumViewMore.
Import JS JSFacts Sampling SamplingFacts SamplingMore SpectrumView.
#[local] Open Scope Q_scope.




End SpectrumViewMore.

(** ** A sinusoid at a bin frequency *)

Module ToneMore.
Import JS JSFacts JSMore Spectrum SpectrumFacts SpectrumMore Fourier FourierMore.
#[local] Open Scope R_scope.

(** *** Sums of cosines and sines over a full turn *)

Lemma sum_cos_telescope (theta : R) (n : nat) :
  2 * sin (theta / 2) * sumR n (fun i => cos (INR i * theta))
  = sin (INR n * theta - theta / 2) + sin (theta / 2).
Proof.
  induction n as [|n IH].
  - cbn [sumR]. change (INR 0) with 0.
    replace (0 * theta - theta / 2) with (- (theta / 2)) by lra.
    rewrite sin_neg. lra.
  - cbn [sumR]. rewrite Rmult_plus_distr_l, IH, S_INR.
    replace ((INR n + 1) * theta - theta / 2) with (INR n * theta + theta / 2) by lra.
    rewrite sin_plus, sin_minus. lra.
Qed.

Lemma sum_sin_telescope (theta : R) (n : nat) :
  2 * sin (theta / 2) * sumR n (fun i => sin (INR i * theta))
  = cos (theta / 2) - cos (INR n * theta - theta / 2).
Proof.
  induction n as [|n IH].
  - cbn [sumR]. change (INR 0) with 0.
    replace (0 * theta - theta / 2) with (- (theta / 2)) by lra.
    rewrite cos_neg. lra.
  - cbn [sumR]. rewrite Rmult_plus_distr_l, IH, S_INR.
    replace ((INR n + 1) * theta - theta / 2) with (INR n * theta + theta / 2) by lra.
    rewrite cos_plus, cos_minus. lra.
Qed.

Lemma full_turn_sums (M : nat) (j : Z) :
  (0 < j < Z.of_nat M)%Z ->
  let theta := 2 * PI * IZR j / INR M in
  sumR M (fun i => cos (INR i * theta)) = 0 /\
  sumR M (fun i => sin (INR i * theta)) = 0.
Proof.
  intros Hj theta.
  assert (HM : 0 < INR M) by (apply lt_0_INR; lia).
  assert (Hj0 : 0 < IZR j) by (apply IZR_lt; lia).
  assert (HjM : IZR j < INR M) by (rewrite INR_IZR_INZ; apply IZR_lt; lia).
  assert (Hhalf : 0 < theta / 2 < PI).
  { unfold theta. pose proof PI_RGT_0. split.
    - apply Rdiv_lt_0_compat; [|lra]. apply Rdiv_lt_0_compat; [nra|done].
    - replace (2 * PI * IZR j / INR M / 2) with (PI * (IZR j / INR M)) by (field; lra).
      rewrite <- (Rmult_1_r PI) at 2. apply Rmult_lt_compat_l; [done|].
      replace 1 with (INR M / INR M) by (field; lra).
      unfold Rdiv. apply Rmult_lt_compat_r; [|done].
      by apply Rinv_0_lt_compat. }
  assert (Hs : 0 < sin (theta / 2)) by (apply sin_gt_0; lra).
  assert (Hturn : INR M * theta - theta / 2 = - (theta / 2) + 2 * IZR j * PI).
  { unfold theta. field. lra. }
  pose proof (sum_cos_telescope theta M) as Hc.
  pose proof (sum_sin_telescope theta M) as Hsn.
  rewrite Hturn in Hc, Hsn.
  assert (Hper_s : sin (- (theta / 2) + 2 * IZR j * PI) = - sin (theta / 2)).
  { rewrite <- (Z2Nat.id j) by lia. rewrite <- INR_IZR_INZ, sin_period, sin_neg. done. }
  assert (Hper_c : cos (- (theta / 2) + 2 * IZR j * PI) = cos (theta / 2)).
  { rewrite <- (Z2Nat.id j) by lia. rewrite <- INR_IZR_INZ, cos_period, cos_neg. done. }
  rewrite Hper_s in Hc. rewrite Hper_c in Hsn.
  split; nra.
Qed.

Lemma sumR_const (n : nat) (c : R) : sumR n (fun _ => c) = INR n * c.
Proof.
  induction n as [|n IH]; [simpl; lra|]. cbn [sumR]. rewrite IH, S_INR. lra.
Qed.

(** Over a whole number of periods the squares of a cosine and of a sine
    add up to half the number of samples, and their product to zero. *)
Lemma tone_sums (M : nat) (m : Z) :
  (0 < 2 * m < Z.of_nat M)%Z ->
  let alpha := fun n : nat => 2 * PI * INR n * IZR m / INR M in
  sumR M (fun n => cos (alpha n) * cos (alpha n)) = INR M / 2 /\
  sumR M (fun n => sin (alpha n) * sin (alpha n)) = INR M / 2 /\
  sumR M (fun n => sin (alpha n) * cos (alpha n)) = 0.
Proof.
  intros Hm alpha.
  assert (HM : 0 < INR M) by (apply lt_0_INR; lia).
  destruct (full_turn_sums M (2 * m) Hm) as [Hc Hs].
  assert (Hdouble : forall n : nat,
    INR n * (2 * PI * IZR (2 * m) / INR M) = 2 * alpha n).
  { intros n. unfold alpha. rewrite mult_IZR. field. lra. }
  split; [|split].
  - rewrite (sumR_ext M _ (fun n => / 2 * 1
                + / 2 * cos (INR n * (2 * PI * IZR (2 * m) / INR M)))).
    + rewrite sumR_plus, sumR_const, sumR_scal, Hc. lra.
    + intros n _. rewrite Hdouble, cos_2a_cos. lra.
  - rewrite (sumR_ext M _ (fun n => / 2 * 1
                + (- / 2) * cos (INR n * (2 * PI * IZR (2 * m) / INR M)))).
    + rewrite sumR_plus, sumR_const, sumR_scal, Hc. lra.
    + intros n _. rewrite Hdouble, cos_2a_sin. lra.
  - rewrite (sumR_ext M _ (fun n => / 2
                * sin (INR n * (2 * PI * IZR (2 * m) / INR M)))).
    + rewrite sumR_scal, Hs. lra.
    + intros n _. rewrite Hdouble, sin_2a. lra.
Qed.

(** X30. The scaling [2 / N] of the magnitudes: when the buffer starts
    with a sinusoid [A cos(2 pi m n / N + phi)] at the centre frequency of
    bin [m], [0 < m < N / 2], the spectrum computed without a window reads
    the amplitude [A] at bin [m], whatever the phase, and the frequency
    the bin is drawn at, [m * binHz], is that of the sinusoid. *)
Theorem tone_reads_amplitude (fuel : nat) (K : Z) (samples : list R)
    (sampleRate A phi : R) (m : Z) :
  (2 <= K <= 29)%Z -> (Z.to_nat (2 ^ K) < fuel)%nat ->
  (0 < m < 2 ^ K / 2)%Z -> 0 <= A ->
  (forall n, (0 <= n < 2 ^ K)%Z ->
     samples.[n] = A * cos (2 * PI * IZR m * IZR n / IZR (2 ^ K) + phi)) ->
  exists frame,
    analyze fuel samples sampleRate (2 ^ K) none = Returned frame /\
    (mags frame).[m] = A /\
    IZR m * binHz frame = IZR m * sampleRate / IZR (2 ^ K).
Proof.
  intros HK Hfuel Hm HA Htone.
  pose proof (pow2_bounds K 29 ltac:(lia)) as HN.
  set (N := (2 ^ K)%Z) in *.
  assert (Hnp : nextPow2 N = N) by (apply nextPow2_pow2; lia).
  destruct (analyze_spec fuel samples sampleRate N none)
    as (x & re & im & mg & Hseg & Hlx & Hfft & _ & _ & Han & Hlm & Hmg);
    [lia|by rewrite Hnp|].
  destruct (segment_none samples N ltac:(lia)) as (x0 & Hseg0 & _ & _ & Hcopy & Hpad).
  rewrite Hseg in Hseg0. injection Hseg0 as <-.
  assert (Hx : forall n, (0 <= n < N)%Z ->
            x.[n] = A * cos (2 * PI * IZR m * IZR n / IZR N + phi)).
  { intros n Hn. rewrite <- (Htone n Hn).
    destruct (Z_lt_ge_dec n (Z.min N (len samples))) as [Hin|Hout].
    - apply Hcopy. lia.
    - rewrite Hpad by lia. symmetry. apply aget_past_end. lia. }
  destruct (fftComplex_dft fuel x) as (re' & im' & Hfft' & _ & _ & Hdft).
  { rewrite Hlx. lia. }
  { by rewrite Hlx, Hnp. }
  rewrite Hfft in Hfft'. injection Hfft' as <- <-.
  rewrite Hlx, Hnp in Hdft.
  assert (Hdiv : (0 <= N / 2 /\ 2 * (N / 2) <= N)%Z).
  { split; [apply Z.div_pos; lia|apply Z.mul_div_le; lia]. }
  destruct (Hdft m ltac:(lia)) as [Hre Him].
  exists {| mags := mg; binHz := sampleRate / IZR N |}.
  split; [done|]. cbn [mags binHz].
  assert (HNR : 0 < IZR N) by (apply IZR_lt; lia).
  split; [|field; lra].
  rewrite (Hmg m ltac:(lia)), Hre, Him.
  set (M := Z.to_nat N).
  assert (HMN : INR M = IZR N) by (unfold M; rewrite INR_IZR_INZ, Z2Nat.id; [done|lia]).
  destruct (tone_sums M m ltac:(unfold M; lia)) as (Hcc & Hss & Hsc).
  pose (alpha := fun n : nat => 2 * PI * INR n * IZR m / INR M).
  change (sumR M (fun n => cos (alpha n) * cos (alpha n)) = INR M / 2) in Hcc.
  change (sumR M (fun n => sin (alpha n) * sin (alpha n)) = INR M / 2) in Hss.
  change (sumR M (fun n => sin (alpha n) * cos (alpha n)) = 0) in Hsc.
  assert (Hxn : forall n, (n < M)%nat ->
            x.[Z.of_nat n] = A * cos phi * cos (alpha n) - A * sin phi * sin (alpha n)).
  { intros n Hn. rewrite Hx by (unfold M in Hn; lia).
    replace (2 * PI * IZR m * IZR (Z.of_nat n) / IZR N) with (alpha n)
      by (unfold alpha; rewrite HMN, <- INR_IZR_INZ; field; lra).
    rewrite cos_plus. ring. }
  assert (Er : dft_re x N m = A * cos phi * (IZR N / 2)).
  { unfold dft_re, dft_re_of. fold M.
    rewrite (sumR_ext M _ (fun n => A * cos phi * (cos (alpha n) * cos (alpha n))
                            + (- (A * sin phi)) * (sin (alpha n) * cos (alpha n)))).
    - rewrite sumR_plus, !sumR_scal, Hcc, Hsc, HMN. ring.
    - intros n Hn. rewrite (Hxn n Hn). fold (alpha n). ring. }
  assert (Ei : dft_im x N m = A * sin phi * (IZR N / 2)).
  { unfold dft_im, dft_im_of. fold M.
    rewrite (sumR_ext M _ (fun n => A * cos phi * (sin (alpha n) * cos (alpha n))
                            + (- (A * sin phi)) * (sin (alpha n) * sin (alpha n)))).
    - rewrite sumR_plus, !sumR_scal, Hss, Hsc, HMN. ring.
    - intros n Hn. rewrite (Hxn n Hn). fold (alpha n). ring. }
  rewrite Er, Ei. unfold hypot.
  replace (A * cos phi * (IZR N / 2) * (A * cos phi * (IZR N / 2))
           + A * sin phi * (IZR N / 2) * (A * sin phi * (IZR N / 2)))
    with ((A * (IZR N / 2)) * (A * (IZR N / 2)) * (sin phi * sin phi + cos phi * cos phi))
    by ring.
  pose proof (sin2_cos2 phi) as Hsc2. unfold Rsqr in Hsc2. rewrite Hsc2, Rmult_1_r.
  rewrite sqrt_square by nra. field. lra.
Qed.

Lemma tone_reads_amplitude_witness :
  exists frame,
    analyze 5 [1; 0; -1; 0] 48000 (2 ^ 2) none = Returned frame /\
    (mags frame).[1] = 1 /\
    IZR 1 * binHz frame = IZR 1 * 48000 / IZR (2 ^ 2).
Proof.
  apply (tone_reads_amplitude 5 2 [1; 0; -1; 0] 48000 1 0 1).
  - lia.
  - vm_compute. lia.
  - vm_compute. split; reflexivity.
  - lra.
  - intros n Hn. change (2 ^ 2)%Z with 4%Z in *.
    assert (n = 0 \/ n = 1 \/ n = 2 \/ n = 3)%Z as [-> | [-> | [-> | ->]]] by lia.
    + replace (2 * PI * 1 * 0 / 4 + 0) with 0 by field. rewrite cos_0.
      vm_compute. lra.
    + replace (2 * PI * 1 * 1 / 4 + 0) with (PI / 2) by field. rewrite cos_PI2.
      vm_compute. lra.
    + replace (2 * PI * 1 * 2 / 4 + 0) with PI by field. rewrite cos_PI.
      vm_compute. lra.
    + replace (2 * PI * 1 * 3 / 4 + 0) with (3 * (PI / 2)) by field. rewrite cos_3PI2.
      vm_compute. lra.
Defined.

End ToneMore.
